(** * GoRpc: a shallow embedding of the client call multiplexer, the service
      registry and the server request loop of TheR1sing3un/GoRpc.

    Go packages become modules ([utf8], [fmt], [codec], [reflect], [ast]);
    package [gorpc] itself (client.go, service.go and the server with the
    service registry) is embedded at top level.  Go objects that are shared
    by pointer ([*Call], [*Option]) live in explicit stores indexed by
    addresses.  [uint64] values are integers in [Z] with the wrap-around
    written out.  A connection is what the program can observe of it: the
    values the peer sends, the outcome of each write, and the record of the
    calls made on it.

    The first part holds the definitions, the second the properties: the
    invariant of the client under every interleaving of senders, reader
    loop and [Close], then the statements C1 to C10, then further
    properties of the same code, X1 to X24. *)

From Stdlib Require Import ZArith Lia Ascii.
From stdpp Require Import base option list gmap strings.

Local Open Scope Z_scope.
Set Warnings "-register-all".

(** ** Machine integers *)

Definition uint64_modulus : Z := 2 ^ 64.
Definition uint64_max : Z := 2 ^ 64 - 1.

(** [x + 1] on a [uint64]: Go wraps silently. *)
Definition uint64_incr (x : Z) : Z := (x + 1) mod uint64_modulus.

Definition byte_of (a : ascii) : Z := Z.of_nat (nat_of_ascii a).
Definition ascii_of_byte (b : Z) : ascii := ascii_of_nat (Z.to_nat b).

(** ** Package unicode/utf8 (standard library), the part the code reaches *)
Module utf8.

Definition RuneError : Z := 0xFFFD.
Definition RuneSelf : Z := 0x80.

Definition in_range (lo hi b : Z) : bool := (lo <=? b) && (b <=? hi).

(** The table [first] together with [acceptRanges]: for a leading byte,
    the length of the sequence and the range allowed for the second byte.
    [None] is the entry [xx] (invalid leading byte). *)
Definition first (b0 : Z) : option (nat * (Z * Z)) :=
  if in_range 0xC2 0xDF b0 then Some (2%nat, (0x80, 0xBF))
  else if b0 =? 0xE0 then Some (3%nat, (0xA0, 0xBF))
  else if in_range 0xE1 0xEC b0 then Some (3%nat, (0x80, 0xBF))
  else if b0 =? 0xED then Some (3%nat, (0x80, 0x9F))
  else if in_range 0xEE 0xEF b0 then Some (3%nat, (0x80, 0xBF))
  else if b0 =? 0xF0 then Some (4%nat, (0x90, 0xBF))
  else if in_range 0xF1 0xF3 b0 then Some (4%nat, (0x80, 0xBF))
  else if b0 =? 0xF4 then Some (4%nat, (0x80, 0x8F))
  else None.

(** [DecodeRuneInString s]: the first rune of [s] and its width in bytes. *)
Definition DecodeRuneInString (s : list ascii) : Z * nat :=
  match s with
  | [] => (RuneError, 0%nat)
  | a0 :: _ =>
    let s0 := byte_of a0 in
    if s0 <? RuneSelf then (s0, 1%nat)
    else
      match first s0 with
      | None => (RuneError, 1%nat)
      | Some (sz, (lo, hi)) =>
        if (length s <? sz)%nat then (RuneError, 1%nat)
        else
          let s1 := byte_of (nth 1 s zero) in
          if negb (in_range lo hi s1) then (RuneError, 1%nat)
          else if (sz <=? 2)%nat then
            (Z.lor (Z.shiftl (Z.land s0 0x1F) 6) (Z.land s1 0x3F), 2%nat)
          else
            let s2 := byte_of (nth 2 s zero) in
            if negb (in_range 0x80 0xBF s2) then (RuneError, 1%nat)
            else if (sz <=? 3)%nat then
              (Z.lor (Z.shiftl (Z.land s0 0x0F) 12)
                 (Z.lor (Z.shiftl (Z.land s1 0x3F) 6) (Z.land s2 0x3F)), 3%nat)
            else
              let s3 := byte_of (nth 3 s zero) in
              if negb (in_range 0x80 0xBF s3) then (RuneError, 1%nat)
              else
                (Z.lor (Z.shiftl (Z.land s0 0x07) 18)
                   (Z.lor (Z.shiftl (Z.land s1 0x3F) 12)
                      (Z.lor (Z.shiftl (Z.land s2 0x3F) 6) (Z.land s3 0x3F))),
                 4%nat)
      end
  end.

Definition encode3 (r : Z) : list ascii :=
  [ascii_of_byte (Z.lor 0xE0 (Z.shiftr r 12));
   ascii_of_byte (Z.lor 0x80 (Z.land (Z.shiftr r 6) 0x3F));
   ascii_of_byte (Z.lor 0x80 (Z.land r 0x3F))].

(** [AppendRune nil r]: the UTF-8 encoding of a rune. *)
Definition EncodeRune (r : Z) : list ascii :=
  if in_range 0 0x7F r then [ascii_of_byte r]
  else if in_range 0x80 0x7FF r then
    [ascii_of_byte (Z.lor 0xC0 (Z.shiftr r 6));
     ascii_of_byte (Z.lor 0x80 (Z.land r 0x3F))]
  else if (r <? 0) || (0x10FFFF <? r) || in_range 0xD800 0xDFFF r then
    encode3 RuneError
  else if r <=? 0xFFFF then encode3 r
  else
    [ascii_of_byte (Z.lor 0xF0 (Z.shiftr r 18));
     ascii_of_byte (Z.lor 0x80 (Z.land (Z.shiftr r 12) 0x3F));
     ascii_of_byte (Z.lor 0x80 (Z.land (Z.shiftr r 6) 0x3F));
     ascii_of_byte (Z.lor 0x80 (Z.land r 0x3F))].

End utf8.

(** ** Package fmt (standard library): formatting with an empty operand list

    [client.receive] builds an error with [fmt.Errorf(h.Error)]: the header's
    text is the format string and there is no operand.  [doPrintf0] follows
    [pp.doPrintf] for [len(a) = 0]: plain bytes are copied, and each verb
    produces one of the diagnostics of the package documentation. *)
Module fmt.

Definition is_digit (a : ascii) : bool := utf8.in_range 48 57 (byte_of a).

Definition is_flag (a : ascii) : bool :=
  Ascii.eqb a "#" || Ascii.eqb a "0" || Ascii.eqb a "+"
  || Ascii.eqb a "-" || Ascii.eqb a " ".

Definition tooLarge (x : Z) : bool := (1000000 <? x) || (x <? -1000000).

(** [parsenum s start end] on the slice [l = s[start:end]]; the result is
    [(num, isnum, newi - start)].  On overflow Go jumps to [end]. *)
Fixpoint parsenum_from (l : list ascii) (num : Z) (isnum : bool)
    (n total : nat) : Z * bool * nat :=
  match l with
  | a :: r =>
    if is_digit a then
      if tooLarge num then (0, false, total)
      else parsenum_from r (num * 10 + (byte_of a - 48)) true (S n) total
    else (num, isnum, n)
  | [] => (num, isnum, n)
  end.

Definition parsenum (l : list ascii) : Z * bool * nat :=
  parsenum_from l 0 false 0 (length l).

(** Position of the first ["]"] at index [>= 1]. *)
Fixpoint closing_bracket (l : list ascii) (i : nat) : option nat :=
  match l with
  | [] => None
  | a :: r => if Ascii.eqb a "]" then Some i else closing_bracket r (S i)
  end.

(** [parseArgNumber format] where [format] starts with ["["]:
    [(index, wid, ok)]. *)
Definition parseArgNumber (l : list ascii) : Z * nat * bool :=
  if (length l <? 3)%nat then (0, 1%nat, false)
  else
    match closing_bracket (drop 1 l) 1 with
    | None => (0, 1%nat, false)
    | Some i =>
      let '(width, ok, used) := parsenum (take (i - 1) (drop 1 l)) in
      if negb ok || negb (1 + used =? i)%nat then (0, S i, false)
      else (width - 1, S i, true)
    end.

(** [pp.argNumber] with [numArgs = 0]: no index is ever in range, so a
    bracket always clears [goodArgNum].  Result: (bytes used, found,
    goodArgNum). *)
Definition argNumber (l : list ascii) (good : bool) : nat * bool * bool :=
  match l with
  | a :: _ =>
    if Ascii.eqb a "[" then
      let '(_, wid, ok) := parseArgNumber l in (wid, ok, false)
    else (0%nat, false, good)
  | [] => (0%nat, false, good)
  end.

(** The flag loop: how many leading bytes are flags. *)
Fixpoint count_flags (l : list ascii) : nat :=
  match l with
  | a :: r => if is_flag a then S (count_flags r) else 0%nat
  | [] => 0%nat
  end.

Definition starts_with (a : ascii) (l : list ascii) : bool :=
  match l with b :: _ => Ascii.eqb a b | [] => false end.

Definition badWidthString : list ascii := String.list_ascii_of_string "%!(BADWIDTH)".
Definition badPrecString : list ascii := String.list_ascii_of_string "%!(BADPREC)".
Definition noVerbString : list ascii := String.list_ascii_of_string "%!(NOVERB)".
Definition badIndexString : list ascii := String.list_ascii_of_string "(BADINDEX)".
Definition missingString : list ascii := String.list_ascii_of_string "(MISSING)".
Definition percentBangString : list ascii := String.list_ascii_of_string "%!".

(** One verb: [l] is the format after the ["%"]; the result is what is
    written and how many bytes of [l] were used. *)
Definition verb0 (l : list ascii) : list ascii * nat :=
  (* flags *)
  let nflags := count_flags l in
  let l1 := drop nflags l in
  (* explicit argument index *)
  let '(n1, afterIndex1, good1) := argNumber l1 true in
  let l2 := drop n1 l1 in
  (* width *)
  let '(out3, n3, afterIndex3, good3) :=
    if starts_with "*" l2 then (badWidthString, 1%nat, false, good1)
    else
      let '(_, widPresent, used) := parsenum l2 in
      ([], used, afterIndex1,
       if afterIndex1 && widPresent then false else good1) in
  let l3 := drop n3 l2 in
  (* precision *)
  let '(out4, n4, afterIndex4, good4) :=
    if starts_with "." l3 then
      let good := if afterIndex3 then false else good3 in
      let l3' := drop 1 l3 in
      let '(na, afterIndex, good') := argNumber l3' good in
      let l3'' := drop na l3' in
      if starts_with "*" l3'' then
        (badPrecString, (1 + na + 1)%nat, false, good')
      else
        let '(_, _, used) := parsenum l3'' in
        ([], (1 + na + used)%nat, afterIndex, good')
    else ([], 0%nat, afterIndex3, good3) in
  let l4 := drop n4 l3 in
  let '(n5, _, good5) :=
    if afterIndex4 then (0%nat, afterIndex4, good4) else argNumber l4 good4 in
  let l5 := drop n5 l4 in
  let used := (nflags + n1 + n3 + n4 + n5)%nat in
  match l5 with
  | [] => (out3 ++ out4 ++ noVerbString, used)
  | a :: _ =>
    let '(verb, size) :=
      if byte_of a <? utf8.RuneSelf then (byte_of a, 1%nat)
      else utf8.DecodeRuneInString l5 in
    let out :=
      if verb =? byte_of "%" then [ascii_of_byte (byte_of "%")]
      else if negb good5 then
        percentBangString ++ utf8.EncodeRune verb ++ badIndexString
      else percentBangString ++ utf8.EncodeRune verb ++ missingString in
    (out3 ++ out4 ++ out, (used + size)%nat)
  end.

(** The format loop; [skip] counts bytes already used by the last verb. *)
Fixpoint doPrintf0 (skip : nat) (format : list ascii) : list ascii :=
  match format with
  | [] => []
  | a :: rest =>
    match skip with
    | S k => doPrintf0 k rest
    | O =>
      if Ascii.eqb a "%" then
        let '(out, n) := verb0 rest in out ++ doPrintf0 n rest
      else a :: doPrintf0 0 rest
    end
  end.

(** [fmt.Sprintf(format)] and the text of [fmt.Errorf(format)]. *)
Definition Sprintf0 (format : string) : string :=
  String.string_of_list_ascii (doPrintf0 0 (String.list_ascii_of_string format)).

End fmt.

(** ** Error values

    The constructors record how the program built the error; [err_Error] is
    the method [Error()]. *)
Inductive error :=
| errors_New (text : string)
| fmt_Errorf (format : string)          (* fmt.Errorf(format), no operand *)
| io_EOF
| io_ErrUnexpectedEOF
| conn_error (text : string).           (* any other failure of the transport
                                           or of the decoder *)

Definition err_Error (e : error) : string :=
  match e with
  | errors_New text => text
  | fmt_Errorf format => fmt.Sprintf0 format
  | io_EOF => "EOF"
  | io_ErrUnexpectedEOF => "unexpected EOF"
  | conn_error text => text
  end.

(** ** Protocol negotiation (declared in the server file of package gorpc) *)

Definition MagicNumber : Z := 0x3bef5c.

Record Option := { MagicNumber_ : Z; CodecType : string }.

(** ** Package codec *)
Module codec.

Record Header := { ServiceMethod : string; Seq : Z; Error : string }.

Definition GobType : string := "application/gob".
Definition JsonType : string := "application/json".

Section Connection.
Context {value : Type}.

(** What the next value on the wire turns into when the gob decoder
    reads it as a header or as a body; [Broken] fails whatever the
    destination is, and a read with a nil destination drops a decodable
    value without looking at it. *)
Inductive message :=
| Decodes (hdr : Header + error) (body : value + error)
| Broken (e : error).

(** Calls made on a connection, oldest first. *)
Inductive event :=
| EJsonDecode
| EJsonEncode (o : Option)
| EReadHeader
| EReadBody (discard : bool)
| EWrite (h : Header) (body : value)
| EClose.

(** An [io.ReadWriteCloser] as the program sees it: what the peer sends
    ([hello] for the JSON decoder, then [incoming]), how encoding the own
    [Option] ends ([hello_result]) and how the n-th write of the codec ends
    ([write_result], [None] for success), and the calls made so far. *)
Record Conn := {
  hello : Option + error;
  hello_result : option error;
  incoming : list message;
  write_result : nat -> option error;
  writes : nat;
  events : list event;
  conn_closed : bool
}.

Definition errClosed : error := conn_error "use of closed network connection".

Definition log (ev : event) (k : Conn) : Conn :=
  {| hello := hello k; hello_result := hello_result k;
     incoming := incoming k; write_result := write_result k;
     writes := writes k; events := events k ++ [ev];
     conn_closed := conn_closed k |}.

Definition set_incoming (l : list message) (k : Conn) : Conn :=
  {| hello := hello k; hello_result := hello_result k;
     incoming := l; write_result := write_result k;
     writes := writes k; events := events k;
     conn_closed := conn_closed k |}.

Definition set_closed (k : Conn) : Conn :=
  {| hello := hello k; hello_result := hello_result k;
     incoming := incoming k; write_result := write_result k;
     writes := writes k; events := events k;
     conn_closed := true |}.

Definition count_write (k : Conn) : Conn :=
  {| hello := hello k; hello_result := hello_result k;
     incoming := incoming k; write_result := write_result k;
     writes := S (writes k); events := events k;
     conn_closed := conn_closed k |}.

(** [conn.Close()] *)
Definition conn_Close (k : Conn) : option error * Conn :=
  (if conn_closed k then Some errClosed else None, set_closed (log EClose k)).

(** The gob codec: decoder and encoder over one connection. *)
Record GobCodec := { conn : Conn }.

Definition NewGobCodecFunc (k : Conn) : GobCodec := {| conn := k |}.

(** [c.dec.Decode(h)] *)
Definition ReadHeader (c : GobCodec) : (Header + error) * GobCodec :=
  let k := log EReadHeader (conn c) in
  if conn_closed k then (inr errClosed, {| conn := k |})
  else
    match incoming k with
    | [] => (inr io_EOF, {| conn := k |})
    | Decodes hdr _ :: rest => (hdr, {| conn := set_incoming rest k |})
    | Broken e :: rest => (inr e, {| conn := set_incoming rest k |})
    end.

(** [c.dec.Decode(body)]; [dst = false] is the call with a nil body.
    On success with a destination the decoded value is returned. *)
Definition ReadBody (dst : bool) (c : GobCodec)
  : (option value + error) * GobCodec :=
  let k := log (EReadBody (negb dst)) (conn c) in
  if conn_closed k then (inr errClosed, {| conn := k |})
  else
    match incoming k with
    | [] => (inr io_EOF, {| conn := k |})
    | Decodes _ body :: rest =>
      (if dst then
         match body with inl v => inl (Some v) | inr e => inr e end
       else inl None,
       {| conn := set_incoming rest k |})
    | Broken e :: rest => (inr e, {| conn := set_incoming rest k |})
    end.

(** [Write]: encode header and body, flush, and close the connection
    when encoding failed. *)
Definition Write (h : Header) (body : value) (c : GobCodec)
  : option error * GobCodec :=
  let k := count_write (log (EWrite h body) (conn c)) in
  match write_result (conn c) (writes (conn c)) with
  | Some e => (Some e, {| conn := snd (conn_Close k) |})
  | None => (None, {| conn := k |})
  end.

Definition Close (c : GobCodec) : option error * GobCodec :=
  let '(e, k) := conn_Close (conn c) in (e, {| conn := k |}).

(** [NewCodeFuncMap] after [init]: only the gob constructor is entered. *)
Definition NewCodeFuncMap : gmap string (Conn -> GobCodec) :=
  <[GobType := NewGobCodecFunc]> ∅.

End Connection.

Arguments message : clear implicits.
Arguments event : clear implicits.
Arguments Conn : clear implicits.
Arguments GobCodec : clear implicits.
Arguments NewCodeFuncMap : clear implicits.

End codec.

(** ** Package gorpc: the client *)

Definition ErrShutdown : error := errors_New "conn is shut down".

Section Client.
Context {value : Type}.

(** A [*Call] is an address into [calls]; [Done] is the address of the
    notification channel.  [Reply] holds the object the caller's reply
    pointer designates. *)
Record Call := {
  Seq : Z;
  ServiceMethod : string;
  Args : value;
  Reply : value;
  Error : option error;
  Done : nat
}.

Record Client := {
  c : codec.GobCodec value;
  option_ : Option;
  header : codec.Header;
  seq : Z;
  pending : gmap Z nat;
  closed : bool;
  shutdown : bool
}.

(** The part of the Go heap the client works on: the client itself, the
    calls by address, the capacity of every channel by address, and every
    send performed on a [Done] channel, oldest first, as (channel, call). *)
Record World := {
  client : Client;
  calls : gmap nat Call;
  chans : gmap nat nat;
  sent : list (nat * nat)
}.

Definition with_client (f : Client -> Client) (w : World) : World :=
  {| client := f (client w); calls := calls w; chans := chans w;
     sent := sent w |}.

Definition with_call (p : nat) (f : Call -> Call) (w : World) : World :=
  {| client := client w; calls := alter f p (calls w); chans := chans w;
     sent := sent w |}.

Definition set_c (c' : codec.GobCodec value) (cl : Client) : Client :=
  {| c := c'; option_ := option_ cl; header := header cl; seq := seq cl;
     pending := pending cl; closed := closed cl; shutdown := shutdown cl |}.

Definition set_header (h : codec.Header) (cl : Client) : Client :=
  {| c := c cl; option_ := option_ cl; header := h; seq := seq cl;
     pending := pending cl; closed := closed cl; shutdown := shutdown cl |}.

Definition set_seq (s : Z) (cl : Client) : Client :=
  {| c := c cl; option_ := option_ cl; header := header cl; seq := s;
     pending := pending cl; closed := closed cl; shutdown := shutdown cl |}.

Definition set_pending (m : gmap Z nat) (cl : Client) : Client :=
  {| c := c cl; option_ := option_ cl; header := header cl; seq := seq cl;
     pending := m; closed := closed cl; shutdown := shutdown cl |}.

Definition set_closed (cl : Client) : Client :=
  {| c := c cl; option_ := option_ cl; header := header cl; seq := seq cl;
     pending := pending cl; closed := true; shutdown := shutdown cl |}.

Definition set_shutdown (cl : Client) : Client :=
  {| c := c cl; option_ := option_ cl; header := header cl; seq := seq cl;
     pending := pending cl; closed := closed cl; shutdown := true |}.

Definition set_Seq (s : Z) (k : Call) : Call :=
  {| Seq := s; ServiceMethod := ServiceMethod k; Args := Args k;
     Reply := Reply k; Error := Error k; Done := Done k |}.

Definition set_Error (e : error) (k : Call) : Call :=
  {| Seq := Seq k; ServiceMethod := ServiceMethod k; Args := Args k;
     Reply := Reply k; Error := Some e; Done := Done k |}.

Definition set_Reply (v : value) (k : Call) : Call :=
  {| Seq := Seq k; ServiceMethod := ServiceMethod k; Args := Args k;
     Reply := v; Error := Error k; Done := Done k |}.

(** [call.done()]: [call.Done <- call].  Every address the client holds
    designates an allocated call. *)
Definition done (p : nat) (w : World) : World :=
  match calls w !! p with
  | Some k =>
    {| client := client w; calls := calls w; chans := chans w;
       sent := sent w ++ [(Done k, p)] |}
  | None => w
  end.

Definition Close (w : World) : option error * World :=
  if closed (client w) then (Some ErrShutdown, w)
  else
    let '(e, c') := codec.Close (c (client w)) in
    (e, with_client (λ cl, set_c c' (set_closed cl)) w).

Definition IsAvailable (w : World) : bool :=
  negb (shutdown (client w)) && negb (closed (client w)).

Definition registerCall (call : nat) (w : World) : (Z * option error) * World :=
  if closed (client w) || shutdown (client w) then ((0, Some ErrShutdown), w)
  else
    let s := seq (client w) in
    let w1 := with_call call (set_Seq s) w in
    let w2 := with_client (λ cl, set_pending (<[s := call]> (pending cl)) cl) w1 in
    let w3 := with_client (set_seq (uint64_incr s)) w2 in
    ((s, None), w3).

Definition removeCall (s : Z) (w : World) : option nat * World :=
  (pending (client w) !! s,
   with_client (λ cl, set_pending (delete s (pending cl)) cl) w).

(** One turn of the loop over [client.pending] in [terminateCalls]. *)
Definition terminate_one (err : error) (w : World) (p : nat) : World :=
  done p (with_call p (set_Error err) w).

(** Go ranges over the map in an unspecified order; the model takes the
    order of [map_to_list]. *)
Definition terminateCalls (err : error) (w : World) : World :=
  let w1 := with_client set_shutdown w in
  foldl (terminate_one err) w1 (snd <$> map_to_list (pending (client w1))).

Definition read_error {A} (r : A + error) : option error :=
  match r with inl _ => None | inr e => Some e end.

(** The body of the loop in [receive]: one header, then its body.  The
    second component is [err] at the end of the turn. *)
Definition receive_iter (w : World) : World * option error :=
  let '(rh, c1) := codec.ReadHeader (c (client w)) in
  let w1 := with_client (set_c c1) w in
  match rh with
  | inr e => (w1, Some e)
  | inl h =>
    let '(call, w2) := removeCall (codec.Seq h) w1 in
    match call with
    | None =>
      let '(rb, c2) := codec.ReadBody false (c (client w2)) in
      (with_client (set_c c2) w2, read_error rb)
    | Some p =>
      if negb (String.eqb (codec.Error h) "") then
        let w3 := with_call p (set_Error (fmt_Errorf (codec.Error h))) w2 in
        let '(rb, c2) := codec.ReadBody false (c (client w3)) in
        (done p (with_client (set_c c2) w3), read_error rb)
      else
        let '(rb, c2) := codec.ReadBody true (c (client w2)) in
        let w3 := with_client (set_c c2) w2 in
        let w4 :=
          match rb with
          | inr e =>
            with_call p
              (set_Error (errors_New ("reading body " +:+ err_Error e))) w3
          | inl (Some v) => with_call p (set_Reply v) w3
          | inl None => w3
          end in
        (done p w4, read_error rb)
    end
  end.

(** [receive]: the loop runs until a read fails, then [terminateCalls].
    Every turn that goes on has used up a message of the connection, so
    one more turn than there are messages is enough. *)
Fixpoint receive_loop (turns : nat) (w : World) : World :=
  match turns with
  | O => w
  | S n =>
    let '(w', err) := receive_iter w in
    match err with
    | Some e => terminateCalls e w'
    | None => receive_loop n w'
    end
  end.

Definition unread (w : World) : nat :=
  length (codec.incoming (codec.conn (c (client w)))).

Definition receive (w : World) : World := receive_loop (S (unread w)) w.

Definition newClientCodec (c0 : codec.GobCodec value) (o : Option) : Client :=
  {| c := c0; option_ := o;
     header := {| codec.ServiceMethod := ""; codec.Seq := 0; codec.Error := "" |};
     seq := 1; pending := ∅; closed := false; shutdown := false |}.

(** [send], in the three stretches between which the reader loop can
    run: registration and header, the write, the clean-up of a failed
    write. *)
Definition send_register (call : nat) (w : World) : option Z * World :=
  let '((s, err), w1) := registerCall call w in
  match err with
  | Some e => (None, done call (with_call call (set_Error e) w1))
  | None =>
    let sm := from_option ServiceMethod "" (calls w1 !! call) in
    (Some s,
     with_client
       (set_header
          {| codec.ServiceMethod := sm; codec.Seq := s; codec.Error := "" |})
       w1)
  end.

Definition send_write (call : nat) (w : World) : option error * World :=
  match calls w !! call with
  | Some k =>
    let '(e, c') := codec.Write (header (client w)) (Args k) (c (client w)) in
    (e, with_client (set_c c') w)
  | None => (None, w)
  end.

Definition send_failed (s : Z) (e : error) (w : World) : World :=
  let '(call, w1) := removeCall s w in
  match call with
  | Some p => done p (with_call p (set_Error e) w1)
  | None => w1
  end.

Definition send (call : nat) (w : World) : World :=
  let '(registered, w1) := send_register call w in
  match registered with
  | None => w1
  | Some s =>
    let '(err, w2) := send_write call w1 in
    match err with
    | Some e => send_failed s e w2
    | None => w2
    end
  end.

(** [Go]: allocate the call and send it.  [dn] is the caller's channel
    ([None] for nil); [None] as a result is [log.Panic]. *)
Definition Go (serviceMethod : string) (args reply : value)
    (dn : option nat) (w : World) : option (nat * World) :=
  let '(ch, w1) :=
    match dn with
    | None =>
      let ch := fresh (dom (chans w)) in
      (ch, {| client := client w; calls := calls w;
              chans := <[ch := 10%nat]> (chans w); sent := sent w |})
    | Some ch => (ch, w)
    end in
  if bool_decide (from_option id 0%nat (chans w1 !! ch) = 0%nat) then None
  else
    let p := fresh (dom (calls w1)) in
    let k := {| Seq := 0; ServiceMethod := serviceMethod; Args := args;
                Reply := reply; Error := None; Done := ch |} in
    let w2 := {| client := client w1; calls := <[p := k]> (calls w1);
                 chans := chans w1; sent := sent w1 |} in
    Some (p, send p w2).

End Client.

Arguments Call : clear implicits.
Arguments Client : clear implicits.
Arguments World : clear implicits.

(** ** Options of [Dial]

    [*Option] values are addresses into a store; [DefaultOption] is the
    package variable, allocated at address [0]. *)

Definition DefaultOption : nat := 0%nat.

Definition DefaultOption_value : Option :=
  {| MagicNumber_ := MagicNumber; CodecType := codec.GobType |}.

Definition zero_Option : Option := {| MagicNumber_ := 0; CodecType := "" |}.

Definition deref (st : gmap nat Option) (p : nat) : Option :=
  default zero_Option (st !! p).

Definition set_MagicNumber (m : Z) (o : Option) : Option :=
  {| MagicNumber_ := m; CodecType := CodecType o |}.

Definition set_CodecType (t : string) (o : Option) : Option :=
  {| MagicNumber_ := MagicNumber_ o; CodecType := t |}.

(** [parseOptions(options...)]: an element [None] is a nil pointer. *)
Definition parseOptions (options : list (option nat)) (st : gmap nat Option)
  : (nat + error) * gmap nat Option :=
  if bool_decide (length options = 0%nat)
     || bool_decide (options !! 0%nat = Some None)
  then (inl DefaultOption, st)
  else if negb (bool_decide (length options = 1%nat)) then
    (inr (errors_New "number of options is more than 1"), st)
  else
    match options !! 0%nat with
    | Some (Some p) =>
      let st1 := alter (set_MagicNumber (MagicNumber_ (deref st DefaultOption))) p st in
      let st2 :=
        if String.eqb (CodecType (deref st1 p)) "" then
          alter (set_CodecType (CodecType (deref st1 DefaultOption))) p st1
        else st1 in
      (inl p, st2)
    | _ => (inl DefaultOption, st)
    end.

Section Dial.
Context {value : Type}.

(** [NewClient]: the client (its reader loop is started by
    [newClientCodec]) or the error, and the connection afterwards. *)
Definition NewClient (k : codec.Conn value) (o : Option)
  : (Client value + error) * codec.Conn value :=
  match codec.NewCodeFuncMap value !! CodecType o with
  | None =>
    (* fmt.Errorf("invalid codec type %s", option.CodecType) *)
    (inr (errors_New ("invalid codec type " +:+ CodecType o)), k)
  | Some codecFunc =>
    let k1 := codec.log (codec.EJsonEncode o) k in
    match codec.hello_result k with
    | Some e => (inr e, snd (codec.conn_Close k1))
    | None => (inl (newClientCodec (codecFunc k1) o), k1)
    end
  end.

(** What a call of [Dial] did: whether it reached [net.Dial], what it
    returned ([None]: it panicked on the nil connection of a failed
    dial), and the connection it left. *)
Record Dialed := {
  reached_net_Dial : bool;
  returned : option (Client value + error);
  connection : option (codec.Conn value)
}.

Definition Dial (net_Dial : string -> string -> codec.Conn value + error)
    (network address : string) (options : list (option nat))
    (st : gmap nat Option) : Dialed * gmap nat Option :=
  let '(r, st1) := parseOptions options st in
  match r with
  | inr e =>
    ({| reached_net_Dial := false; returned := Some (inr e);
        connection := None |}, st1)
  | inl p =>
    match net_Dial network address with
    | inr _ =>
      (* the error is dropped and the nil connection is used *)
      ({| reached_net_Dial := true; returned := None; connection := None |},
       st1)
    | inl k =>
      let '(res, k1) := NewClient k (deref st1 p) in
      let k2 :=
        match res with
        | inl _ => k1
        | inr _ => snd (codec.conn_Close k1)
        end in
      ({| reached_net_Dial := true; returned := Some res;
          connection := Some k2 |}, st1)
    end
  end.

End Dial.

Arguments Dialed : clear implicits.

(** ** The client and its users as a transition system

    [send] holds [sendLock] from registration to the end of the clean-up;
    [registerCall], [removeCall] and the body of [terminateCalls] hold
    [lock].  The reader loop takes [lock] only inside [removeCall], so a
    turn of the loop can fall between two stretches of a [send];
    [terminateCalls] waits for [sendLock].  A send on a [Done] channel is
    taken to find room in the buffer. *)
Section System.
Context {value : Type}.

Inductive sender_pc :=
| SIdle
| SRegistered (s : Z) (call : nat)
| SWriteFailed (s : Z) (e : error).

Inductive reader_pc :=
| RRunning
| RExiting (e : error)
| RDone.

(** [registered] is a history variable: the calls [registerCall] has
    admitted, oldest first. *)
Record System := {
  world : World value;
  sender : sender_pc;
  reader : reader_pc;
  registered : list nat
}.

Definition alloc_call (k : Call value) (w : World value)
  : nat * World value :=
  let p := fresh (dom (calls w)) in
  (p, {| client := client w; calls := <[p := k]> (calls w);
         chans := chans w; sent := sent w |}).

Definition initial (cl : Client value) : System :=
  {| world := {| client := cl; calls := ∅; chans := ∅; sent := [] |};
     sender := SIdle; reader := RRunning; registered := [] |}.

Inductive step : System -> System -> Prop :=
| step_send_register sys k p w1 r w2 :
    sender sys = SIdle ->
    Error k = None ->
    alloc_call k (world sys) = (p, w1) ->
    send_register p w1 = (r, w2) ->
    step sys
      {| world := w2;
         sender := match r with Some s => SRegistered s p | None => SIdle end;
         reader := reader sys;
         registered :=
           match r with
           | Some _ => registered sys ++ [p]
           | None => registered sys
           end |}
| step_send_write sys s p r w1 :
    sender sys = SRegistered s p ->
    send_write p (world sys) = (r, w1) ->
    step sys
      {| world := w1;
         sender := match r with Some e => SWriteFailed s e | None => SIdle end;
         reader := reader sys; registered := registered sys |}
| step_send_failed sys s e :
    sender sys = SWriteFailed s e ->
    step sys
      {| world := send_failed s e (world sys); sender := SIdle;
         reader := reader sys; registered := registered sys |}
| step_receive sys w1 r :
    reader sys = RRunning ->
    receive_iter (world sys) = (w1, r) ->
    step sys
      {| world := w1; sender := sender sys;
         reader := match r with Some e => RExiting e | None => RRunning end;
         registered := registered sys |}
| step_terminate sys e :
    reader sys = RExiting e ->
    sender sys = SIdle ->
    step sys
      {| world := terminateCalls e (world sys); sender := SIdle;
         reader := RDone; registered := registered sys |}
| step_Close sys r w1 :
    Close (world sys) = (r, w1) ->
    step sys
      {| world := w1; sender := sender sys; reader := reader sys;
         registered := registered sys |}.

(** States a client built by [newClientCodec] can be in. *)
Definition reachable (sys : System) : Prop :=
  ∃ c0 o, rtc step (initial (newClientCodec c0 o)) sys.

(** How often [p] has been sent on a [Done] channel. *)
Definition signals (p : nat) (w : World value) : nat :=
  length (filter (λ x, x.2 = p) (sent w)).

Definition is_pending (p : nat) (w : World value) : Prop :=
  ∃ s, pending (client w) !! s = Some p.

(** The completion discipline of a registered call: until the reader
    loop has flushed the table it is either still in the table and
    unsignalled, or out of the table and signalled once; afterwards it
    has been signalled once. *)
Definition completed_once (sys : System) (p : nat) : Prop :=
  match reader sys with
  | RDone => signals p (world sys) = 1%nat
  | _ =>
    (is_pending p (world sys) ∧ signals p (world sys) = 0%nat)
    ∨ (¬ is_pending p (world sys) ∧ signals p (world sys) = 1%nat)
  end.

End System.

Arguments System : clear implicits.

(** ** Package reflect (standard library), as far as the registry uses it *)
Module reflect.

Inductive Kind :=
| Invalid | Bool | Int | Uint64 | Float64 | String | Struct | Interface
| Func | Ptr | Map | Slice | Array | Chan.

Definition Kind_eqb (a b : Kind) : bool :=
  match a, b with
  | Invalid, Invalid | Bool, Bool | Int, Int | Uint64, Uint64
  | Float64, Float64 | String, String | Struct, Struct
  | Interface, Interface | Func, Func | Ptr, Ptr | Map, Map
  | Slice, Slice | Array, Array | Chan, Chan => true
  | _, _ => false
  end.

(** A [reflect.Type]: [Name()] and [PkgPath()] are empty for a type that
    is not a defined type (such as [*T], [[]T], [struct{}]); [PkgPath()]
    is also empty for a predeclared type. *)
Inductive rtype :=
| Type_ (name pkgPath : string) (kind : Kind) (elem : option rtype).

Definition Name (t : rtype) : string := let 'Type_ n _ _ _ := t in n.
Definition PkgPath (t : rtype) : string := let 'Type_ _ p _ _ := t in p.
Definition Kind_ (t : rtype) : Kind := let 'Type_ _ _ k _ := t in k.

(** [t.Elem()]; [None] is the panic for a kind without element type. *)
Definition Elem (t : rtype) : option rtype :=
  let 'Type_ _ _ k e := t in
  match k with
  | Array | Chan | Map | Ptr | Slice => e
  | _ => None
  end.

Fixpoint rtype_eqb (a b : rtype) : bool :=
  let 'Type_ n1 p1 k1 e1 := a in
  let 'Type_ n2 p2 k2 e2 := b in
  String.eqb n1 n2 && String.eqb p1 p2 && Kind_eqb k1 k2
  && match e1, e2 with
     | None, None => true
     | Some x, Some y => rtype_eqb x y
     | _, _ => false
     end.

(** [reflect.TypeOf(( *error)(nil)).Elem()] *)
Definition errorType : rtype := Type_ "error" "" Interface None.

Definition PtrTo (t : rtype) : rtype := Type_ "" "" Ptr (Some t).

Definition invalidType : rtype := Type_ "" "" Invalid None.

(** Values handled through reflection stay abstract; these are the
    operations the registry performs on them. *)
Class Values (value : Type) := {
  New : rtype -> value;               (* reflect.New(t) *)
  Value_Elem : value -> value;        (* v.Elem() *)
  Elem_Set : value -> value -> value; (* v.Elem().Set(x), the new v *)
  MakeMap : rtype -> value;           (* reflect.MakeMap(t) *)
  MakeSlice : rtype -> value;         (* reflect.MakeSlice(t, 0, 0) *)
  empty_struct : value                (* struct{}{} *)
}.

(** A [reflect.Method]: [Type.In] starts with the receiver; [Func_] takes
    receiver, argument and reply and gives the reply after the call and
    the returned error. *)
Record Method {value : Type} := {
  Method_Name : string;
  In : list rtype;
  Out : list rtype;
  Func_ : value -> value -> value -> value * option error
}.
Arguments Method : clear implicits.

End reflect.

(** ** Package unicode / go/ast *)
Module ast.

(** [unicode.IsUpper]; [upper] stands for the Unicode tables above
    ASCII. *)
Definition IsUpper (upper : Z -> bool) (r : Z) : bool :=
  if r <? utf8.RuneSelf then utf8.in_range 65 90 r else upper r.

(** [ast.IsExported(name)]: the first rune is an upper-case letter. *)
Definition IsExported (upper : Z -> bool) (name : string) : bool :=
  IsUpper upper (utf8.DecodeRuneInString (String.list_ascii_of_string name)).1.

End ast.

(** ** Package gorpc: the service registry *)
Section Service.
Context {value : Type} `{!reflect.Values value}.
Context (upper : Z -> bool).

Record methodType := {
  method_ : reflect.Method value;
  ArgType : reflect.rtype;
  ReplyType : reflect.rtype;
  numCalls : Z
}.

Definition NumCalls (m : methodType) : Z := numCalls m.

(** [newArgv] *)
Definition newArgv (m : methodType) : option value :=
  if reflect.Kind_eqb (reflect.Kind_ (ArgType m)) reflect.Ptr then
    e ← reflect.Elem (ArgType m); Some (reflect.New e)
  else Some (reflect.Value_Elem (reflect.New (ArgType m))).

(** [newReply]; [None] when [ReplyType.Elem()] panics. *)
Definition newReply (m : methodType) : option value :=
  e ← reflect.Elem (ReplyType m);
  let reply := reflect.New e in
  Some match reflect.Kind_ e with
       | reflect.Map => reflect.Elem_Set reply (reflect.MakeMap e)
       | reflect.Slice => reflect.Elem_Set reply (reflect.MakeSlice e)
       | _ => reply
       end.

Record service := {
  name : string;
  typ : reflect.rtype;
  instance : value;
  method : gmap string methodType
}.

Definition isExportedOrBuiltinType (t : reflect.rtype) : bool :=
  ast.IsExported upper (reflect.Name t) || String.eqb (reflect.PkgPath t) "".

(** One turn of the loop of [registerMethods]. *)
Definition registerMethod (ms : gmap string methodType)
    (m : reflect.Method value) : gmap string methodType :=
  if negb (length (reflect.In m) =? 3)%nat
     || negb (length (reflect.Out m) =? 1)%nat then ms
  else if negb (reflect.rtype_eqb (nth 0 (reflect.Out m) reflect.invalidType)
                  reflect.errorType) then ms
  else
    let argType := nth 1 (reflect.In m) reflect.invalidType in
    let replyType := nth 2 (reflect.In m) reflect.invalidType in
    if negb (isExportedOrBuiltinType argType)
       || negb (isExportedOrBuiltinType replyType) then ms
    else
      <[reflect.Method_Name m :=
          {| method_ := m; ArgType := argType; ReplyType := replyType;
             numCalls := 0 |}]> ms.

(** [registerMethods] over the method set [s.typ.Method(0..)]. *)
Definition registerMethods (methods : list (reflect.Method value))
  : gmap string methodType :=
  foldl registerMethod ∅ methods.

(** What [Register] is given: a non-nil interface value with its dynamic
    type, whether it is a nil pointer, and the method set of the type. *)
Record Instance := {
  inst_value : value;
  inst_type : reflect.rtype;
  inst_nil : bool;
  inst_methods : list (reflect.Method value)
}.

Inductive result (A : Type) :=
| Ok (a : A)
| Fatal (msg : string)      (* log.Fatalf: the process exits *)
| Panic.
Arguments Ok {A} a.
Arguments Fatal {A} msg.
Arguments Panic {A}.

(** [reflect.Indirect(v).Type()] *)
Definition Indirect_Type (i : Instance) : option reflect.rtype :=
  if reflect.Kind_eqb (reflect.Kind_ (inst_type i)) reflect.Ptr then
    if inst_nil i then None else reflect.Elem (inst_type i)
  else Some (inst_type i).

Definition newService (i : Instance) : result service :=
  match Indirect_Type i with
  | None => Panic
  | Some t =>
    let n := reflect.Name t in
    if negb (ast.IsExported upper n) then
      Fatal ("rpc server: " +:+ n +:+ " is not a valid server name")
    else
      Ok {| name := n; typ := inst_type i; instance := inst_value i;
            method := registerMethods (inst_methods i) |}
  end.

Definition bump (m : methodType) : methodType :=
  {| method_ := method_ m; ArgType := ArgType m; ReplyType := ReplyType m;
     numCalls := uint64_incr (numCalls m) |}.

(** ** Package gorpc: the server *)

Record Server := { serviceMap : gmap string service }.

(** [atomic.AddUint64(&m.numCalls, 1)]: requests hold pointers to the
    descriptors of the registry, so the count is taken on the descriptor
    the registry holds under the names of [s] and [m]. *)
Definition count_call (s : service) (m : methodType) (server : Server)
  : Server :=
  {| serviceMap :=
       alter
         (λ svc,
            {| name := name svc; typ := typ svc; instance := instance svc;
               method :=
                 alter bump (reflect.Method_Name (method_ m)) (method svc) |})
         (name s) (serviceMap server) |}.

(** [s.call(m, argv, reply)]: the reply after the call, the error, and the
    registry with the call counted. *)
Definition call (s : service) (m : methodType) (argv reply : value)
    (server : Server) : (value * option error) * Server :=
  (reflect.Func_ (method_ m) (instance s) argv reply, count_call s m server).

Definition NewServer : Server := {| serviceMap := ∅ |}.

Definition Register (i : Instance) (server : Server)
  : result (option error * Server) :=
  match newService i with
  | Panic => Panic
  | Fatal msg => Fatal msg
  | Ok s =>
    match serviceMap server !! name s with
    | Some _ =>
      Ok (Some (errors_New ("rpc: service already defined: " +:+ name s)),
          server)
    | None =>
      Ok (None, {| serviceMap := <[name s := s]> (serviceMap server) |})
    end
  end.

(** [strings.LastIndex(s, ".")] on the bytes of [s], [-1] if absent. *)
Fixpoint LastIndex_dot (l : list ascii) (i : Z) (found : Z) : Z :=
  match l with
  | [] => found
  | a :: r => LastIndex_dot r (i + 1) (if Ascii.eqb a "." then i else found)
  end.

Definition LastIndex (s : string) : Z :=
  LastIndex_dot (String.list_ascii_of_string s) 0 (-1).

Definition slice (s : string) (from to : nat) : string :=
  String.string_of_list_ascii
    (take (to - from) (drop from (String.list_ascii_of_string s))).

Definition findService (server : Server) (serverMethod : string)
  : option service * option methodType * option error :=
  let dot := LastIndex serverMethod in
  if dot <? 0 then
    (None, None,
     Some (errors_New
             ("rpc server: service/method request ill-formed: " +:+ serverMethod)))
  else
    let serviceName := slice serverMethod 0 (Z.to_nat dot) in
    let methodName :=
      slice serverMethod (Z.to_nat dot + 1) (String.length serverMethod) in
    match serviceMap server !! serviceName with
    | None =>
      (None, None,
       Some (errors_New ("rpc server: can't find service: " +:+ serviceName)))
    | Some svc =>
      match method svc !! methodName with
      | None =>
        (Some svc, None,
         Some (errors_New ("rpc server: can't find method: " +:+ methodName)))
      | Some mType => (Some svc, Some mType, None)
      end
    end.

Definition invalidRequest : value := reflect.empty_struct.

Record request := {
  h : codec.Header;
  argv : option value;
  replyv : option value;
  mType : option methodType;
  service_ : option service
}.

Definition readRequestHeader (c : codec.GobCodec value)
  : (option codec.Header * option error) * codec.GobCodec value :=
  let '(r, c1) := codec.ReadHeader c in
  match r with
  | inr e => ((None, Some e), c1)
  | inl h => ((Some h, None), c1)
  end.

Definition readRequest (server : Server) (c : codec.GobCodec value)
  : result ((option request * option error) * codec.GobCodec value) :=
  let '((oh, err), c1) := readRequestHeader c in
  match oh with
  | None => Ok ((None, err), c1)
  | Some h =>
    let '(svc, mt, err) := findService server (codec.ServiceMethod h) in
    match err with
    | Some e =>
      Ok ((Some {| h := h; argv := None; replyv := None; mType := mt;
                   service_ := svc |}, Some e), c1)
    | None =>
      match m ← mt; a ← newArgv m; r ← newReply m; Some (m, a, r) with
      | None => Panic
      | Some (m, a, r) =>
        let '(rb, c2) := codec.ReadBody true c1 in
        match rb with
        | inr e =>
          Ok ((Some {| h := h; argv := Some a; replyv := Some r;
                       mType := mt; service_ := svc |}, Some e), c2)
        | inl decoded =>
          let a' :=
            match decoded with
            | None => a
            | Some v =>
              if reflect.Kind_eqb (reflect.Kind_ (ArgType m)) reflect.Ptr
              then reflect.Elem_Set a v else v
            end in
          Ok ((Some {| h := h; argv := Some a'; replyv := Some r;
                       mType := mt; service_ := svc |}, None), c2)
        end
      end
    end
  end.

Definition set_header_Error (msg : string) (h : codec.Header) : codec.Header :=
  {| codec.ServiceMethod := codec.ServiceMethod h; codec.Seq := codec.Seq h;
     codec.Error := msg |}.

(** [sendResponse]: a failed write is logged and otherwise ignored. *)
Definition sendResponse (c : codec.GobCodec value) (h : codec.Header)
    (body : value) : codec.GobCodec value :=
  (codec.Write h body c).2.

(** [handleRequest] for a request that passed [readRequest]; the state is
    the registry and the codec. *)
Definition handleRequest (st : Server * codec.GobCodec value) (req : request)
  : Server * codec.GobCodec value :=
  let '(server, c) := st in
  match service_ req, mType req, argv req, replyv req with
  | Some s, Some m, Some a, Some r =>
    let '((r', err), server') := call s m a r server in
    match err with
    | Some e =>
      (server',
       sendResponse c (set_header_Error (err_Error e) (h req)) invalidRequest)
    | None => (server', sendResponse c (h req) r')
    end
  | _, _, _, _ => st
  end.

(** Why a run of the request loop ended: the header read failed, or the
    goroutine died. *)
Inductive loop_end := LoopBreak | LoopPanic.

(** The loop of [serveCodec].  [spawned] collects the requests handed to
    [go server.handleRequest], oldest first.  A turn that goes on has used
    up a message. *)
Fixpoint serveCodec_loop (turns : nat) (server : Server)
    (c : codec.GobCodec value) (spawned : list request)
  : loop_end * codec.GobCodec value * list request :=
  match turns with
  | O => (LoopBreak, c, spawned)
  | S n =>
    match readRequest server c with
    | Ok ((req, err), c1) =>
      match err with
      | Some e =>
        match req with
        | None => (LoopBreak, c1, spawned)
        | Some r =>
          let c2 :=
            sendResponse c1 (set_header_Error (err_Error e) (h r))
              invalidRequest in
          serveCodec_loop n server c2 spawned
        end
      | None =>
        match req with
        | Some r => serveCodec_loop n server c1 (spawned ++ [r])
        | None => (LoopPanic, c1, spawned)
        end
      end
    | _ => (LoopPanic, c, spawned)
    end
  end.

(** [serveCodec]: the loop, then [wg.Wait()] and [codec.Close()].  The
    handlers run concurrently with the loop; the model lets them answer
    while the loop waits for them, which is one of the schedules. *)
Definition serveCodec (server : Server) (c : codec.GobCodec value)
  : loop_end * codec.GobCodec value * Server :=
  let turns := S (length (codec.incoming (codec.conn c))) in
  let '(e, c1, spawned) := serveCodec_loop turns server c [] in
  match e with
  | LoopPanic => (LoopPanic, c1, server)
  | LoopBreak =>
    let '(server', c2) := foldl handleRequest (server, c1) spawned in
    (LoopBreak, (codec.Close c2).2, server')
  end.

(** [ServeConn]: the handshake, the request loop, and the deferred
    [conn.Close()].  The result is how the goroutine ended, the connection
    and the registry it leaves. *)
Definition ServeConn (server : Server) (k : codec.Conn value)
  : loop_end * codec.Conn value * Server :=
  let k1 := codec.log codec.EJsonDecode k in
  match codec.hello k with
  | inr _ => (LoopBreak, (codec.conn_Close k1).2, server)
  | inl opt =>
    if negb (MagicNumber_ opt =? MagicNumber) then
      (LoopBreak, (codec.conn_Close k1).2, server)
    else
      match codec.NewCodeFuncMap value !! CodecType opt with
      | None => (LoopBreak, (codec.conn_Close k1).2, server)
      | Some newCodecFunc =>
        let '(e, c1, server') := serveCodec server (newCodecFunc k1) in
        (e, (codec.conn_Close (codec.conn c1)).2, server')
      end
  end.

End Service.

Arguments methodType : clear implicits.
Arguments service : clear implicits.
Arguments Instance : clear implicits.
Arguments Server : clear implicits.
Arguments request : clear implicits.
Arguments Ok {A} a.
Arguments Fatal {A} msg.
Arguments Panic {A}.

(** ** Invariants of the transition system *)
Section Invariants.
Context {value : Type}.
Implicit Types (sys : System value) (w : World value) (p q : nat).

(** [effect os w w']: going from [w] to [w'] left counter, flags and the
    set of allocated calls alone, took the entry [s] out of the table
    when [os = Some s], and signalled the call found there. *)
Definition effect (os : option Z) w w' : Prop :=
  dom (calls w') = dom (calls w)
  ∧ (∀ q, Seq <$> calls w' !! q = Seq <$> calls w !! q)
  ∧ seq (client w') = seq (client w)
  ∧ shutdown (client w') = shutdown (client w)
  ∧ match os with
    | None =>
      pending (client w') = pending (client w)
      ∧ ∀ q, signals q w' = signals q w
    | Some s =>
      pending (client w') = delete s (pending (client w))
      ∧ ∀ q, signals q w'
             = (signals q w
                + if bool_decide (pending (client w) !! s = Some q
                                  ∧ is_Some (calls w !! q))
                  then 1 else 0)%nat
    end.

Definition pending_injective w : Prop :=
  ∀ s1 s2 p,
    pending (client w) !! s1 = Some p -> pending (client w) !! s2 = Some p ->
    s1 = s2.

Definition pending_allocated w : Prop :=
  ∀ s p, pending (client w) !! s = Some p -> is_Some (calls w !! p).

(** What holds of every reachable state, whatever the number of calls:
    the table holds allocated, registered, pairwise different calls, none
    of which has been signalled before the flush; nothing is signalled
    twice. *)
Record safe sys : Prop := {
  safe_pending : ∀ s p,
    pending (client (world sys)) !! s = Some p ->
    is_Some (calls (world sys) !! p) ∧ p ∈ registered sys;
  safe_inj : pending_injective (world sys);
  safe_unsignalled :
    reader sys ≠ RDone ->
    ∀ p, is_pending p (world sys) -> signals p (world sys) = 0%nat;
  safe_flushed :
    reader sys = RDone ->
    ∀ p, is_pending p (world sys) -> signals p (world sys) = 1%nat;
  safe_once : ∀ p, (signals p (world sys) <= 1)%nat;
  safe_signalled : ∀ p,
    signals p (world sys) ≠ 0%nat -> is_Some (calls (world sys) !! p);
  safe_registered : ∀ p,
    p ∈ registered sys -> is_Some (calls (world sys) !! p);
  safe_done :
    reader sys = RDone ->
    sender sys = SIdle ∧ shutdown (client (world sys)) = true;
  safe_nodup : NoDup (registered sys)
}.

(** What holds as long as the counter has not come back to a number that
    may still be in use, that is for the first [2^64] admitted calls: the
    n-th of them got the number [n mod 2^64], the table only uses numbers
    given out, and every admitted call obeys [completed_once]. *)
Record counted sys : Prop := {
  counted_seq :
    seq (client (world sys))
    = (1 + Z.of_nat (length (registered sys))) mod uint64_modulus;
  counted_keys : ∀ s p,
    pending (client (world sys)) !! s = Some p ->
    ∃ n, 1 <= n <= Z.of_nat (length (registered sys))
         ∧ s = n mod uint64_modulus;
  counted_once : ∀ p, p ∈ registered sys -> completed_once sys p;
  counted_Seq : ∀ i p,
    registered sys !! i = Some p ->
    Seq <$> calls (world sys) !! p
    = Some ((Z.of_nat i + 1) mod uint64_modulus)
}.

Definition within_counter sys : Prop :=
  Z.of_nat (length (registered sys)) <= uint64_modulus.

Definition write_fails_next w (e : error) : Prop :=
  let k := codec.conn (c (client w)) in
  codec.write_result k (codec.writes k) = Some e.




End Invariants.

(** ** Concrete connections, clients and instances used by the examples *)

(** A connection on which the first write goes through and every later one
    fails; the peer sends nothing. *)
Definition flaky_conn : codec.Conn unit :=
  {| codec.hello := inr io_EOF; codec.hello_result := None;
     codec.incoming := [];
     codec.write_result :=
       λ n, match n with O => None | S _ => Some (conn_error "broken pipe") end;
     codec.writes := 0; codec.events := []; codec.conn_closed := false |}.

Definition flaky_client : Client unit :=
  newClientCodec (codec.NewGobCodecFunc flaky_conn) DefaultOption_value.

Definition a_call : Call unit :=
  {| Seq := 0; ServiceMethod := "Foo.Sum"; Args := (); Reply := ();
     Error := None; Done := 0%nat |}.

(** The states in which call [0] waits under number [1] while [n] further
    sends have failed. *)
Definition waiting (n : Z) (sys : System unit) : Prop :=
  rtc step (initial flaky_client) sys
  ∧ sender sys = SIdle ∧ reader sys = RRunning
  ∧ closed (client (world sys)) = false
  ∧ shutdown (client (world sys)) = false
  ∧ seq (client (world sys)) = (2 + n) mod uint64_modulus
  ∧ pending (client (world sys)) = {[ 1 := 0%nat ]}
  ∧ 0%nat ∈ registered sys
  ∧ signals 0%nat (world sys) = 0%nat
  ∧ is_Some (calls (world sys) !! 0%nat)
  ∧ codec.write_result (codec.conn (c (client (world sys))))
    = codec.write_result flaky_conn
  ∧ (1 <= codec.writes (codec.conn (c (client (world sys)))))%nat.

(** The state after a first [send] on [flaky_client] whose write went
    through: call [0] waits for its response. *)
Definition after_first_send : System unit :=
  let '(p, w1) := alloc_call a_call (world (initial flaky_client)) in
  let '(_, w2) := send_register p w1 in
  let '(_, w3) := send_write p w2 in
  {| world := w3; sender := SIdle; reader := RRunning; registered := [p] |}.

(** Call [0] waits under number [1] and the server answers with the error
    text of a method that failed with [errors.New("disk 100% full")]. *)
Definition remote_error_header : codec.Header :=
  {| codec.ServiceMethod := "Foo.Sum"; codec.Seq := 1;
     codec.Error := "disk 100% full" |}.

Definition remote_error_conn : codec.Conn unit :=
  {| codec.hello := inr io_EOF; codec.hello_result := None;
     codec.incoming := [codec.Decodes (inl remote_error_header) (inl ())];
     codec.write_result := λ _, None;
     codec.writes := 1; codec.events := []; codec.conn_closed := false |}.

Definition remote_error_world : World unit :=
  with_client (set_c (codec.NewGobCodecFunc remote_error_conn))
    (world after_first_send).

(** The shape the registry accepts, as [registerMethod] tests it. *)
Definition rpc_shape {value : Type} (upper : Z -> bool)
    (m : reflect.Method value) : bool :=
  (length (reflect.In m) =? 3)%nat
  && (length (reflect.Out m) =? 1)%nat
  && reflect.rtype_eqb (nth 0 (reflect.Out m) reflect.invalidType)
       reflect.errorType
  && isExportedOrBuiltinType upper (nth 1 (reflect.In m) reflect.invalidType)
  && isExportedOrBuiltinType upper (nth 2 (reflect.In m) reflect.invalidType).

(** The type a parameter type names once pointers are followed, and the
    property the specification calls "exported or builtin": the named type behind
    the pointers is exported or predeclared. *)
Fixpoint pointee (t : reflect.rtype) : reflect.rtype :=
  match t with
  | reflect.Type_ _ _ reflect.Ptr (Some e) => pointee e
  | _ => t
  end.

Definition names_exported_or_builtin (upper : Z -> bool) (t : reflect.rtype)
  : bool :=
  ast.IsExported upper (reflect.Name (pointee t))
  || String.eqb (reflect.PkgPath (pointee t)) "".

(** Registries built by [NewServer] and successful calls of [Register]. *)
Inductive built {value : Type} `{!reflect.Values value} (upper : Z -> bool)
  : Server value -> Prop :=
| built_new : built upper NewServer
| built_Register i server server' :
    built upper server ->
    Register upper i server = Ok (None, server') ->
    built upper server'.

(** Values of the examples carry no data. *)
#[export] Instance unit_values : reflect.Values unit :=
  {| reflect.New := λ _, (); reflect.Value_Elem := λ _, ();
     reflect.Elem_Set := λ _ _, (); reflect.MakeMap := λ _, ();
     reflect.MakeSlice := λ _, (); reflect.empty_struct := () |}.

(** No letter above ASCII is needed by the examples. *)
Definition ascii_only : Z -> bool := λ _, false.

(** The types of the test: [type Foo int], [type Args struct], and
    [func (f *Foo) Sum(args Args, reply *int) error]; next to them an
    unexported [type secret struct] and
    [func (f *Foo) Hide(args int, reply *secret) error]. *)
Definition T_int : reflect.rtype := reflect.Type_ "int" "" reflect.Int None.
Definition T_Foo : reflect.rtype := reflect.Type_ "Foo" "gorpc" reflect.Int None.
Definition T_Args : reflect.rtype :=
  reflect.Type_ "Args" "gorpc" reflect.Struct None.
Definition T_secret : reflect.rtype :=
  reflect.Type_ "secret" "gorpc" reflect.Struct None.

Definition M_Sum : reflect.Method unit :=
  {| reflect.Method_Name := "Sum";
     reflect.In := [reflect.PtrTo T_Foo; T_Args; reflect.PtrTo T_int];
     reflect.Out := [reflect.errorType];
     reflect.Func_ := λ _ _ r, (r, None) |}.

Definition M_Hide : reflect.Method unit :=
  {| reflect.Method_Name := "Hide";
     reflect.In := [reflect.PtrTo T_Foo; T_int; reflect.PtrTo T_secret];
     reflect.Out := [reflect.errorType];
     reflect.Func_ := λ _ _ r, (r, None) |}.

Definition foo : Instance unit :=
  {| inst_value := (); inst_type := reflect.PtrTo T_Foo; inst_nil := false;
     inst_methods := [M_Hide; M_Sum] |}.

Definition foo_server : Server unit :=
  match Register ascii_only foo NewServer with
  | Ok (_, server) => server
  | _ => NewServer
  end.

(** Connections whose handshake the server refuses. *)
Definition hello_conn (o : Option) : codec.Conn unit :=
  {| codec.hello := inl o; codec.hello_result := None;
     codec.incoming :=
       [codec.Decodes
          (inl {| codec.ServiceMethod := "Foo.Sum"; codec.Seq := 1;
                  codec.Error := "" |}) (inl ())];
     codec.write_result := λ _, None;
     codec.writes := 0; codec.events := []; codec.conn_closed := false |}.

Definition bad_magic : Option :=
  {| MagicNumber_ := 0x3bef5d; CodecType := codec.GobType |}.

Definition json_codec : Option :=
  {| MagicNumber_ := MagicNumber; CodecType := codec.JsonType |}.

(** Values on the wire: a header, which is no argument, and an argument,
    which is no header. *)
Definition mismatch : error := conn_error "gob: type mismatch".

Definition wire_header (serviceMethod : string) (n : Z) : codec.message unit :=
  codec.Decodes
    (inl {| codec.ServiceMethod := serviceMethod; codec.Seq := n;
            codec.Error := "" |})
    (inr mismatch).

Definition wire_body : codec.message unit :=
  codec.Decodes (inr mismatch) (inl ()).

Definition wire_bad_body : codec.message unit :=
  codec.Decodes (inr mismatch) (inr mismatch).

Definition requests (l : list (codec.message unit)) : codec.Conn unit :=
  {| codec.hello := inl DefaultOption_value; codec.hello_result := None;
     codec.incoming := l;
     codec.write_result := λ _, None;
     codec.writes := 0; codec.events := []; codec.conn_closed := false |}.

(** A request for a method that is not registered, followed by a good
    request. *)
Definition unknown_then_good : codec.Conn unit :=
  requests [wire_header "Foo.Nope" 1; wire_body;
            wire_header "Foo.Sum" 2; wire_body].

(** A request whose argument does not decode, followed by a good request. *)
Definition garbled_then_good : codec.Conn unit :=
  requests [wire_header "Foo.Sum" 1; wire_bad_body;
            wire_header "Foo.Sum" 2; wire_body].

(** A store with the package default and one option of the caller. *)
Definition caller_option : Option := {| MagicNumber_ := 42; CodecType := "" |}.

Definition option_store : gmap nat Option :=
  <[1%nat := caller_option]> (<[DefaultOption := DefaultOption_value]> ∅).

(** ** Definitions used by the further properties *)

Definition closed_client : System unit :=
  {| world := (Close (world (initial flaky_client))).2;
     sender := SIdle; reader := RRunning; registered := [] |}.

(** The world in which [a_call] has been allocated for a first [send]. *)
Definition first_call : World unit :=
  (alloc_call a_call (world (initial flaky_client))).2.

(** ** Observations on a connection *)

Definition is_read {value : Type} (ev : codec.event value) : bool :=
  match ev with
  | codec.EReadHeader | codec.EReadBody _ => true
  | _ => false
  end.

(** [reads_only k k']: between [k] and [k'] the connection was only read
    from: values were taken off the front of the stream, and nothing was
    written or closed. *)
Definition reads_only {value : Type} (k k' : codec.Conn value) : Prop :=
  codec.writes k' = codec.writes k
  ∧ codec.conn_closed k' = codec.conn_closed k
  ∧ (∃ n, codec.incoming k' = drop n (codec.incoming k))
  ∧ ∃ evs, codec.events k' = codec.events k ++ evs
           ∧ forallb is_read evs = true.

(** Call [0] waits under number [1] and the server answers with the error
    text of a method that failed with [errors.New("division by zero")]. *)
Definition plain_error_header : codec.Header :=
  {| codec.ServiceMethod := "Foo.Sum"; codec.Seq := 1;
     codec.Error := "division by zero" |}.

Definition plain_error_world : World unit :=
  with_client
    (set_c (codec.NewGobCodecFunc
              {| codec.hello := inr io_EOF; codec.hello_result := None;
                 codec.incoming :=
                   [codec.Decodes (inl plain_error_header) (inl ())];
                 codec.write_result := λ _, None;
                 codec.writes := 1; codec.events := [];
                 codec.conn_closed := false |}))
    (world after_first_send).

(** A caller's option that asks for the JSON codec, and a dialer that
    always connects. *)
Definition json_store : gmap nat Option :=
  <[1%nat := json_codec]> (<[DefaultOption := DefaultOption_value]> ∅).

Definition dial_ok (network address : string) : codec.Conn unit + error :=
  inl flaky_conn.

(** What [parseOptions] makes of the one option it is given, [dflt] being
    the value of [DefaultOption] at that moment. *)
Definition parsed (dflt : Option) (o : Option) : Option :=
  {| MagicNumber_ := MagicNumber_ dflt;
     CodecType := if String.eqb (CodecType o) "" then CodecType dflt
                  else CodecType o |}.

(** A registry in which every service is stored under its name and every
    method descriptor under the name of its method, as pointers into the
    registry are followed by name. *)
Definition well_keyed {value : Type} (server : Server value) : Prop :=
  ∀ n s,
    serviceMap server !! n = Some s ->
    name s = n
    ∧ ∀ x mt, method s !! x = Some mt ->
              reflect.Method_Name (method_ mt) = x.

(** What a descriptor entered by [registerMethods] under the name [n] looks
    like, [L] being the method set. *)
Definition registered_as {value : Type} (upper : Z -> bool)
    (L : list (reflect.Method value)) (n : string) (mt : methodType value)
  : Prop :=
  method_ mt ∈ L
  ∧ reflect.Method_Name (method_ mt) = n
  ∧ rpc_shape upper (method_ mt) = true
  ∧ ArgType mt = nth 1 (reflect.In (method_ mt)) reflect.invalidType
  ∧ ReplyType mt = nth 2 (reflect.In (method_ mt)) reflect.invalidType
  ∧ numCalls mt = 0.










(** [filed sys]: every call of the table is filed under the number it
    carries, and between the registration of a call and its write the
    request header of the client holds the method and the number of that
    call. *)
Definition filed {value : Type} (sys : System value) : Prop :=
  (∀ s p,
     pending (client (world sys)) !! s = Some p ->
     Seq <$> calls (world sys) !! p = Some s)
  ∧ ∀ s p,
      sender sys = SRegistered s p ->
      ∃ k,
        calls (world sys) !! p = Some k
        ∧ Seq k = s
        ∧ header (client (world sys))
          = {| codec.ServiceMethod := ServiceMethod k; codec.Seq := s;
               codec.Error := "" |}.

(** ** [Client.Call]

    [Call] is [Go] with a new channel of capacity 1, a receive from that
    channel, and the return of the error of the call received.  [Call_go]
    is the first part; [Call_return p w] is what the caller, who holds the
    call [p] that [Go] returned, gets in the world [w]: [None] as long as
    nothing has been sent on the channel and the caller waits. *)
Section Call.
Context {value : Type}.

Definition Call_go (serviceMethod : string) (args reply : value)
    (w : World value) : option (nat * World value) :=
  let ch := fresh (dom (chans w)) in
  Go serviceMethod args reply (Some ch)
    {| client := client w; calls := calls w;
       chans := <[ch := 1%nat]> (chans w); sent := sent w |}.

Definition Call_return (p : nat) (w : World value) : option (option error) :=
  k ← calls w !! p;
  q ← snd <$> head (filter (λ x : nat * nat, x.1 = Done k) (sent w));
  Error <$> calls w !! q.

End Call.

(** * Properties *)

(** ** Effects of the client's primitives on the world *)
Section ClientFacts.
Context {value : Type}.
Implicit Types (w : World value) (p q : nat) (e : error).

Lemma signals_app w l p :
  length (filter (λ x : nat * nat, x.2 = p) (sent w ++ l))
  = (signals p w + length (filter (λ x : nat * nat, x.2 = p) l))%nat.
Proof. unfold signals. by rewrite filter_app, length_app. Qed.

Lemma signals_done w p q :
  signals q (done p w)
  = (signals q w + if bool_decide (p = q ∧ is_Some (calls w !! p)) then 1 else 0)%nat.
Proof.
  unfold done. destruct (calls w !! p) as [k|] eqn:Hk.
  - unfold signals at 1. simpl. rewrite signals_app.
    rewrite filter_cons, filter_nil. simpl.
    destruct (decide (p = q)) as [->|Hne].
    + by rewrite bool_decide_true by eauto.
    + by rewrite bool_decide_false by (intros [? _]; congruence).
  - rewrite bool_decide_false; [lia|]. intros [_ [? ?]]. done.
Qed.

Lemma signals_with_call w p f q : signals q (with_call p f w) = signals q w.
Proof. done. Qed.

Lemma signals_with_client w f q : signals q (with_client f w) = signals q w.
Proof. done. Qed.

Lemma calls_done w p : calls (done p w) = calls w.
Proof. unfold done. by destruct (calls w !! p). Qed.

Lemma client_done w p : client (done p w) = client w.
Proof. unfold done. by destruct (calls w !! p). Qed.

Lemma chans_done w p : chans (done p w) = chans w.
Proof. unfold done. by destruct (calls w !! p). Qed.

Lemma allocated_with_call w p f q :
  is_Some (calls (with_call p f w) !! q) ↔ is_Some (calls w !! q).
Proof.
  simpl. destruct (decide (p = q)) as [->|].
  - rewrite lookup_alter_eq. by rewrite fmap_is_Some.
  - by rewrite lookup_alter_ne.
Qed.


Lemma dom_with_call w p f : dom (calls (with_call p f w)) = dom (calls w).
Proof. simpl. apply dom_alter_L. Qed.

Lemma Seq_alter (f : Call value -> Call value) (m : gmap nat (Call value)) p q :
  (∀ k, Seq (f k) = Seq k) ->
  Seq <$> alter f p m !! q = Seq <$> m !! q.
Proof.
  intros Hf. destruct (decide (p = q)) as [->|].
  - rewrite lookup_alter_eq. destruct (m !! q); simpl; [|done].
    by rewrite Hf.
  - by rewrite lookup_alter_ne.
Qed.

Lemma bump_ext (P Q : Prop) `{!Decision P, !Decision Q} (n : nat) :
  (P ↔ Q) ->
  (n + (if bool_decide P then 1 else 0)
   = n + (if bool_decide Q then 1 else 0))%nat.
Proof. intros HPQ. by rewrite (bool_decide_ext P Q). Qed.

Lemma removed_iff (m : gmap Z nat) (cs : gmap nat (Call value)) s p q f :
  m !! s = Some p ->
  p = q ∧ is_Some (alter f p cs !! p) ↔ m !! s = Some q ∧ is_Some (cs !! q).
Proof.
  intros ->. rewrite lookup_alter_eq, fmap_is_Some.
  split; [intros [<- ?]; eauto | intros [[= <-] ?]; eauto].
Qed.

Lemma removed_iff_id (m : gmap Z nat) (cs : gmap nat (Call value)) s p q :
  m !! s = Some p ->
  p = q ∧ is_Some (cs !! p) ↔ m !! s = Some q ∧ is_Some (cs !! q).
Proof.
  intros ->. split; [intros [<- ?]; eauto | intros [[= <-] ?]; eauto].
Qed.

Ltac effect_of_removal w Hp :=
  repeat split; simpl; rewrite ?calls_done, ?client_done; simpl; try done;
  lazymatch goal with
  | |- dom _ = _ => apply dom_alter_L
  | |- ∀ q, Seq <$> _ = _ => intros ?; by apply Seq_alter
  | |- _ =>
    let q := fresh "q" in
    intros q; rewrite signals_done; simpl;
    change (signals q _) with (signals q w) at 1;
    apply bump_ext;
    first [by apply removed_iff | by apply removed_iff_id]
  end.

Lemma send_failed_effect w s e : effect (Some s) w (send_failed s e w).
Proof.
  unfold send_failed, removeCall.
  destruct (pending (client w) !! s) as [p|] eqn:Hp.
  - effect_of_removal w Hp.
  - repeat split; simpl; try done.
    intros q. change (signals q _) with (signals q w) at 1.
    rewrite bool_decide_false; [lia|]. rewrite Hp. by intros [? _].
Qed.

Lemma receive_iter_effect w w' r :
  receive_iter w = (w', r) -> ∃ os, effect os w w'.
Proof.
  unfold receive_iter.
  destruct (codec.ReadHeader (c (client w))) as [[hd|e] c1] eqn:Hh.
  2:{ intros [= <- <-]. exists None. by repeat split. }
  unfold removeCall. cbn [fst snd].
  change (pending (client (with_client (set_c c1) w))) with (pending (client w)).
  destruct (pending (client w) !! codec.Seq hd) as [p|] eqn:Hp.
  - destruct (negb (String.eqb (codec.Error hd) "")).
    + match goal with |- context [codec.ReadBody false ?x] =>
        destruct (codec.ReadBody false x) as [rb c2] end.
      intros [= <- <-]. exists (Some (codec.Seq hd)).
      effect_of_removal w Hp.
    + match goal with |- context [codec.ReadBody true ?x] =>
        destruct (codec.ReadBody true x) as [rb c2] end.
      intros [= <- <-]. exists (Some (codec.Seq hd)).
      destruct rb as [[v|]|e]; effect_of_removal w Hp.
  - match goal with |- context [codec.ReadBody false ?x] =>
      destruct (codec.ReadBody false x) as [rb c2] end.
    intros [= <- <-]. exists (Some (codec.Seq hd)).
    repeat split; simpl; try done.
    intros q. change (signals q _) with (signals q w) at 1.
    rewrite bool_decide_false; [lia|]. rewrite Hp. by intros [? _].
Qed.

Lemma client_terminate_one e w p : client (terminate_one e w p) = client w.
Proof. unfold terminate_one. by rewrite client_done. Qed.

Lemma calls_terminate_one e w p :
  calls (terminate_one e w p) = alter (set_Error e) p (calls w).
Proof. unfold terminate_one. by rewrite calls_done. Qed.

Lemma signals_terminate_one e w p q :
  signals q (terminate_one e w p)
  = (signals q w + if bool_decide (p = q ∧ is_Some (calls w !! p)) then 1 else 0)%nat.
Proof.
  unfold terminate_one. rewrite signals_done, signals_with_call.
  apply bump_ext. by rewrite allocated_with_call.
Qed.

(** The loop of [terminateCalls]. *)
Lemma terminate_loop e (l : list nat) : ∀ w,
  (∀ p, p ∈ l -> is_Some (calls w !! p)) ->
  let w' := foldl (terminate_one e) w l in
  client w' = client w
  ∧ dom (calls w') = dom (calls w)
  ∧ (∀ q, signals q w' = (signals q w + length (filter (λ p, p = q) l))%nat)
  ∧ (∀ q, q ∈ l -> Error <$> calls w' !! q = Some (Some e))
  ∧ (∀ q, q ∉ l -> calls w' !! q = calls w !! q)
  ∧ (∀ q, Seq <$> calls w' !! q = Seq <$> calls w !! q).
Proof.
  induction l as [|p l IH]; intros w Hall; simpl.
  - split_and!; try done.
    intros q Hq. by apply elem_of_nil in Hq.
  - assert (Hp : is_Some (calls w !! p)) by apply Hall, list_elem_of_here.
    destruct (IH (terminate_one e w p)) as (Hc & Hd & Hs & He & Hn & HS).
    { intros q Hq. rewrite calls_terminate_one, lookup_alter_is_Some.
      apply Hall. apply elem_of_cons. by right. }
    rewrite Hc, Hd, client_terminate_one, calls_terminate_one.
    split_and!; try done.
    + apply dom_alter_L.
    + intros q. rewrite Hs, signals_terminate_one, filter_cons.
      destruct (decide (p = q)) as [->|Hne].
      * rewrite bool_decide_true by done. simpl. lia.
      * rewrite bool_decide_false by (by intros [? _]). lia.
    + intros q Hq. destruct (decide (q ∈ l)) as [|Hnl]; [by apply He|].
      rewrite Hn by done. apply elem_of_cons in Hq as [->|]; [|done].
      rewrite calls_terminate_one, lookup_alter_eq.
      destruct Hp as [k ->]. done.
    + intros q Hq. apply not_elem_of_cons in Hq as [Hne Hq].
      rewrite Hn by done. rewrite calls_terminate_one.
      by rewrite lookup_alter_ne.
    + intros q. rewrite HS, calls_terminate_one. by apply Seq_alter.
Qed.

Lemma count_once (l : list nat) q :
  NoDup l ->
  length (filter (λ p, p = q) l) = if bool_decide (q ∈ l) then 1%nat else 0%nat.
Proof.
  induction 1 as [|p l Hp _ IH]; [done|].
  rewrite filter_cons. destruct (decide (p = q)) as [->|Hne]; simpl.
  - rewrite bool_decide_true by apply list_elem_of_here. rewrite IH.
    by rewrite bool_decide_false.
  - rewrite IH. apply (f_equal (λ b : bool, if b then 1%nat else 0%nat)).
    apply bool_decide_ext. rewrite elem_of_cons.
    split; [by right | by intros [->|]].
Qed.



Lemma pending_values (m : gmap Z nat) q :
  q ∈ (snd <$> map_to_list m) ↔ ∃ s, m !! s = Some q.
Proof.
  rewrite list_elem_of_fmap. split.
  - intros ([s p] & -> & Hin). exists s. by apply elem_of_map_to_list.
  - intros [s Hs]. exists (s, q). split; [done|]. by apply elem_of_map_to_list.
Qed.

Lemma pending_values_NoDup w :
  pending_injective w -> NoDup (snd <$> map_to_list (pending (client w))).
Proof.
  intros Hinj. apply NoDup_fmap_2_strong; [|apply NoDup_map_to_list].
  intros [s1 p1] [s2 p2] H1 H2. simpl. intros <-.
  apply elem_of_map_to_list in H1, H2. f_equal. eauto.
Qed.

(** [terminateCalls]: every call of the table gets the error and one
    signal, nothing else is signalled, and the client is shut down. *)
Lemma terminateCalls_effect e w :
  pending_injective w -> pending_allocated w ->
  let w' := terminateCalls e w in
  shutdown (client w') = true
  ∧ closed (client w') = closed (client w)
  ∧ seq (client w') = seq (client w)
  ∧ pending (client w') = pending (client w)
  ∧ dom (calls w') = dom (calls w)
  ∧ (∀ q, is_pending q w -> signals q w' = S (signals q w))
  ∧ (∀ q, ¬ is_pending q w -> signals q w' = signals q w)
  ∧ (∀ q, is_pending q w -> Error <$> calls w' !! q = Some (Some e))
  ∧ (∀ q, ¬ is_pending q w -> calls w' !! q = calls w !! q)
  ∧ (∀ q, Seq <$> calls w' !! q = Seq <$> calls w !! q).
Proof.
  intros Hinj Hall. unfold terminateCalls. simpl.
  set (w1 := with_client set_shutdown w).
  destruct (terminate_loop e (snd <$> map_to_list (pending (client w))) w1)
    as (Hc & Hd & Hs & He & Hn & HS).
  { intros p [s Hs]%pending_values. by eapply Hall. }
  rewrite Hc. split_and!; try done.
  - intros q Hq. rewrite Hs. change (signals q w1) with (signals q w).
    rewrite count_once by by apply pending_values_NoDup.
    rewrite bool_decide_true by by apply pending_values. lia.
  - intros q Hq. rewrite Hs. change (signals q w1) with (signals q w).
    rewrite count_once by by apply pending_values_NoDup.
    rewrite bool_decide_false by by rewrite pending_values. lia.
  - intros q Hq. apply He. by apply pending_values.
  - intros q Hq. rewrite Hn; [done|]. by rewrite pending_values.
Qed.

Lemma send_write_effect w p r w' :
  send_write p w = (r, w') -> effect None w w'.
Proof.
  unfold send_write. destruct (calls w !! p) as [k|].
  - destruct (codec.Write _ _ _) as [e c']. intros [= <- <-].
    by repeat split.
  - intros [= <- <-]. by repeat split.
Qed.

Lemma Close_effect w r w' : Close w = (r, w') -> effect None w w'.
Proof.
  unfold Close. destruct (closed (client w)).
  - intros [= <- <-]. by repeat split.
  - destruct (codec.Close _) as [e c']. intros [= <- <-]. by repeat split.
Qed.

(** [send_register]: a refused call is signalled at once; an admitted one
    enters the table under the counter, which moves on. *)
Lemma send_register_effect w p r w' :
  send_register p w = (r, w') ->
  dom (calls w') = dom (calls w)
  ∧ shutdown (client w') = shutdown (client w)
  ∧ match r with
    | None =>
      closed (client w) || shutdown (client w) = true
      ∧ seq (client w') = seq (client w)
      ∧ pending (client w') = pending (client w)
      ∧ (∀ q, Seq <$> calls w' !! q = Seq <$> calls w !! q)
      ∧ ∀ q, signals q w'
             = (signals q w
                + if bool_decide (p = q ∧ is_Some (calls w !! p))
                  then 1 else 0)%nat
    | Some s =>
      closed (client w) || shutdown (client w) = false
      ∧ s = seq (client w)
      ∧ seq (client w') = uint64_incr s
      ∧ pending (client w') = <[s := p]> (pending (client w))
      ∧ (Seq <$> calls w' !! p) = (λ _, s) <$> calls w !! p
      ∧ (∀ q, q ≠ p -> calls w' !! q = calls w !! q)
      ∧ ∀ q, signals q w' = signals q w
    end.
Proof.
  unfold send_register, registerCall.
  destruct (closed (client w) || shutdown (client w)) eqn:Hc.
  - intros [= <- <-]. rewrite calls_done, client_done. simpl.
    split_and!; try done; [apply dom_alter_L|by intros q; apply Seq_alter|].
    intros q. rewrite signals_done, signals_with_call.
    apply bump_ext. by rewrite allocated_with_call.
  - intros [= <- <-]. simpl. split_and!; try done.
    + apply dom_alter_L.
    + rewrite lookup_alter_eq. by destruct (calls w !! p).
    + intros q Hq. by rewrite lookup_alter_ne.
Qed.

Lemma send_register_others w p r w' :
  send_register p w = (r, w') -> ∀ q, q ≠ p -> calls w' !! q = calls w !! q.
Proof.
  unfold send_register, registerCall.
  destruct (closed (client w) || shutdown (client w)).
  - intros [= <- <-] q Hq. rewrite calls_done. simpl. by rewrite lookup_alter_ne.
  - intros [= <- <-] q Hq. simpl. by rewrite lookup_alter_ne.
Qed.

(** *** Only calls that are signalled are changed *)







End ClientFacts.

(** ** The invariant of the client under every interleaving *)
(** What one turn of the reader loop does with a frame whose header was
    read: the entry of the header's number leaves the table; without a
    matching call the body is read with a nil destination and nothing else
    changes; with a call and an error text the call's error is
    [fmt.Errorf(text)], the body is read with a nil destination and the call
    is signalled; otherwise the body is decoded into the reply, a failure
    becomes the call's error, and the call is signalled. *)
Lemma receive_iter_cases {value : Type} (w : World value) hd c1 :
  codec.ReadHeader (c (client w)) = (inl hd, c1) ->
  let w' := (receive_iter w).1 in
  pending (client w') = delete (codec.Seq hd) (pending (client w))
  ∧ match pending (client w) !! codec.Seq hd with
    | None =>
      c (client w') = (codec.ReadBody false c1).2
      ∧ (receive_iter w).2 = read_error (codec.ReadBody false c1).1
      ∧ calls w' = calls w ∧ sent w' = sent w
    | Some p =>
      (∀ k, calls w !! p = Some k -> sent w' = sent w ++ [(Done k, p)])
      ∧ if String.eqb (codec.Error hd) "" then
          c (client w') = (codec.ReadBody true c1).2
          ∧ (receive_iter w).2 = read_error (codec.ReadBody true c1).1
          ∧ calls w'
            = match (codec.ReadBody true c1).1 with
              | inl (Some v) => alter (set_Reply v) p (calls w)
              | inl None => calls w
              | inr e =>
                alter (set_Error (errors_New ("reading body " +:+ err_Error e)))
                  p (calls w)
              end
        else
          c (client w') = (codec.ReadBody false c1).2
          ∧ (receive_iter w).2 = read_error (codec.ReadBody false c1).1
          ∧ calls w' = alter (set_Error (fmt_Errorf (codec.Error hd))) p (calls w)
    end.
Proof.
  intros Hh w'. subst w'. unfold receive_iter, removeCall. rewrite Hh.
  cbn [fst snd]. 
  change (pending (client (with_client (set_c c1) w))) with (pending (client w)).
  destruct (pending (client w) !! codec.Seq hd) as [p|] eqn:Hp.
  - destruct (String.eqb (codec.Error hd) ""); cbn [negb].
    + match goal with |- context [codec.ReadBody true ?x] =>
        change x with c1; destruct (codec.ReadBody true c1) as [rb c2] end.
      cbn [fst snd]. rewrite client_done, calls_done.
      destruct rb as [[v|]|e]; (split_and!; try done);
        intros k Hk; unfold done; simpl;
        rewrite ?lookup_alter_eq, Hk; done.
    + match goal with |- context [codec.ReadBody false ?x] =>
        change x with c1; destruct (codec.ReadBody false c1) as [rb c2] end.
      cbn [fst snd]. rewrite client_done, calls_done.
      split_and!; try done.
      intros k Hk. unfold done. simpl. by rewrite lookup_alter_eq, Hk.
  - match goal with |- context [codec.ReadBody false ?x] =>
      change x with c1; destruct (codec.ReadBody false c1) as [rb c2] end.
    done.
Qed.

Section SystemFacts.
Context {value : Type}.
Implicit Types (sys : System value) (w : World value) (p q : nat).


Lemma allocated_dom w w' p :
  dom (calls w') = dom (calls w) ->
  is_Some (calls w' !! p) ↔ is_Some (calls w !! p).
Proof. intros Hd. by rewrite <- !elem_of_dom, Hd. Qed.

(** A step that only completes the call under one sequence number keeps
    the invariant, as long as the reader loop has not flushed yet. *)
Lemma safe_effect sys os w' sd rd :
  safe sys ->
  effect os (world sys) w' ->
  (os ≠ None -> reader sys ≠ RDone) ->
  (rd = RDone ↔ reader sys = RDone) ->
  (rd = RDone -> sd = SIdle) ->
  safe {| world := w'; sender := sd; reader := rd;
          registered := registered sys |}.
Proof.
  intros [Hpend Hinj Huns Hfl Honce Hsig Hreg Hdone Hnd]
    (Hdom & _ & Hseq & Hshut & Hos) Hrun Hrd Hsd.
  assert (Hsub : ∀ s p, pending (client w') !! s = Some p ->
                        pending (client (world sys)) !! s = Some p).
  { intros s p. destruct os as [s0|]; destruct Hos as [-> _]; [|done].
    intros [_ ?]%lookup_delete_Some. done. }
  assert (Hsame : ∀ q, is_pending q w' -> signals q w' = signals q (world sys)).
  { intros q [s Hs]. destruct os as [s0|]; destruct Hos as [Hp Hsg];
      [|by rewrite Hsg].
    rewrite Hsg, bool_decide_false; [lia|]. intros [Hq _].
    rewrite Hp in Hs. apply lookup_delete_Some in Hs as [Hne Hs].
    apply Hne. by eapply Hinj. }
  constructor; simpl.
  - intros s p Hp. rewrite (allocated_dom _ _ _ Hdom). eauto.
  - intros s1 s2 p H1 H2. eapply Hinj; eauto.
  - intros Hr q Hq. rewrite Hsame by done.
    apply Huns; [by rewrite <- Hrd|]. destruct Hq as [s Hs]. exists s. eauto.
  - intros Hr q Hq. rewrite Hsame by done.
    apply Hfl; [by apply Hrd|]. destruct Hq as [s Hs]. exists s. eauto.
  - intros q. destruct os as [s0|]; destruct Hos as [Hp Hsg]; rewrite Hsg;
      [|done].
    case_bool_decide as Hq; [|specialize (Honce q); lia].
    rewrite Huns; [lia|by apply Hrun|]. exists s0. by destruct Hq.
  - intros q. rewrite (allocated_dom _ _ _ Hdom).
    destruct os as [s0|]; destruct Hos as [Hp Hsg]; rewrite Hsg; [|by auto].
    case_bool_decide as Hq; [by destruct Hq|].
    intros ?. apply Hsig. lia.
  - intros q Hq. rewrite (allocated_dom _ _ _ Hdom). auto.
  - intros Hr. split; [auto|]. rewrite Hshut. by apply Hdone, Hrd.
  - done.
Qed.

Lemma safe_initial (cl : Client value) :
  pending cl = ∅ -> safe (initial cl).
Proof.
  intros Hp. constructor; simpl; try done.
  - intros s p. by rewrite Hp, lookup_empty.
  - intros s1 s2 p. simpl. by rewrite Hp, lookup_empty.
  - intros p. unfold signals. simpl. lia.
  - intros p Hp'. by apply elem_of_nil in Hp'.
  - constructor.
Qed.

Lemma alloc_call_fresh (k : Call value) w p w1 :
  alloc_call k w = (p, w1) ->
  calls w !! p = None
  ∧ calls w1 = <[p := k]> (calls w)
  ∧ client w1 = client w
  ∧ ∀ q, signals q w1 = signals q w.
Proof.
  unfold alloc_call. intros [= <- <-]. split_and!; try done.
  apply not_elem_of_dom, is_fresh.
Qed.

(** The fresh call is unknown to the table, to the history and to the
    channels. *)
Lemma fresh_unknown sys p :
  safe sys -> calls (world sys) !! p = None ->
  (¬ is_pending p (world sys)) ∧ (p ∉ registered sys)
  ∧ signals p (world sys) = 0%nat.
Proof.
  intros Hs Hp. split_and!.
  - intros [s Hq]. apply (safe_pending _ Hs) in Hq as [[? Hq] _]. congruence.
  - intros Hq. apply (safe_registered _ Hs) in Hq as [? Hq]. congruence.
  - destruct (decide (signals p (world sys) = 0%nat)) as [|Hn]; [done|].
    apply (safe_signalled _ Hs) in Hn as [? Hq]. congruence.
Qed.

Lemma safe_send_register sys k p w1 r w2 :
  safe sys ->
  sender sys = SIdle ->
  alloc_call k (world sys) = (p, w1) ->
  send_register p w1 = (r, w2) ->
  safe {| world := w2;
          sender := match r with Some s => SRegistered s p | None => SIdle end;
          reader := reader sys;
          registered :=
            match r with
            | Some _ => registered sys ++ [p]
            | None => registered sys
            end |}.
Proof.
  intros Hs Hidle (Hfresh & Hcalls & Hcl & Hsig1)%alloc_call_fresh
    (Hdom & Hshut & Hr)%send_register_effect.
  destruct (fresh_unknown _ _ Hs Hfresh) as (Hnp & Hnr & Hns).
  destruct Hs as [Hpend Hinj Huns Hfl Honce Hsig Hreg Hdone Hnd].
  assert (Halloc : ∀ q, is_Some (calls (world sys) !! q) ->
                        is_Some (calls w2 !! q)).
  { intros q Hq. rewrite (allocated_dom _ _ _ Hdom), Hcalls.
    rewrite lookup_insert_is_Some. destruct (decide (p = q)); auto. }
  assert (Hp2 : is_Some (calls w1 !! p)).
  { rewrite Hcalls, lookup_insert_eq. eauto. }
  rewrite Hcl in Hr. rewrite Hcl in Hshut.
  destruct r as [s|].
  - destruct Hr as (Hopen & -> & Hseq & Hp & _ & _ & Hsg).
    assert (Hrun : reader sys ≠ RDone).
    { intros Hd. apply Hdone in Hd as [_ Hd]. rewrite Hd in Hopen.
      by rewrite orb_true_r in Hopen. }
    constructor; simpl.
    + intros s q. rewrite Hp. intros [[<- <-]|[Hne Hq]]%lookup_insert_Some.
      * split; [apply (allocated_dom _ _ _ Hdom), Hp2|].
        apply elem_of_app. right. apply list_elem_of_here.
      * apply Hpend in Hq as [??]. split; [auto|]. apply elem_of_app. by left.
    + intros s1 s2 q. rewrite Hp.
      intros [[<- <-]|[Hne1 H1]]%lookup_insert_Some
             [[<- E]|[Hne2 H2]]%lookup_insert_Some; try done.
      * destruct Hnp. by exists s2.
      * subst q. destruct Hnp. by exists s1.
      * eauto.
    + intros _ q [s Hq]. simpl in Hq. rewrite Hp in Hq. rewrite Hsg, Hsig1.
      apply lookup_insert_Some in Hq as [[_ <-]|[_ Hq]]; [done|].
      apply Huns; [done|]. by exists s.
    + intros Hd. done.
    + intros q. rewrite Hsg, Hsig1. apply Honce.
    + intros q. rewrite Hsg, Hsig1. auto.
    + intros q [Hq|Hq%list_elem_of_singleton]%elem_of_app; [auto|].
      subst q. apply (allocated_dom _ _ _ Hdom), Hp2.
    + intros Hd. done.
    + apply NoDup_app. split_and!; [done| |apply NoDup_singleton].
      intros q Hq ->%list_elem_of_singleton. done.
  - destruct Hr as (Hshutting & Hseq & Hp & _ & Hsg).
    assert (Hsg' : ∀ q, signals q w2
                        = (signals q (world sys) + if bool_decide (p = q) then 1 else 0)%nat).
    { intros q. rewrite Hsg, Hsig1. apply bump_ext. split; [by intros []|done]. }
    assert (Hother : ∀ q, is_pending q w2 -> signals q w2 = signals q (world sys)).
    { intros q [s Hq]. rewrite Hp in Hq. rewrite Hsg'.
      rewrite bool_decide_false; [lia|]. intros <-. destruct Hnp. by exists s. }
    constructor; simpl.
    + intros s q. rewrite Hp. intros Hq. apply Hpend in Hq as [??]. auto.
    + intros s1 s2 q. rewrite !Hp. apply Hinj.
    + intros Hrun q Hq. rewrite Hother by done. apply Huns; [done|].
      destruct Hq as [s Hq]. exists s. by rewrite <- Hp.
    + intros Hrun q Hq. rewrite Hother by done. apply Hfl; [done|].
      destruct Hq as [s Hq]. exists s. by rewrite <- Hp.
    + intros q. rewrite Hsg'. case_bool_decide as Hq.
      * subst q. rewrite Hns. lia.
      * specialize (Honce q). lia.
    + intros q. rewrite Hsg'. case_bool_decide as Hq.
      * subst q. intros _. apply (allocated_dom _ _ _ Hdom), Hp2.
      * intros ?. apply Halloc, Hsig. lia.
    + auto.
    + intros Hd. split; [done|]. rewrite Hshut. by apply Hdone.
    + done.
Qed.

Lemma is_pending_dec w q : is_pending q w ∨ ¬ is_pending q w.
Proof.
  unfold is_pending. rewrite <- pending_values.
  destruct (decide (q ∈ (snd <$> map_to_list (pending (client w))))); auto.
Qed.

Lemma safe_terminate sys e :
  safe sys ->
  reader sys = RExiting e ->
  safe {| world := terminateCalls e (world sys); sender := SIdle;
          reader := RDone; registered := registered sys |}.
Proof.
  intros [Hpend Hinj Huns Hfl Honce Hsig Hreg Hdone Hnd] Hr.
  destruct (terminateCalls_effect e (world sys))
    as (Hshut & _ & Hseq & Hp & Hdom & Hs1 & Hs0 & _ & _ & _); [done| |].
  { intros s p Hq. by apply Hpend in Hq as [? _]. }
  assert (Hrun : reader sys ≠ RDone) by (by rewrite Hr).
  assert (Hpe : ∀ q, is_pending q (terminateCalls e (world sys))
                     ↔ is_pending q (world sys)).
  { intros q. unfold is_pending. by rewrite Hp. }
  constructor; simpl.
  - intros s q. rewrite Hp, (allocated_dom _ _ _ Hdom). apply Hpend.
  - intros s1 s2 q. rewrite !Hp. apply Hinj.
  - done.
  - intros _ q Hq%Hpe. rewrite Hs1 by done. by rewrite Huns.
  - intros q. destruct (is_pending_dec (world sys) q) as [Hq|Hq].
    + rewrite Hs1 by done. by rewrite Huns.
    + rewrite Hs0 by done. apply Honce.
  - intros q. rewrite (allocated_dom _ _ _ Hdom).
    destruct (is_pending_dec (world sys) q) as [[s Hq]|Hq].
    + intros _. by apply Hpend in Hq as [? _].
    + rewrite Hs0 by done. apply Hsig.
  - intros q. rewrite (allocated_dom _ _ _ Hdom). apply Hreg.
  - done.
  - done.
Qed.

Lemma safe_step sys sys' : safe sys -> step sys sys' -> safe sys'.
Proof.
  intros Hs Hstep. destruct Hstep.
  - by eapply safe_send_register.
  - eapply (safe_effect _ None); eauto using send_write_effect.
    intros Hd. apply (safe_done _ Hs) in Hd as [Hd _]. congruence.
  - eapply (safe_effect _ (Some s)); eauto using send_failed_effect.
    intros _ Hd. apply (safe_done _ Hs) in Hd as [Hd _]. congruence.
  - destruct (receive_iter_effect _ _ _ H0) as [os Hos].
    eapply (safe_effect _ os); eauto.
    + intros _. by rewrite H.
    + rewrite H. by destruct r.
    + by destruct r.
  - by eapply safe_terminate.
  - eapply (safe_effect _ None); eauto using Close_effect.
    intros Hd. by apply (safe_done _ Hs) in Hd as [Hd _].
Qed.





Lemma reachable_safe sys : reachable sys -> safe sys.
Proof.
  intros (c0 & o & Hrun). revert sys Hrun. apply rtc_ind_r.
  - by apply safe_initial.
  - intros y z _ Hstep Hy. by eapply safe_step.
Qed.


Lemma counted_initial (c0 : codec.GobCodec value) o : counted (initial (newClientCodec c0 o)).
Proof.
  constructor; simpl; try done.
  - intros p Hp. by apply elem_of_nil in Hp.
Qed.

Lemma completed_once_effect sys os w' sd rd p :
  safe sys ->
  effect os (world sys) w' ->
  (os ≠ None -> reader sys ≠ RDone) ->
  (rd = RDone ↔ reader sys = RDone) ->
  completed_once sys p ->
  completed_once
    {| world := w'; sender := sd; reader := rd;
       registered := registered sys |} p.
Proof.
  intros Hs (Hdom & _ & Hseq & Hshut & Hos) Hrun Hrd Hp.
  unfold completed_once in *. simpl.
  destruct os as [s0|]; destruct Hos as [Hpend Hsg].
  2:{ assert (Hpe : is_pending p w' ↔ is_pending p (world sys)).
      { unfold is_pending. by rewrite Hpend. }
      rewrite Hsg.
      destruct rd, (reader sys); rewrite ?Hpe; try done;
        destruct Hrd as [H1 H2]; first [by discriminate H1|by discriminate H2]. }
  specialize (Hrun ltac:(done)).
  assert (Hrd' : rd ≠ RDone) by (by rewrite Hrd).
  assert (Hgoal :
    (is_pending p w' ∧ signals p w' = 0%nat)
    ∨ (¬ is_pending p w' ∧ signals p w' = 1%nat)).
  { assert (Hold :
      (is_pending p (world sys) ∧ signals p (world sys) = 0%nat)
      ∨ (¬ is_pending p (world sys) ∧ signals p (world sys) = 1%nat))
      by (by destruct (reader sys)).
    rewrite Hsg. unfold is_pending. rewrite Hpend.
    destruct Hold as [[[s Hps] H0]|[Hnp H1]].
    - destruct (decide (s = s0)) as [->|Hne].
      + right. split.
        * intros [s1 [Hne Hs1]%lookup_delete_Some]. apply Hne.
          by eapply (safe_inj _ Hs).
        * rewrite bool_decide_true; [lia|]. split; [done|].
          by apply (safe_pending _ Hs) in Hps as [? _].
      + left. split.
        * exists s. by rewrite lookup_delete_ne.
        * rewrite bool_decide_false; [lia|]. intros [Hq _]. apply Hne.
          by eapply (safe_inj _ Hs).
    - right. split.
      + intros [s1 [_ Hs1]%lookup_delete_Some]. apply Hnp. by exists s1.
      + rewrite bool_decide_false; [lia|]. intros [Hq _]. apply Hnp.
        by exists s0. }
  by destruct rd.
Qed.

Lemma counted_effect sys os w' sd rd :
  safe sys -> counted sys ->
  effect os (world sys) w' ->
  (os ≠ None -> reader sys ≠ RDone) ->
  (rd = RDone ↔ reader sys = RDone) ->
  counted {| world := w'; sender := sd; reader := rd;
             registered := registered sys |}.
Proof.
  intros Hs [Hseq Hkeys Honce HSeq] Heff Hrun Hrd.
  pose proof Heff as (Hdom & HS & Hseq' & Hshut & Hos).
  constructor; simpl.
  - by rewrite Hseq'.
  - intros s p Hp. apply (Hkeys s p).
    destruct os as [s0|]; destruct Hos as [Hpend _]; rewrite Hpend in Hp;
      [|done].
    by apply lookup_delete_Some in Hp as [_ ?].
  - intros p Hp. eapply completed_once_effect; eauto.
  - intros i p Hi. rewrite HS. by apply HSeq.
Qed.

Lemma counter_distinct (n len : Z) :
  1 <= n <= len -> len + 1 <= uint64_modulus ->
  n mod uint64_modulus ≠ (1 + len) mod uint64_modulus.
Proof.
  unfold uint64_modulus. intros Hn Hlen.
  rewrite (Z.mod_small n) by lia.
  destruct (decide (1 + len = 2 ^ 64)) as [->|].
  - rewrite Z.mod_same by lia. lia.
  - rewrite Z.mod_small by lia. lia.
Qed.

Lemma counted_send_register sys k p w1 r w2 :
  safe sys -> counted sys ->
  sender sys = SIdle ->
  alloc_call k (world sys) = (p, w1) ->
  send_register p w1 = (r, w2) ->
  let sys' :=
    {| world := w2;
       sender := match r with Some s => SRegistered s p | None => SIdle end;
       reader := reader sys;
       registered :=
         match r with
         | Some _ => registered sys ++ [p]
         | None => registered sys
         end |} in
  within_counter sys' -> counted sys'.
Proof.
  intros Hs [Hseq Hkeys Honce HSeq] Hidle
    (Hfresh & Hcalls & Hcl & Hsig1)%alloc_call_fresh
    (Hdom & Hshut & Hr)%send_register_effect sys' Hbound.
  destruct (fresh_unknown _ _ Hs Hfresh) as (Hnp & Hnr & Hns).
  rewrite Hcl in Hr.
  assert (Hold : ∀ q, q ≠ p -> calls w1 !! q = calls (world sys) !! q).
  { intros q Hq. rewrite Hcalls. by rewrite lookup_insert_ne. }
  unfold within_counter in Hbound. subst sys'. destruct r as [s|]; simpl in *.
  - destruct Hr as (Hopen & -> & Hseq' & Hp & HSp & Hframe & Hsg).
    rewrite length_app in Hbound. simpl in Hbound.
    assert (Hrun : reader sys ≠ RDone).
    { intros Hd. apply (safe_done _ Hs) in Hd as [_ Hd]. rewrite Hd in Hopen.
      by rewrite orb_true_r in Hopen. }
    assert (Hnew : ∀ s q, pending (client (world sys)) !! s = Some q ->
                          s ≠ seq (client (world sys))).
    { intros s q Hq. apply Hkeys in Hq as (n & Hn & ->). rewrite Hseq.
      apply counter_distinct; lia. }
    constructor; simpl.
    + rewrite Hseq', Hseq, length_app. simpl. unfold uint64_incr.
      rewrite Z.add_mod_idemp_l by done. f_equal. lia.
    + intros s q. rewrite Hp, length_app. simpl.
      intros [[<- <-]|[Hne Hq]]%lookup_insert_Some.
      * exists (1 + Z.of_nat (length (registered sys))). split; [lia|done].
      * apply Hkeys in Hq as (n & Hn & ->). exists n. split; [lia|done].
    + intros q [Hq|Hq%list_elem_of_singleton]%elem_of_app; [|subst q].
      * assert (Hqp : q ≠ p) by (by intros ->).
        specialize (Honce q Hq). unfold completed_once in *. simpl.
        rewrite Hsg, Hsig1.
        assert (Hpe : is_pending q w2 ↔ is_pending q (world sys)).
        { unfold is_pending. rewrite Hp. split.
          - intros [s [[_ ?]|[_ ?]]%lookup_insert_Some]; [done|by exists s].
          - intros [s Hq']. exists s. rewrite lookup_insert_ne; [done|].
            intros E. by eapply Hnew. }
        destruct (reader sys); rewrite ?Hpe; done.
      * unfold completed_once. simpl. rewrite Hsg, Hsig1, Hns.
        assert (is_pending p w2).
        { exists (seq (client (world sys))). by rewrite Hp, lookup_insert_eq. }
        destruct (reader sys); [by left|by left|done].
    + intros i q. intros Hi. apply lookup_app_Some in Hi as [Hi|[Hlen Hi]].
      * assert (Hqp : q ≠ p).
        { intros ->. apply Hnr. by eapply list_elem_of_lookup_2. }
        rewrite Hframe, Hold by done. by apply HSeq.
      * apply list_lookup_singleton_Some in Hi as [Hi ->].
        rewrite HSp, Hcalls, lookup_insert_eq. simpl. rewrite Hseq.
        do 2 f_equal. lia.
  - destruct Hr as (Hshutting & Hseq' & Hp & HS & Hsg).
    assert (Hother : ∀ q, q ∈ registered sys -> signals q w2 = signals q (world sys)).
    { intros q Hq. rewrite Hsg, Hsig1. rewrite bool_decide_false; [lia|].
      intros [<- _]. done. }
    constructor; simpl.
    + by rewrite Hseq'.
    + intros s q. rewrite Hp. apply Hkeys.
    + intros q Hq. specialize (Honce q Hq). unfold completed_once in *.
      simpl. rewrite Hother by done.
      assert (Hpe : is_pending q w2 ↔ is_pending q (world sys)).
      { unfold is_pending. by rewrite Hp. }
      destruct (reader sys); rewrite ?Hpe; done.
    + intros i q Hi.
      assert (Hqp : q ≠ p).
      { intros ->. apply Hnr. by eapply list_elem_of_lookup_2. }
      rewrite HS, Hold by done. by apply HSeq.
Qed.

Lemma counted_terminate sys e :
  safe sys -> counted sys ->
  reader sys = RExiting e ->
  counted {| world := terminateCalls e (world sys); sender := SIdle;
             reader := RDone; registered := registered sys |}.
Proof.
  intros Hs [Hseq Hkeys Honce HSeq] Hr.
  destruct (terminateCalls_effect e (world sys))
    as (Hshut & _ & Hseq' & Hp & Hdom & Hs1 & Hs0 & _ & _ & HS).
  { apply (safe_inj _ Hs). }
  { intros s p Hq. by apply (safe_pending _ Hs) in Hq as [? _]. }
  constructor; simpl.
  - by rewrite Hseq'.
  - intros s p. rewrite Hp. apply Hkeys.
  - intros p Hq. specialize (Honce p Hq). unfold completed_once in *.
    rewrite Hr in Honce. simpl.
    destruct Honce as [[Hpe H0]|[Hnp H1]].
    + rewrite Hs1 by done. by rewrite H0.
    + by rewrite Hs0.
  - intros i p Hi. rewrite HS. by apply HSeq.
Qed.

Lemma step_registered sys sys' :
  step sys sys' -> (length (registered sys) <= length (registered sys'))%nat.
Proof.
  destruct 1; simpl; try done. destruct r; [|done].
  rewrite length_app. simpl. lia.
Qed.

Lemma counted_step sys sys' :
  safe sys -> counted sys -> step sys sys' ->
  within_counter sys' -> counted sys'.
Proof.
  intros Hs Hc Hstep Hb. destruct Hstep.
  - by eapply counted_send_register.
  - eapply (counted_effect _ None); eauto using send_write_effect.
  - eapply (counted_effect _ (Some s)); eauto using send_failed_effect.
    intros _ Hd. apply (safe_done _ Hs) in Hd as [Hd _]. congruence.
  - destruct (receive_iter_effect _ _ _ H0) as [os Hos].
    eapply (counted_effect _ os); eauto.
    + intros _. by rewrite H.
    + rewrite H. by destruct r.
  - by eapply counted_terminate.
  - eapply (counted_effect _ None); eauto using Close_effect.
Qed.

Lemma reachable_counted sys :
  reachable sys -> within_counter sys -> counted sys.
Proof.
  intros (c0 & o & Hrun). revert sys Hrun. apply (rtc_ind_r (λ sys, within_counter sys -> counted sys)).
  - intros _. apply counted_initial.
  - intros y z Hy Hstep IH Hb.
    assert (within_counter y).
    { unfold within_counter in *. apply step_registered in Hstep. lia. }
    eapply counted_step; eauto. apply reachable_safe. by exists c0, o.
Qed.

(** *** A whole [send] whose write fails, as three steps *)


Lemma failing_send sys (k : Call value) e :
  sender sys = SIdle ->
  closed (client (world sys)) = false ->
  shutdown (client (world sys)) = false ->
  Error k = None ->
  write_fails_next (world sys) e ->
  ∃ sys' p,
    rtc step sys sys'
    ∧ calls (world sys) !! p = None
    ∧ sender sys' = SIdle
    ∧ reader sys' = reader sys
    ∧ closed (client (world sys')) = false
    ∧ shutdown (client (world sys')) = false
    ∧ seq (client (world sys')) = uint64_incr (seq (client (world sys)))
    ∧ pending (client (world sys'))
      = delete (seq (client (world sys))) (pending (client (world sys)))
    ∧ registered sys' = registered sys ++ [p]
    ∧ (∀ q, q ≠ p -> signals q (world sys') = signals q (world sys))
    ∧ (∀ q, q ≠ p -> calls (world sys') !! q = calls (world sys) !! q)
    ∧ codec.write_result (codec.conn (c (client (world sys'))))
      = codec.write_result (codec.conn (c (client (world sys))))
    ∧ codec.writes (codec.conn (c (client (world sys'))))
      = S (codec.writes (codec.conn (c (client (world sys))))).
Proof.
  intros Hidle Hclosed Hshut Hk Hw.
  destruct (alloc_call k (world sys)) as [p w1] eqn:Ha.
  destruct (send_register p w1) as [r w2] eqn:Hr.
  pose proof Ha as (Hfresh & Hcalls & Hcl & Hsig1)%alloc_call_fresh.
  pose proof (step_send_register sys k p w1 r w2 Hidle Hk Ha Hr) as Hstep1.
  unfold send_register, registerCall in Hr.
  rewrite Hcl, Hclosed, Hshut in Hr. simpl in Hr.
  injection Hr as <- <-.
  set (s := seq (client (world sys))) in *.
  match type of Hstep1 with step _ ?x => set (sys1 := x) in * end.
  destruct (send_write p (world sys1)) as [r2 w3] eqn:Hw2.
  pose proof (step_send_write sys1 s p r2 w3 eq_refl Hw2) as Hstep2.
  unfold send_write in Hw2. simpl in Hw2.
  rewrite Hcalls, lookup_alter_eq, lookup_insert_eq in Hw2. simpl in Hw2.
  unfold codec.Write in Hw2. rewrite Hcl in Hw2.
  unfold write_fails_next in Hw. rewrite Hw in Hw2.
  injection Hw2 as <- <-.
  match type of Hstep2 with step _ ?x => set (sys2 := x) in * end.
  pose proof (step_send_failed sys2 s e eq_refl) as Hstep3.
  match type of Hstep3 with step _ ?x => set (sys3 := x) in * end.
  exists sys3, p. split; [by eapply rtc_l, rtc_l, rtc_once|].
  subst sys3 sys2 sys1. unfold send_failed, removeCall. simpl.
  rewrite Hcl, lookup_insert_eq. simpl.
  rewrite client_done. simpl. rewrite Hcl, Hclosed, Hshut.
  split_and!; try done.
  - by rewrite delete_insert_eq.
  - intros q Hq. rewrite signals_done. simpl.
    rewrite bool_decide_false by (by intros [? _]).
    rewrite Nat.add_0_r, <- (Hsig1 q). done.
  - intros q Hq. rewrite calls_done. simpl.
    rewrite !lookup_alter_ne by done. rewrite Hcalls.
    by rewrite lookup_insert_ne.
Qed.

End SystemFacts.

(** ** The counter wraps: a registered call can be lost *)

Lemma waiting_first : ∃ sys, waiting 0 sys.
Proof.
  eexists. unfold waiting. split_and!.
  - eapply rtc_l.
    { eapply (step_send_register _ a_call); reflexivity. }
    eapply rtc_once. eapply step_send_write; reflexivity.
  - reflexivity.
  - reflexivity.
  - reflexivity.
  - reflexivity.
  - reflexivity.
  - reflexivity.
  - vm_compute. apply list_elem_of_here.
  - reflexivity.
  - vm_compute. eauto.
  - reflexivity.
  - vm_compute. lia.
Qed.

Lemma waiting_next n sys :
  0 <= n < uint64_modulus - 1 -> waiting n sys -> ∃ sys', waiting (n + 1) sys'.
Proof.
  intros Hn (Hrun & Hidle & Hrd & Hcl & Hsh & Hseq & Hpend & Hreg & Hsig & Hal
             & Hwr & Hws).
  destruct (failing_send sys a_call (conn_error "broken pipe"))
    as (sys' & p & Hsteps & Hfresh & Hidle' & Hrd' & Hcl' & Hsh' & Hseq'
        & Hpend' & Hreg' & Hsig' & Hcalls' & Hwr' & Hws'); try done.
  { unfold write_fails_next. rewrite Hwr. simpl.
    destruct (codec.writes _); [lia|done]. }
  assert (Hp : (0 ≠ p)%nat).
  { intros <-. destruct Hal as [? Hal]. congruence. }
  exists sys'. unfold waiting. split_and!; try done.
  - by etrans.
  - congruence.
  - rewrite Hseq', Hseq. unfold uint64_incr.
    rewrite Z.add_mod_idemp_l by done. f_equal. lia.
  - rewrite Hpend', Hpend, Hseq. apply delete_singleton_ne.
    unfold uint64_modulus in *.
    destruct (decide (2 + n = 2 ^ 64)) as [->|].
    + rewrite Z.mod_same by lia. lia.
    + rewrite Z.mod_small by lia. lia.
  - rewrite Hreg'. apply elem_of_app. by left.
  - by rewrite Hsig'.
  - by rewrite Hcalls'.
  - congruence.
  - lia.
Qed.

Lemma waiting_any n : 0 <= n -> n <= uint64_modulus - 1 -> ∃ sys, waiting n sys.
Proof.
  revert n. apply (natlike_ind (λ n, n <= _ -> ∃ sys, waiting n sys)).
  - intros _. apply waiting_first.
  - intros n Hn IH Hle. destruct IH as [sys Hsys]; [lia|].
    replace (Z.succ n) with (n + 1) by lia.
    eapply waiting_next; [|done]. lia.
Qed.


Lemma after_first_send_reachable : reachable after_first_send.
Proof.
  exists (codec.NewGobCodecFunc flaky_conn), DefaultOption_value.
  cut (∃ sys, rtc step (initial flaky_client) sys ∧ sys = after_first_send).
  { by intros (sys & Hrun & <-). }
  eexists. split.
  - eapply rtc_l.
    { eapply (step_send_register _ a_call); reflexivity. }
    eapply rtc_once. eapply step_send_write; reflexivity.
  - reflexivity.
Qed.

(** ** C1 *)




(** ** C5 *)

(** C5, as stated: a successful [registerCall] strictly increments the
    counter.  A client can reach the counter value [2^64 - 1], where the
    increment wraps to [0]. *)
Lemma C5_counterexample :
  ¬ (∀ (sys : System unit) p s w',
       reachable sys -> registerCall p (world sys) = ((s, None), w') ->
       seq (client (world sys)) < seq (client w')).
Proof.
  intros Hall.
  destruct (waiting_any (uint64_modulus - 3)) as [sys Hsys]; [done|done|].
  destruct Hsys as (Hrun & _ & _ & Hcl & Hsh & Hseq & _).
  specialize (Hall sys 0%nat (seq (client (world sys)))
                (registerCall 0%nat (world sys)).2).
  unfold registerCall in Hall. rewrite Hcl, Hsh in Hall. simpl in Hall.
  rewrite Hseq in Hall.
  assert (H : uint64_modulus - 1 < 0); [|done].
  apply Hall; [|done].
  by exists (codec.NewGobCodecFunc flaky_conn), DefaultOption_value.
Qed.

(** C5, amended: the counter of a new client is [1] and its table is
    empty; on a closed or shut-down client [registerCall] returns
    [ErrShutdown] and changes nothing; otherwise it returns the current
    counter, stores it in the call, enters the call under it, and
    increments the counter modulo [2^64], which is a strict increment
    unless the counter is [2^64 - 1].  Hence, as long as fewer than [2^64]
    calls have been registered, the n-th registered call carries the number
    [n], so the numbers handed out are strictly increasing and pairwise
    different. *)
Theorem C5_registerCall {value : Type} (w : World value) (p : nat) :
  (∀ c0 o, seq (newClientCodec c0 o) = 1
           ∧ pending (newClientCodec (value := value) c0 o) = ∅)
  ∧ (closed (client w) || shutdown (client w) = true ->
     registerCall p w = ((0, Some ErrShutdown), w))
  ∧ (closed (client w) || shutdown (client w) = false ->
     ∃ w',
       registerCall p w = ((seq (client w), None), w')
       ∧ pending (client w') = <[seq (client w) := p]> (pending (client w))
       ∧ Seq <$> calls w' !! p = (λ _, seq (client w)) <$> calls w !! p
       ∧ seq (client w') = (seq (client w) + 1) mod 2 ^ 64
       ∧ (0 <= seq (client w) < uint64_max ->
          seq (client w') = seq (client w) + 1))
  ∧ (∀ sys : System value,
       reachable sys ->
       Z.of_nat (length (registered sys)) <= uint64_max ->
       seq (client (world sys)) = (1 + Z.of_nat (length (registered sys))) mod 2 ^ 64
       ∧ ∀ i q,
           registered sys !! i = Some q ->
           Seq <$> calls (world sys) !! q = Some (Z.of_nat i + 1)).
Proof.
  split_and!.
  - done.
  - intros Hc. unfold registerCall. by rewrite Hc.
  - intros Hc. unfold registerCall. rewrite Hc. eexists. split; [done|].
    simpl. split_and!; try done.
    + rewrite lookup_alter_eq. by destruct (calls w !! p).
    + intros Hs. unfold uint64_incr, uint64_modulus, uint64_max in *.
      rewrite Z.mod_small; lia.
  - intros sys Hreach Hlen.
    assert (Hc : counted sys).
    { apply reachable_counted; [done|].
      unfold within_counter, uint64_modulus, uint64_max in *. lia. }
    split; [exact (counted_seq _ Hc)|].
    intros i q Hi. rewrite (counted_Seq _ Hc i q Hi).
    apply lookup_lt_Some in Hi.
    unfold uint64_modulus, uint64_max in *. rewrite Z.mod_small; [done|lia].
Qed.

Lemma C5_witness :
  (∃ w', registerCall 1%nat (world after_first_send) = ((2, None), w')
         ∧ seq (client w') = 3)
  ∧ Seq <$> calls (world after_first_send) !! 0%nat = Some 1.
Proof.
  destruct (C5_registerCall (world after_first_send) 1%nat)
    as (_ & _ & Hok & Hrun).
  split.
  - destruct Hok as (w' & Hw & _ & _ & _ & Hs); [reflexivity|].
    exists w'. split; [exact Hw|]. apply Hs. vm_compute.
    split; [discriminate|reflexivity].
  - destruct (Hrun after_first_send after_first_send_reachable) as [_ HS].
    + vm_compute. discriminate.
    + apply (HS 0%nat 0%nat). reflexivity.
Defined.

(** ** C3 *)
Section Flush.
Context {value : Type}.
Implicit Types (sys : System value) (w : World value) (p q : nat).


Lemma ReadBody_unread (dst : bool) (c1 : codec.GobCodec value) :
  (length (codec.incoming (codec.conn (codec.ReadBody dst c1).2))
   <= length (codec.incoming (codec.conn c1)))%nat.
Proof.
  unfold codec.ReadBody. destruct c1 as [k]. simpl.
  destruct (codec.conn_closed k); simpl; [done|].
  destruct (codec.incoming k) as [|[hd b|e] rest'] eqn:E; simpl;
    rewrite ?E; simpl; lia.
Qed.

(** A turn of the reader loop that goes on has taken a message off the
    connection. *)
Lemma receive_iter_progress w w' :
  receive_iter w = (w', None) -> (unread w' < unread w)%nat.
Proof.
  unfold receive_iter, unread, codec.ReadHeader.
  destruct (c (client w)) as [k] eqn:Hc. simpl.
  destruct (codec.conn_closed k); [by intros [= _ ?]|].
  destruct (codec.incoming k) as [|m rest] eqn:Hin; [by intros [= _ ?]|].
  destruct m as [[hd|e] b|e]; simpl; [|by intros [= _ ?]|by intros [= _ ?]].
  unfold removeCall. simpl.
  destruct (pending (client w) !! codec.Seq hd) as [p|].
  - destruct (negb (String.eqb (codec.Error hd) "")).
    + match goal with |- context [codec.ReadBody false ?x] =>
        pose proof (ReadBody_unread false x) as Hle;
        destruct (codec.ReadBody false x) as [rb c2] end.
      intros [= <- _]. rewrite client_done. simpl in *. lia.
    + match goal with |- context [codec.ReadBody true ?x] =>
        pose proof (ReadBody_unread true x) as Hle;
        destruct (codec.ReadBody true x) as [rb c2] end.
      intros [= <- _]. rewrite client_done.
      destruct rb as [[v|]|e]; simpl in *; lia.
  - match goal with |- context [codec.ReadBody false ?x] =>
      pose proof (ReadBody_unread false x) as Hle;
      destruct (codec.ReadBody false x) as [rb c2] end.
    intros [= <- _]. simpl in *. lia.
Qed.


End Flush.



(** ** C4 *)



(** ** C2 *)



(** C2 fails on the code for a remote error text that contains a percent
    sign: the text is used as a format string.  Here the server reported
    "disk 100% full"; the call is completed, but the error it carries
    reads "disk 100%!f(MISSING)ull". *)
Theorem C2_remote_error_text :
  let w' := (receive_iter remote_error_world).1 in
  pending (client remote_error_world) !! 1 = Some 0%nat
  ∧ signals 0%nat w' = 1%nat
  ∧ (err_Error <$> (calls w' !! 0%nat ≫= Error))
    = Some "disk 100%!f(MISSING)ull"
  ∧ (err_Error <$> (calls w' !! 0%nat ≫= Error))
    ≠ Some (codec.Error remote_error_header).
Proof. vm_compute. split_and!; try reflexivity. discriminate. Qed.

(** ** C6 *)
Section Registry.
Context {value : Type} `{!reflect.Values value} (upper : Z -> bool).

Lemma registerMethod_shape (ms : gmap string (methodType value))
    (m : reflect.Method value) :
  registerMethod upper ms m
  = if rpc_shape upper m then
      <[reflect.Method_Name m :=
          {| method_ := m;
             ArgType := nth 1 (reflect.In m) reflect.invalidType;
             ReplyType := nth 2 (reflect.In m) reflect.invalidType;
             numCalls := 0 |}]> ms
    else ms.
Proof.
  unfold registerMethod, rpc_shape.
  destruct (length (reflect.In m) =? 3)%nat; [|done].
  destruct (length (reflect.Out m) =? 1)%nat; [|done]. simpl.
  destruct (reflect.rtype_eqb _ _); [|done]. simpl.
  destruct (isExportedOrBuiltinType upper (nth 1 _ _)); [|done]. simpl.
  by destruct (isExportedOrBuiltinType upper (nth 2 _ _)).
Qed.

(** What [registerMethods] does: a name is in the method map exactly when
    a method of that name passes the tests of [registerMethod]; the others
    are left out and nothing else happens. *)
Lemma registerMethods_lookup (methods : list (reflect.Method value)) n :
  is_Some (registerMethods upper methods !! n)
  ↔ ∃ m, m ∈ methods ∧ reflect.Method_Name m = n ∧ rpc_shape upper m = true.
Proof.
  unfold registerMethods.
  cut (∀ ms : gmap string (methodType value),
         is_Some (foldl (registerMethod upper) ms methods !! n)
         ↔ is_Some (ms !! n)
           ∨ ∃ m, m ∈ methods ∧ reflect.Method_Name m = n
                  ∧ rpc_shape upper m = true).
  { intros Hcut. rewrite Hcut, lookup_empty.
    split; [intros [[? ?]|?]; [done|eauto]|eauto]. }
  induction methods as [|m methods IH]; intros ms; simpl.
  - split; [auto|]. intros [?|(m & Hm & _)]; [done|]. by apply elem_of_nil in Hm.
  - rewrite IH, registerMethod_shape. split.
    + intros [Hn|(m' & Hm' & Hn & Hs)].
      * destruct (rpc_shape upper m) eqn:Hs; [|auto].
        apply lookup_insert_is_Some in Hn as [<-|[_ ?]]; [|auto].
        right. exists m. split; [apply list_elem_of_here|done].
      * right. exists m'. split; [|done]. apply elem_of_cons. by right.
    + intros [Hn|(m' & [->|Hm']%elem_of_cons & Hn & Hs)].
      * left. destruct (rpc_shape upper m); [|done].
        apply lookup_insert_is_Some.
        destruct (decide (reflect.Method_Name m = n)); auto.
      * left. rewrite Hs, <- Hn, lookup_insert_eq. eauto.
      * right. eauto.
Qed.

End Registry.

(** C6 fails on the code for a parameter that is a pointer to an
    unexported type: [Hide(args int, reply *secret) error] has the arity of
    an RPC method and a reply type that names the unexported type [secret],
    yet [registerMethods] enters it into the method map, because a pointer
    type has an empty name and an empty package path. *)
Theorem C6_pointer_to_unexported_registered :
  names_exported_or_builtin ascii_only (reflect.PtrTo T_secret) = false
  ∧ isExportedOrBuiltinType ascii_only (reflect.PtrTo T_secret) = true
  ∧ isExportedOrBuiltinType ascii_only T_secret = false
  ∧ is_Some (registerMethods ascii_only (inst_methods foo) !! "Hide")
  ∧ ∃ svc mt,
      findService foo_server "Foo.Hide" = (Some svc, Some mt, None)
      ∧ ReplyType mt = reflect.PtrTo T_secret.
Proof.
  split_and!; try reflexivity.
  - vm_compute. eauto.
  - eexists _, _. split; [vm_compute; reflexivity|reflexivity].
Qed.

(** ** C7 *)
Section Duplicates.
Context {value : Type} `{!reflect.Values value} (upper : Z -> bool).

Lemma built_names (server : Server value) :
  built upper server ->
  ∀ n s, serviceMap server !! n = Some s ->
         ast.IsExported upper n = true ∧ name s = n.
Proof.
  induction 1 as [|i server server' _ IH Hreg]; intros n s.
  - simpl. by rewrite lookup_empty.
  - unfold Register, newService in Hreg.
    destruct (Indirect_Type i) as [t|]; [|done].
    destruct (ast.IsExported upper (reflect.Name t)) eqn:Hex; [|done].
    simpl in Hreg.
    destruct (serviceMap server !! reflect.Name t); [done|].
    injection Hreg as <-. simpl.
    intros [[<- <-]|[_ Hn]]%lookup_insert_Some; [done|by apply IH].
Qed.

End Duplicates.

(** C7: on a server whose registry was built by [Register], registering an
    instance whose derived name is already registered returns the error
    "rpc: service already defined: <name>" and the server it leaves is the
    one it was given, so looking the name up still finds the service of
    the first registration. *)
Theorem C7_duplicate_rejected {value : Type} `{!reflect.Values value}
    (upper : Z -> bool) (server : Server value) (i : Instance value)
    (t : reflect.rtype) (first : service value) :
  built upper server ->
  Indirect_Type i = Some t ->
  serviceMap server !! reflect.Name t = Some first ->
  ∃ server',
    Register upper i server
    = Ok (Some (errors_New ("rpc: service already defined: " +:+ reflect.Name t)),
          server')
    ∧ server' = server
    ∧ serviceMap server' !! reflect.Name t = Some first
    ∧ ∀ serverMethod,
        findService server' serverMethod = findService server serverMethod.
Proof.
  intros Hb Ht Hfirst. exists server.
  destruct (built_names upper server Hb _ _ Hfirst) as [Hex _].
  unfold Register, newService. rewrite Ht, Hex. simpl. by rewrite Hfirst.
Qed.

Lemma foo_server_built : built ascii_only foo_server.
Proof. apply (built_Register _ foo NewServer); [apply built_new|]. reflexivity. Qed.

Lemma C7_witness :
  ∃ first,
    serviceMap foo_server !! "Foo" = Some first
    ∧ Register ascii_only foo foo_server
      = Ok (Some (errors_New "rpc: service already defined: Foo"), foo_server).
Proof.
  eexists. split; [reflexivity|].
  destruct (C7_duplicate_rejected ascii_only foo_server foo T_Foo _
              foo_server_built eq_refl eq_refl) as (server' & HR & -> & _).
  exact HR.
Defined.

(** ** C8 *)

Lemma NewCodeFuncMap_lookup {value : Type} (t : string) :
  codec.NewCodeFuncMap value !! t = None ↔ t ≠ codec.GobType.
Proof.
  unfold codec.NewCodeFuncMap. rewrite lookup_insert_None, lookup_empty.
  split; [by intros [_ ?]|done].
Qed.

(** C8: when the decoded [Option] carries another magic number than
    [MagicNumber], or a codec type without constructor, [ServeConn] only
    decodes the option and closes the connection: no header or body is
    read, no frame of the peer is taken off the connection, and nothing is
    written on it. *)
Theorem C8_handshake_rejected {value : Type} `{!reflect.Values value}
    (server : Server value) (k : codec.Conn value) (opt : Option) :
  codec.hello k = inl opt ->
  MagicNumber_ opt ≠ MagicNumber
  ∨ codec.NewCodeFuncMap value !! CodecType opt = None ->
  ∃ k',
    ServeConn server k = (LoopBreak, k', server)
    ∧ codec.events k' = codec.events k ++ [codec.EJsonDecode; codec.EClose]
    ∧ codec.conn_closed k' = true
    ∧ codec.incoming k' = codec.incoming k
    ∧ codec.writes k' = codec.writes k.
Proof.
  intros Hh Hbad. unfold ServeConn. rewrite Hh.
  destruct (MagicNumber_ opt =? MagicNumber) eqn:Hm; simpl.
  - destruct Hbad as [Hne|Hnone]; [by apply Z.eqb_eq in Hm|].
    rewrite Hnone. eexists. split; [done|]. simpl.
    by rewrite <- app_assoc.
  - eexists. split; [done|]. simpl. by rewrite <- app_assoc.
Qed.

Lemma C8_witness :
  (ServeConn foo_server (hello_conn bad_magic)).1.1 = LoopBreak
  ∧ codec.events (ServeConn foo_server (hello_conn bad_magic)).1.2
    = [codec.EJsonDecode; codec.EClose]
  ∧ codec.events (ServeConn foo_server (hello_conn json_codec)).1.2
    = [codec.EJsonDecode; codec.EClose].
Proof.
  destruct (C8_handshake_rejected foo_server (hello_conn bad_magic)
              bad_magic eq_refl) as (k1 & H1 & He1 & _).
  { left. vm_compute. discriminate. }
  destruct (C8_handshake_rejected foo_server (hello_conn json_codec)
              json_codec eq_refl) as (k2 & H2 & He2 & _).
  { right. reflexivity. }
  rewrite H1, H2. simpl. split_and!; [reflexivity|exact He1|exact He2].
Defined.

(** ** C9 *)
Section RequestLoop.
Context {value : Type} `{!reflect.Values value}.
Implicit Types (server : Server value) (c : codec.GobCodec value).

Lemma Write_events c hd (body : value) :
  codec.incoming (codec.conn (codec.Write hd body c).2)
  = codec.incoming (codec.conn c)
  ∧ ∃ closing,
      codec.events (codec.conn (codec.Write hd body c).2)
      = codec.events (codec.conn c) ++ codec.EWrite hd body :: closing
      ∧ (closing = [] ∨ closing = [codec.EClose]).
Proof.
  unfold codec.Write.
  destruct (codec.write_result _ _); simpl.
  - split; [done|]. exists [codec.EClose]. rewrite <- app_assoc. auto.
  - split; [done|]. exists []. auto.
Qed.

(** What one turn of the request loop does, by what [readRequest] met:
    a header that cannot be read ends the loop; a failed lookup answers
    once with the error in the header and the [invalidRequest] body, and
    goes on, the body of the request still unread; an argument that cannot
    be decoded is answered in the same way after its body was read, and the
    loop goes on. *)
Lemma serveCodec_loop_turn server c spawned (n : nat) :
  (∀ e c1,
     codec.ReadHeader c = (inr e, c1) ->
     serveCodec_loop (S n) server c spawned = (LoopBreak, c1, spawned))
  ∧ (∀ hd c1 svc mt e,
       codec.ReadHeader c = (inl hd, c1) ->
       findService server (codec.ServiceMethod hd) = (svc, mt, Some e) ->
       serveCodec_loop (S n) server c spawned
       = serveCodec_loop n server
           (codec.Write (set_header_Error (err_Error e) hd) invalidRequest c1).2
           spawned)
  ∧ (∀ hd c1 svc m a r e c2,
       codec.ReadHeader c = (inl hd, c1) ->
       findService server (codec.ServiceMethod hd) = (svc, Some m, None) ->
       newArgv m = Some a -> newReply m = Some r ->
       codec.ReadBody true c1 = (inr e, c2) ->
       serveCodec_loop (S n) server c spawned
       = serveCodec_loop n server
           (codec.Write (set_header_Error (err_Error e) hd) invalidRequest c2).2
           spawned).
Proof.
  split_and!.
  - intros e c1 Hh. simpl. unfold readRequest, readRequestHeader.
    by rewrite Hh.
  - intros hd c1 svc mt e Hh Hf. simpl.
    unfold readRequest, readRequestHeader. by rewrite Hh, Hf.
  - intros hd c1 svc m a r e c2 Hh Hf Ha Hr Hb. simpl.
    unfold readRequest, readRequestHeader. rewrite Hh, Hf. simpl.
    by rewrite Ha, Hr, Hb.
Qed.

Lemma ReadHeader_unread c hd c1 :
  codec.ReadHeader c = (inl hd, c1) ->
  (length (codec.incoming (codec.conn c1))
   < length (codec.incoming (codec.conn c)))%nat.
Proof.
  unfold codec.ReadHeader. destruct c as [k]. simpl.
  destruct (codec.conn_closed k); [done|].
  destruct (codec.incoming k) as [|[[h0|e] b|e] rest]; intros [= <- <-];
    simpl; lia.
Qed.

(** A turn of the request loop that goes on has taken a message off the
    connection. *)
Lemma readRequest_unread server c r e c1 :
  readRequest server c = Ok ((Some r, e), c1) ->
  (length (codec.incoming (codec.conn c1))
   < length (codec.incoming (codec.conn c)))%nat.
Proof.
  unfold readRequest, readRequestHeader.
  destruct (codec.ReadHeader c) as [[hd|e0] c0] eqn:Hh; [|done].
  apply ReadHeader_unread in Hh.
  destruct (findService server (codec.ServiceMethod hd)) as [[svc mt] [e1|]].
  - by intros [= _ _ <-].
  - destruct (_ ≫= _) as [[[m a] r0]|]; [|done].
    pose proof (ReadBody_unread true c0) as Hle.
    destruct (codec.ReadBody true c0) as [[d|e2] c2]; intros [= _ _ <-];
      simpl in Hle; lia.
Qed.

(** The number of turns [serveCodec] allows is never used up: more turns
    than there are messages all give the same run. *)
Lemma serveCodec_loop_enough (n : nat) : ∀ m server c spawned,
  (length (codec.incoming (codec.conn c)) < n)%nat ->
  (length (codec.incoming (codec.conn c)) < m)%nat ->
  serveCodec_loop n server c spawned = serveCodec_loop m server c spawned.
Proof.
  induction n as [|n IH]; intros m server c spawned Hn Hm; [lia|].
  destruct m as [|m]; [lia|]. simpl.
  destruct (readRequest server c) as [[[[r|] [e|]] c1]| |] eqn:Hr; try done.
  - apply readRequest_unread in Hr. apply IH.
    + unfold sendResponse. rewrite (proj1 (Write_events _ _ _)). lia.
    + unfold sendResponse. rewrite (proj1 (Write_events _ _ _)). lia.
  - apply readRequest_unread in Hr. apply IH; lia.
Qed.

End RequestLoop.

(** C9 fails on the code after a failed lookup: [readRequest] returns
    before the body of the request is read, so the next turn of the loop
    reads that body as a header.  Here a request for the unknown method
    [Foo.Nope] is followed by a good request for [Foo.Sum]: the server
    answers the first with one error response, then fails to decode the
    argument of the first as a header and leaves the loop; the second
    request is never read and never dispatched, and the connection is
    closed.  After an argument that does not decode the loop does go on
    and serves the second request. *)
Theorem C9_lookup_failure_stops_the_loop :
  let bad :=
    {| codec.ServiceMethod := "Foo.Nope"; codec.Seq := 1;
       codec.Error := "rpc server: can't find method: Nope" |} in
  let '(e, c', spawned) :=
    serveCodec_loop 5 foo_server (codec.NewGobCodecFunc unknown_then_good) [] in
  e = LoopBreak
  ∧ codec.events (codec.conn c')
    = [codec.EReadHeader; codec.EWrite bad (); codec.EReadHeader]
  ∧ codec.incoming (codec.conn c') = [wire_header "Foo.Sum" 2; wire_body]
  ∧ spawned = []
  ∧ codec.conn_closed (ServeConn foo_server unknown_then_good).1.2 = true
  ∧ h <$> (serveCodec_loop 5 foo_server
             (codec.NewGobCodecFunc garbled_then_good) []).2
    = [{| codec.ServiceMethod := "Foo.Sum"; codec.Seq := 2;
          codec.Error := "" |}].
Proof. vm_compute. split_and!; reflexivity. Qed.

(** ** C10 *)

(** C10, as stated: more than one option is an error.  With a nil first
    option the default is returned whatever follows, and [Dial] dials. *)
Lemma C10_counterexample :
  ¬ (∀ (options : list (option nat)) (st : gmap nat Option),
       (1 < length options)%nat -> ∃ e, (parseOptions options st).1 = inr e).
Proof.
  intros Hall.
  destruct (Hall [None; Some 1%nat] option_store) as [e He].
  - simpl. lia.
  - vm_compute in He. discriminate.
Qed.

Lemma parseOptions_one (p : nat) (st : gmap nat Option) :
  parseOptions [Some p] st
  = (inl p,
     let st1 := alter (set_MagicNumber (MagicNumber_ (deref st DefaultOption))) p st in
     if String.eqb (CodecType (deref st1 p)) "" then
       alter (set_CodecType (CodecType (deref st1 DefaultOption))) p st1
     else st1).
Proof. reflexivity. Qed.

Lemma NewClient_events {value : Type} (k : codec.Conn value) (o : Option)
    res k1 :
  NewClient k o = (res, k1) ->
  ∀ o', codec.EJsonEncode o' ∈ codec.events k1 ->
        codec.EJsonEncode o' ∈ codec.events k ∨ o' = o.
Proof.
  unfold NewClient. destruct (codec.NewCodeFuncMap value !! CodecType o).
  - destruct (codec.hello_result k); intros [= <- <-] o'; simpl.
    + rewrite <- app_assoc. simpl.
      intros [?|[[= ->]|[[=]|[]%elem_of_nil]%elem_of_cons]%elem_of_cons]%elem_of_app;
        auto.
    + intros [?|[[= ->]|[]%elem_of_nil]%elem_of_cons]%elem_of_app; auto.
  - intros [= <- <-] o'. auto.
Qed.

(** C10, amended: with no option, or with a nil first option whatever
    follows, [parseOptions] returns [DefaultOption] and changes nothing;
    with more than one option the first of which is not nil it returns an
    error, and [Dial] returns it without calling [net.Dial]; with exactly
    one option, not nil, it overwrites the option's magic number with the
    default one, replaces an empty codec type by the default one, and
    returns the option, so that every option [Dial] then encodes on the new
    connection carries [MagicNumber] — as long as nobody has changed the
    package variable [DefaultOption]. *)
Theorem C10_parseOptions {value : Type} (options : list (option nat))
    (st : gmap nat Option) :
  st !! DefaultOption = Some DefaultOption_value ->
  (options = [] ∨ (∃ rest, options = None :: rest) ->
   parseOptions options st = (inl DefaultOption, st))
  ∧ (∀ p rest,
       options = Some p :: rest -> rest ≠ [] ->
       parseOptions options st
       = (inr (errors_New "number of options is more than 1"), st)
       ∧ ∀ net_Dial network address,
           reached_net_Dial
             (Dial (value := value) net_Dial network address options st).1
           = false)
  ∧ (∀ p o,
       options = [Some p] -> st !! p = Some o ->
       ∃ st',
         parseOptions options st = (inl p, st')
         ∧ st' !! p
           = Some {| MagicNumber_ := MagicNumber;
                     CodecType := if String.eqb (CodecType o) ""
                                  then codec.GobType else CodecType o |}
         ∧ ∀ net_Dial network address (k : codec.Conn value) k' o',
             net_Dial network address = inl k ->
             codec.events k = [] ->
             connection (Dial net_Dial network address options st).1 = Some k' ->
             codec.EJsonEncode o' ∈ codec.events k' ->
             MagicNumber_ o' = MagicNumber).
Proof.
  intros Hdef. split_and!.
  - intros [->|[rest ->]]; reflexivity.
  - intros p rest -> Hrest. destruct rest as [|o rest]; [done|].
    split; [reflexivity|]. intros. reflexivity.
  - intros p o -> Hp.
    assert (Hst : ∃ st',
      parseOptions [Some p] st = (inl p, st')
      ∧ st' !! p
        = Some {| MagicNumber_ := MagicNumber;
                  CodecType := if String.eqb (CodecType o) ""
                               then codec.GobType else CodecType o |}).
    { rewrite parseOptions_one. eexists. split; [reflexivity|]. simpl.
      assert (Hd : deref st DefaultOption = DefaultOption_value).
      { unfold deref. by rewrite Hdef. }
      rewrite Hd. simpl.
      assert (H1 : deref (alter (set_MagicNumber MagicNumber) p st) p
                   = set_MagicNumber MagicNumber o).
      { unfold deref. by rewrite lookup_alter_eq, Hp. }
      assert (H2 : CodecType (deref (alter (set_MagicNumber MagicNumber) p st)
                                DefaultOption) = codec.GobType).
      { unfold deref. destruct (decide (p = DefaultOption)) as [->|Hne].
        - by rewrite lookup_alter_eq, Hdef.
        - by rewrite lookup_alter_ne, Hdef. }
      rewrite H1, H2. simpl.
      destruct (String.eqb (CodecType o) "") eqn:Ho.
      - by rewrite !lookup_alter_eq, Hp.
      - by rewrite lookup_alter_eq, Hp. }
    destruct Hst as (st' & Hparse & Hst'). exists st'.
    split_and!; [done|done|].
    intros net_Dial network address k k' o' Hdial Hev.
    unfold Dial. rewrite Hparse, Hdial.
    assert (Hd : deref st' p
                 = {| MagicNumber_ := MagicNumber;
                      CodecType := if String.eqb (CodecType o) ""
                                   then codec.GobType else CodecType o |}).
    { unfold deref. by rewrite Hst'. }
    pose proof (NewClient_events k (deref st' p)) as Hnew.
    destruct (NewClient k (deref st' p)) as [res k1]. simpl.
    intros [= <-] Hin.
    assert (Hin1 : codec.EJsonEncode o' ∈ codec.events k1).
    { destruct res; [done|]. simpl in Hin.
      apply elem_of_app in Hin as [?|[[=]|[]%elem_of_nil]%elem_of_cons]. done. }
    destruct (Hnew res k1 eq_refl o' Hin1) as [Hold| ->].
    + rewrite Hev in Hold. by apply elem_of_nil in Hold.
    + by rewrite Hd.
Qed.

Lemma C10_witness :
  ∃ st',
    parseOptions [Some 1%nat] option_store = (inl 1%nat, st')
    ∧ st' !! 1%nat = Some DefaultOption_value.
Proof.
  destruct (C10_parseOptions (value := unit) [Some 1%nat] option_store eq_refl)
    as (_ & _ & H).
  destruct (H 1%nat caller_option eq_refl eq_refl) as (st' & Hp & Hs & _).
  exists st'. split; [exact Hp|exact Hs].
Defined.

(** * Further properties of the code

    What the client, the registry and the server do beyond the statements
    above: X1 to X24. *)

Section ClientTable.
Context {value : Type}.
Implicit Types (w : World value) (p : nat) (s : Z).

(** X1: on an available client, [registerCall] files the call under the current
    number and touches no other entry, and a [removeCall] of that number
    hands the call back and leaves the table as it was without the entry of
    that number: as it was before the registration when the number was free. *)
Theorem registerCall_then_removeCall w p :
  closed (client w) || shutdown (client w) = false ->
  let s := seq (client w) in
  let w1 := (registerCall p w).2 in
  (registerCall p w).1 = (s, None)
  ∧ pending (client w1) !! s = Some p
  ∧ (∀ s', s' ≠ s -> pending (client w1) !! s' = pending (client w) !! s')
  ∧ (removeCall s w1).1 = Some p
  ∧ pending (client (removeCall s w1).2) = delete s (pending (client w))
  ∧ (pending (client w) !! s = None ->
     pending (client (removeCall s w1).2) = pending (client w)).
Proof.
  intros Hc. unfold registerCall. rewrite Hc. simpl.
  split_and!.
  - done.
  - apply lookup_insert_eq.
  - intros s' Hs'. by rewrite lookup_insert_ne.
  - apply lookup_insert_eq.
  - apply delete_insert_eq.
  - intros Hs. by rewrite delete_insert_eq, delete_id.
Qed.

Lemma with_client_id w (f : Client value -> Client value) :
  f (client w) = client w -> with_client f w = w.
Proof. intros Hf. unfold with_client. rewrite Hf. by destruct w. Qed.

(** X2: [removeCall] hands out an entry at most once: a second call for the same
    number returns nil and changes nothing; entries under other numbers, the
    calls and the channels are never touched, and for a number that is not
    in the table nothing changes at all. *)
Theorem removeCall_once w s :
  let w1 := (removeCall s w).2 in
  removeCall s w1 = (None, w1)
  ∧ (∀ s', s' ≠ s -> pending (client w1) !! s' = pending (client w) !! s')
  ∧ calls w1 = calls w
  ∧ sent w1 = sent w
  ∧ ((removeCall s w).1 = None -> w1 = w).
Proof.
  simpl. split_and!.
  - unfold removeCall. simpl. rewrite lookup_delete_eq. f_equal.
    apply with_client_id. simpl. unfold set_pending. simpl.
    by rewrite delete_id by apply lookup_delete_eq.
  - intros s' Hs'. by rewrite lookup_delete_ne.
  - done.
  - done.
  - intros Hs. apply with_client_id. unfold set_pending.
    rewrite delete_id by done. by destruct (client w).
Qed.

(** X3: [Close] closes the connection at most once. After a [Close] the client
    is closed and a further [Close] returns [ErrShutdown] and changes
    nothing. [Close] itself completes no call and does not mark the client
    shut down; on a client that was open it returns what closing the
    connection returned. *)
Theorem Close_twice w :
  let w1 := (Close w).2 in
  Close w1 = (Some ErrShutdown, w1)
  ∧ closed (client w1) = true
  ∧ pending (client w1) = pending (client w)
  ∧ shutdown (client w1) = shutdown (client w)
  ∧ calls w1 = calls w
  ∧ sent w1 = sent w
  ∧ codec.events (codec.conn (c (client w1)))
    = codec.events (codec.conn (c (client w)))
      ++ (if closed (client w) then [] else [codec.EClose])
  ∧ (closed (client w) = false ->
     (Close w).1
     = if codec.conn_closed (codec.conn (c (client w)))
       then Some codec.errClosed else None).
Proof.
  simpl. unfold Close. destruct (closed (client w)) eqn:Hc; simpl.
  - rewrite Hc. split_and!; try done. by rewrite app_nil_r.
  - done.
Qed.

End ClientTable.

Lemma registerCall_then_removeCall_witness :
  let w := world (initial flaky_client) in
  (removeCall 1 (registerCall 0%nat w).2).1 = Some 0%nat
  ∧ pending (client (removeCall 1 (registerCall 0%nat w).2).2) = ∅.
Proof.
  destruct (registerCall_then_removeCall (world (initial flaky_client)) 0%nat
              eq_refl) as (_ & _ & _ & Hr & _ & Hp).
  split; [exact Hr|exact (Hp eq_refl)].
Defined.

Section ClientFlags.
Context {value : Type}.
Implicit Types (sys : System value) (w : World value) (p q : nat) (e : error).

Lemma client_terminate_loop e (l : list nat) : ∀ w,
  client (foldl (terminate_one e) w l) = client w.
Proof.
  induction l as [|p l IH]; intros w; simpl; [done|].
  by rewrite IH, client_terminate_one.
Qed.

Lemma client_terminateCalls e w :
  client (terminateCalls e w) = set_shutdown (client w).
Proof. unfold terminateCalls. by rewrite client_terminate_loop. Qed.

Lemma receive_iter_flags w w' r :
  receive_iter w = (w', r) ->
  closed (client w') = closed (client w)
  ∧ shutdown (client w') = shutdown (client w)
  ∧ seq (client w') = seq (client w)
  ∧ header (client w') = header (client w).
Proof.
  unfold receive_iter.
  destruct (codec.ReadHeader (c (client w))) as [[hd|e] c1].
  2:{ by intros [= <- <-]. }
  unfold removeCall. cbn [fst snd].
  change (pending (client (with_client (set_c c1) w))) with (pending (client w)).
  destruct (pending (client w) !! codec.Seq hd) as [p|].
  - destruct (negb (String.eqb (codec.Error hd) "")).
    + match goal with |- context [codec.ReadBody false ?x] =>
        destruct (codec.ReadBody false x) as [rb c2] end.
      intros [= <- <-]. by rewrite client_done.
    + match goal with |- context [codec.ReadBody true ?x] =>
        destruct (codec.ReadBody true x) as [rb c2] end.
      intros [= <- <-]. rewrite client_done. by destruct rb as [[v|]|e].
  - match goal with |- context [codec.ReadBody false ?x] =>
      destruct (codec.ReadBody false x) as [rb c2] end.
    by intros [= <- <-].
Qed.

Lemma send_register_flags w p r w' :
  send_register p w = (r, w') ->
  closed (client w') = closed (client w)
  ∧ shutdown (client w') = shutdown (client w).
Proof.
  unfold send_register, registerCall.
  destruct (closed (client w) || shutdown (client w)).
  - intros [= <- <-]. by rewrite client_done.
  - by intros [= <- <-].
Qed.

Lemma send_write_flags w p r w' :
  send_write p w = (r, w') ->
  closed (client w') = closed (client w)
  ∧ shutdown (client w') = shutdown (client w).
Proof.
  unfold send_write. destruct (calls w !! p) as [k|].
  - destruct (codec.Write _ _ _) as [e c']. by intros [= <- <-].
  - by intros [= <- <-].
Qed.

Lemma send_failed_flags w s e :
  closed (client (send_failed s e w)) = closed (client w)
  ∧ shutdown (client (send_failed s e w)) = shutdown (client w).
Proof.
  unfold send_failed, removeCall.
  destruct (pending (client w) !! s) as [p|]; [by rewrite client_done|done].
Qed.

(** No step of the client or of its users clears [closed] or [shutdown]. *)
Lemma step_flags sys sys' :
  step sys sys' ->
  (closed (client (world sys)) = true -> closed (client (world sys')) = true)
  ∧ (shutdown (client (world sys)) = true ->
     shutdown (client (world sys')) = true).
Proof.
  intros Hstep. destruct Hstep; simpl.
  - destruct (send_register_flags _ _ _ _ H2) as [-> ->].
    unfold alloc_call in H1. by injection H1 as _ <-.
  - by destruct (send_write_flags _ _ _ _ H0) as [-> ->].
  - by destruct (send_failed_flags (world sys) s e) as [-> ->].
  - by destruct (receive_iter_flags _ _ _ H0) as (-> & -> & _).
  - by rewrite client_terminateCalls.
  - unfold Close in H. destruct (closed (client (world sys))) eqn:Hc.
    + injection H as _ <-. by rewrite Hc.
    + destruct (codec.Close _) as [e c']. by injection H as _ <-.
Qed.

End ClientFlags.

(** X4: once [IsAvailable] has answered false it never answers true again,
    whatever senders, reader loop and [Close] do, and from then on every
    [registerCall] is refused with [ErrShutdown] and changes nothing. *)
Theorem unavailable_for_good {value : Type} (sys sys' : System value) :
  rtc step sys sys' ->
  IsAvailable (world sys) = false ->
  IsAvailable (world sys') = false
  ∧ ∀ p, registerCall p (world sys') = ((0, Some ErrShutdown), world sys').
Proof.
  intros Hrun Hna.
  assert (IsAvailable (world sys') = false) as Hna'.
  { induction Hrun as [|x y z Hstep _ IH]; [done|]. apply IH.
    destruct (step_flags _ _ Hstep) as [Hc Hs]. unfold IsAvailable in *.
    destruct (closed (client (world x))), (shutdown (client (world x)));
      try done; rewrite ?Hc, ?Hs by done; simpl; try done.
    all: by rewrite andb_false_r. }
  split; [done|]. intros p. unfold registerCall. unfold IsAvailable in Hna'.
  by destruct (closed (client (world sys'))), (shutdown (client (world sys'))).
Qed.

Lemma unavailable_for_good_witness :
  IsAvailable
    (world {| world := (receive_iter (world closed_client)).1;
              sender := SIdle; reader := RExiting codec.errClosed;
              registered := [] |}) = false.
Proof.
  refine (proj1 (unavailable_for_good closed_client _ _ _)).
  - apply rtc_once. by apply (step_receive closed_client _ (Some codec.errClosed)).
  - reflexivity.
Defined.

Section Send.
Context {value : Type}.
Implicit Types (w : World value) (p q : nat) (e : error) (k : Call value).

(** [send] by its three outcomes. *)
Lemma send_cases w p k :
  calls w !! p = Some k ->
  let s := seq (client w) in
  let hd := {| codec.ServiceMethod := ServiceMethod k; codec.Seq := s;
               codec.Error := "" |} in
  let w' := send p w in
  chans w' = chans w
  ∧ closed (client w') = closed (client w)
  ∧ shutdown (client w') = shutdown (client w)
  ∧ if closed (client w) || shutdown (client w) then
      client w' = client w
      ∧ calls w' = alter (set_Error ErrShutdown) p (calls w)
      ∧ sent w' = sent w ++ [(Done k, p)]
    else
      seq (client w') = uint64_incr s
      ∧ header (client w') = hd
      ∧ c (client w') = (codec.Write hd (Args k) (c (client w))).2
      ∧ match (codec.Write hd (Args k) (c (client w))).1 with
        | None =>
          pending (client w') = <[s := p]> (pending (client w))
          ∧ calls w' = alter (set_Seq s) p (calls w)
          ∧ sent w' = sent w
        | Some e =>
          pending (client w') = delete s (pending (client w))
          ∧ calls w' = alter (set_Error e) p (alter (set_Seq s) p (calls w))
          ∧ sent w' = sent w ++ [(Done k, p)]
        end.
Proof.
  intros Hk. cbv zeta. unfold send, send_register, registerCall.
  destruct (closed (client w) || shutdown (client w)) eqn:Hc.
  - rewrite chans_done, client_done, calls_done. unfold done. simpl.
    by rewrite lookup_alter_eq, Hk.
  - cbn [fst snd]. unfold send_write. cbn [calls with_client with_call].
    rewrite lookup_alter_eq, Hk. cbn [fmap option_fmap option_map from_option].
    cbn [client with_client with_call c header set_header set_seq set_pending
         ServiceMethod set_Seq Args].
    destruct (codec.Write _ _ _) as [[e|] c'] eqn:HW; cbn [fst snd].
    + unfold send_failed, removeCall.
      cbn [client with_client with_call pending set_header set_seq set_pending
           set_c fst snd].
      rewrite lookup_insert_eq, chans_done, client_done, calls_done.
      unfold done. simpl. rewrite !lookup_alter_eq, Hk. simpl.
      by rewrite delete_insert_eq.
    + done.
Qed.

End Send.

(** X5: a [send] on an available client whose write goes through: the call is
    filed under the current number, which is written into the call and the
    request header; one frame is written, with the call's method, that
    number, no error text and the call's arguments; nothing is signalled and
    no other call is touched. *)
Theorem send_goes_through {value : Type} (w : World value) (p : nat)
    (k : Call value) :
  calls w !! p = Some k ->
  closed (client w) || shutdown (client w) = false ->
  codec.write_result (codec.conn (c (client w)))
    (codec.writes (codec.conn (c (client w)))) = None ->
  let s := seq (client w) in
  let hd := {| codec.ServiceMethod := ServiceMethod k; codec.Seq := s;
               codec.Error := "" |} in
  let w' := send p w in
  pending (client w') = <[s := p]> (pending (client w))
  ∧ seq (client w') = uint64_incr s
  ∧ calls w' !! p = Some (set_Seq s k)
  ∧ (∀ q, q ≠ p -> calls w' !! q = calls w !! q)
  ∧ sent w' = sent w
  ∧ codec.events (codec.conn (c (client w')))
    = codec.events (codec.conn (c (client w))) ++ [codec.EWrite hd (Args k)]
  ∧ codec.writes (codec.conn (c (client w')))
    = S (codec.writes (codec.conn (c (client w))))
  ∧ codec.conn_closed (codec.conn (c (client w')))
    = codec.conn_closed (codec.conn (c (client w)))
  ∧ codec.incoming (codec.conn (c (client w')))
    = codec.incoming (codec.conn (c (client w))).
Proof.
  intros Hk Hc Hw. cbv zeta.
  destruct (send_cases w p k Hk) as (_ & _ & _ & Hsend).
  rewrite Hc in Hsend. destruct Hsend as (Hseq & _ & Hcodec & Hres).
  unfold codec.Write in Hcodec, Hres. rewrite Hw in Hcodec, Hres.
  cbn [fst snd] in Hcodec, Hres. destruct Hres as (Hp & Hcalls & Hsent).
  rewrite Hcodec, Hcalls. simpl. split_and!; try done.
  - by rewrite lookup_alter_eq, Hk.
  - intros q Hq. by rewrite lookup_alter_ne.
Qed.

Lemma send_goes_through_witness :
  pending (client (send 0%nat first_call)) = <[1 := 0%nat]> ∅
  ∧ codec.events (codec.conn (c (client (send 0%nat first_call))))
    = [codec.EWrite
         {| codec.ServiceMethod := "Foo.Sum"; codec.Seq := 1;
            codec.Error := "" |} ()].
Proof.
  destruct (send_goes_through first_call 0%nat a_call eq_refl eq_refl eq_refl)
    as (Hp & _ & _ & _ & _ & He & _).
  split; [exact Hp|exact He].
Defined.


Section CallFacts.
Context {value : Type}.
Implicit Types (w : World value) (p q : nat).

Lemma filter_none {A} (P : A -> Prop) `{!∀ x, Decision (P x)} (l : list A) :
  (∀ x, x ∈ l -> ¬ P x) -> filter P l = [].
Proof.
  induction l as [|x l IH]; intros Hl; [done|].
  rewrite filter_cons_False by (apply Hl, list_elem_of_here).
  apply IH. intros y Hy. apply Hl, elem_of_cons. by right.
Qed.

End CallFacts.

(** X7: [Call] never panics on its channel, and it returns the error of its own
    call: [ErrShutdown] at once when the client is closed or shut down, the
    write error at once when the write fails; when the write goes through it
    waits, its call filed under the number written, and once the reader loop
    has read a response with that number, no error text and a body that
    decodes, it returns nil, the decoded value being in the reply. *)
Theorem Call_returns {value : Type} (serviceMethod : string)
    (args reply : value) (w : World value) :
  (∀ x, x ∈ sent w -> x.1 ∈ dom (chans w)) ->
  ∃ p w',
    Call_go serviceMethod args reply w = Some (p, w')
    ∧ calls w !! p = None
    ∧ if closed (client w) || shutdown (client w) then
        Call_return p w' = Some (Some ErrShutdown)
      else
        let hd := {| codec.ServiceMethod := serviceMethod;
                     codec.Seq := seq (client w); codec.Error := "" |} in
        match (codec.Write hd args (c (client w))).1 with
        | Some e => Call_return p w' = Some (Some e)
        | None =>
          Call_return p w' = None
          ∧ pending (client w') !! seq (client w) = Some p
          ∧ ∀ hd' c1 v,
              codec.ReadHeader (c (client w')) = (inl hd', c1) ->
              codec.Seq hd' = seq (client w) ->
              codec.Error hd' = "" ->
              (codec.ReadBody true c1).1 = inl (Some v) ->
              Call_return p (receive_iter w').1 = Some None
              ∧ Reply <$> calls (receive_iter w').1 !! p = Some v
        end.
Proof.
  intros Hsent. unfold Call_go, Go.
  set (ch := fresh (dom (chans w))).
  assert (Hch : ∀ x, x ∈ sent w -> x.1 ≠ ch).
  { intros x Hx Heq. apply (is_fresh (dom (chans w))). fold ch.
    rewrite <- Heq. by apply Hsent. }
  cbn [chans]. rewrite lookup_insert_eq. cbn [from_option id].
  rewrite bool_decide_false by done. cbn [calls client sent].
  set (p := fresh (dom (calls w))).
  set (k0 := {| Seq := 0; ServiceMethod := serviceMethod; Args := args;
                Reply := reply; Error := None; Done := ch |}).
  set (w2 := {| client := client w; calls := <[p := k0]> (calls w);
                chans := <[ch := 1%nat]> (chans w); sent := sent w |}).
  assert (Hk0 : calls w2 !! p = Some k0) by apply lookup_insert_eq.
  destruct (send_cases w2 p k0 Hk0) as (_ & _ & _ & Hsend).
  assert (Hnone : filter (λ x : nat * nat, x.1 = ch) (sent w) = []).
  { apply filter_none. intros x Hx. by apply Hch. }
  exists p, (send p w2). split; [done|].
  split; [apply not_elem_of_dom, is_fresh|].
  change (client w2) with (client w) in Hsend.
  change (sent w2) with (sent w) in Hsend.
  destruct (closed (client w) || shutdown (client w)).
  - destruct Hsend as (_ & Hcalls & Hs). unfold Call_return.
    rewrite Hcalls, lookup_alter_eq, Hk0, Hs. simpl.
    rewrite filter_app, Hnone, filter_cons_True by done. simpl.
    by rewrite lookup_alter_eq, lookup_insert_eq.
  - destruct Hsend as (_ & _ & _ & Hres). cbv zeta.
    change (ServiceMethod k0) with serviceMethod in Hres.
    change (Args k0) with args in Hres.
    destruct (codec.Write _ _ _).1 as [e|].
    + destruct Hres as (_ & Hcalls & Hs). unfold Call_return.
      rewrite Hcalls, !lookup_alter_eq, Hk0, Hs. simpl.
      rewrite filter_app, Hnone, filter_cons_True by done. simpl.
      by rewrite !lookup_alter_eq, lookup_insert_eq.
    + destruct Hres as (Hpend & Hcalls & Hs).
      assert (Hp : calls (send p w2) !! p = Some (set_Seq (seq (client w)) k0)).
      { by rewrite Hcalls, lookup_alter_eq, Hk0. }
      split_and!.
      * unfold Call_return. rewrite Hp, Hs. simpl. by rewrite Hnone.
      * rewrite Hpend. apply lookup_insert_eq.
      * intros hd' c1 v Hh Hseq Herr Hb.
        destruct (receive_iter_cases (send p w2) hd' c1 Hh) as [_ Hcase].
        rewrite Hseq, Hpend in Hcase. simpl in Hcase.
        rewrite lookup_insert_eq in Hcase. destruct Hcase as [Hs' Hcase].
        rewrite Herr in Hcase. simpl in Hcase.
        destruct Hcase as (_ & _ & Hcalls'). rewrite Hb in Hcalls'.
        specialize (Hs' _ Hp). unfold Call_return.
        rewrite Hcalls', lookup_alter_eq, Hp, Hs', Hs. simpl.
        rewrite filter_app, Hnone, filter_cons_True by done. simpl.
        by rewrite lookup_alter_eq, Hp.
Qed.

Lemma Call_returns_witness :
  ∃ p w',
    Call_go "Foo.Sum" () () (world closed_client) = Some (p, w')
    ∧ Call_return p w' = Some (Some ErrShutdown).
Proof.
  destruct (Call_returns "Foo.Sum" () () (world closed_client))
    as (p & w' & Hgo & _ & Hret).
  - intros x Hx. by apply elem_of_nil in Hx.
  - exists p, w'. split; [exact Hgo|exact Hret].
Defined.

Section Reads.
Context {value : Type}.
Implicit Types (w : World value) (k : codec.Conn value)
  (cd : codec.GobCodec value).

Lemma reads_only_refl k : reads_only k k.
Proof.
  split_and!; try done; [by exists 0%nat|]. exists []. by rewrite app_nil_r.
Qed.

Lemma reads_only_trans k1 k2 k3 :
  reads_only k1 k2 -> reads_only k2 k3 -> reads_only k1 k3.
Proof.
  intros (Hw1 & Hc1 & [n1 Hi1] & evs1 & He1 & Hr1)
         (Hw2 & Hc2 & [n2 Hi2] & evs2 & He2 & Hr2).
  split_and!; try congruence.
  - exists (n1 + n2)%nat. by rewrite Hi2, Hi1, drop_drop.
  - exists (evs1 ++ evs2). rewrite He2, He1, <- app_assoc. split; [done|].
    by rewrite forallb_app, Hr1, Hr2.
Qed.

Lemma ReadHeader_reads cd :
  reads_only (codec.conn cd) (codec.conn (codec.ReadHeader cd).2).
Proof.
  unfold codec.ReadHeader. destruct cd as [k]. simpl.
  assert (∀ n, reads_only k
            (codec.set_incoming (drop n (codec.incoming k))
               (codec.log codec.EReadHeader k))) as Hn.
  { intros n. split_and!; try done; [by exists n|].
    by exists [codec.EReadHeader]. }
  destruct (codec.conn_closed k) eqn:Hc; simpl.
  { split_and!; try done; [by exists 0%nat|]. by exists [codec.EReadHeader]. }
  destruct (codec.incoming k) as [|[hd b|e] rest] eqn:Hin; simpl.
  - split_and!; try done; [by exists 0%nat|].
    by exists [codec.EReadHeader].
  - apply (Hn 1%nat).
  - apply (Hn 1%nat).
Qed.

Lemma ReadBody_reads (dst : bool) cd :
  reads_only (codec.conn cd) (codec.conn (codec.ReadBody dst cd).2).
Proof.
  unfold codec.ReadBody. destruct cd as [k]. simpl.
  assert (∀ n, reads_only k
            (codec.set_incoming (drop n (codec.incoming k))
               (codec.log (codec.EReadBody (negb dst)) k))) as Hn.
  { intros n. split_and!; try done; [by exists n|].
    by exists [codec.EReadBody (negb dst)]. }
  destruct (codec.conn_closed k) eqn:Hc; simpl.
  { split_and!; try done; [by exists 0%nat|].
    by exists [codec.EReadBody (negb dst)]. }
  destruct (codec.incoming k) as [|[hd b|e] rest] eqn:Hin; simpl.
  - split_and!; try done; [by exists 0%nat|].
    by exists [codec.EReadBody (negb dst)].
  - apply (Hn 1%nat).
  - apply (Hn 1%nat).
Qed.

Lemma receive_iter_reads w w' r :
  receive_iter w = (w', r) ->
  reads_only (codec.conn (c (client w)))
    (codec.conn (c (client w'))).
Proof.
  unfold receive_iter.
  pose proof (ReadHeader_reads (c (client w))) as Hh.
  destruct (codec.ReadHeader (c (client w))) as [[hd|e] c1].
  2:{ by intros [= <- <-]. }
  unfold removeCall. cbn [fst snd] in *.
  change (pending (client (with_client (set_c c1) w))) with (pending (client w)).
  destruct (pending (client w) !! codec.Seq hd) as [p|].
  - destruct (negb (String.eqb (codec.Error hd) "")).
    + match goal with |- context [codec.ReadBody false ?x] =>
        change x with c1; pose proof (ReadBody_reads false c1) as Hb;
        destruct (codec.ReadBody false c1) as [rb c2] end.
      intros [= <- <-]. rewrite client_done. by eapply reads_only_trans.
    + match goal with |- context [codec.ReadBody true ?x] =>
        change x with c1; pose proof (ReadBody_reads true c1) as Hb;
        destruct (codec.ReadBody true c1) as [rb c2] end.
      intros [= <- <-]. rewrite client_done.
      destruct rb as [[v|]|e]; by eapply reads_only_trans.
  - match goal with |- context [codec.ReadBody false ?x] =>
      change x with c1; pose proof (ReadBody_reads false c1) as Hb;
      destruct (codec.ReadBody false c1) as [rb c2] end.
    intros [= <- <-]. by eapply reads_only_trans.
Qed.

Lemma receive_loop_reads (turns : nat) : ∀ w,
  reads_only (codec.conn (c (client w)))
    (codec.conn (c (client (receive_loop turns w))))
  ∧ closed (client (receive_loop turns w)) = closed (client w)
  ∧ seq (client (receive_loop turns w)) = seq (client w).
Proof.
  induction turns as [|n IH]; intros w; simpl.
  { split; [apply reads_only_refl|done]. }
  destruct (receive_iter w) as [w' [e|]] eqn:Hit.
  - rewrite client_terminateCalls. simpl.
    destruct (receive_iter_flags _ _ _ Hit) as (-> & _ & -> & _).
    split; [|done]. by eapply receive_iter_reads.
  - destruct (IH w') as (Hr & -> & ->).
    destruct (receive_iter_flags _ _ _ Hit) as (-> & _ & -> & _).
    split; [|done]. eapply reads_only_trans; [|exact Hr].
    by eapply receive_iter_reads.
Qed.

End Reads.

Section ReceiveEnds.
Context {value : Type}.

Lemma receive_loop_shutdown (turns : nat) : ∀ w : World value,
  (unread w < turns)%nat ->
  shutdown (client (receive_loop turns w)) = true.
Proof.
  induction turns as [|n IH]; intros w Hlt; [lia|]. simpl.
  destruct (receive_iter w) as [w' [e|]] eqn:Hit.
  - by rewrite client_terminateCalls.
  - apply IH. apply receive_iter_progress in Hit. lia.
Qed.

End ReceiveEnds.

(** X8: the reader loop never writes on the connection and never closes it: all
    it does to the connection is to take values off the front of the stream.
    When it returns the client is shut down, with [closed] and the counter
    as they were. *)
Theorem receive_only_reads {value : Type} (w : World value) :
  reads_only (codec.conn (c (client w))) (codec.conn (c (client (receive w))))
  ∧ shutdown (client (receive w)) = true
  ∧ closed (client (receive w)) = closed (client w)
  ∧ seq (client (receive w)) = seq (client w).
Proof.
  destruct (receive_loop_reads (S (unread w)) w) as (Hr & Hc & Hs).
  split_and!; try done. apply receive_loop_shutdown. lia.
Qed.

Section Frames.
Context {value : Type}.
Implicit Types (w : World value) (cd : codec.GobCodec value).

Lemma ReadHeader_open cd hd c1 :
  codec.ReadHeader cd = (inl hd, c1) ->
  codec.conn_closed (codec.conn c1) = false
  ∧ codec.incoming (codec.conn c1) = drop 1 (codec.incoming (codec.conn cd))
  ∧ codec.events (codec.conn c1)
    = codec.events (codec.conn cd) ++ [codec.EReadHeader].
Proof.
  unfold codec.ReadHeader. destruct cd as [k]. simpl.
  destruct (codec.conn_closed k) eqn:Hc; [done|].
  destruct (codec.incoming k) as [|[[h0|e] b|e] rest]; intros [= <- <-]; done.
Qed.

Lemma ReadBody_open (dst : bool) cd :
  codec.conn_closed (codec.conn cd) = false ->
  codec.conn_closed (codec.conn (codec.ReadBody dst cd).2) = false
  ∧ codec.incoming (codec.conn (codec.ReadBody dst cd).2)
    = drop 1 (codec.incoming (codec.conn cd))
  ∧ codec.events (codec.conn (codec.ReadBody dst cd).2)
    = codec.events (codec.conn cd) ++ [codec.EReadBody (negb dst)].
Proof.
  unfold codec.ReadBody. destruct cd as [k]. simpl. intros Hc. rewrite Hc.
  destruct (codec.incoming k) as [|[h0 b|e] rest] eqn:Hin; simpl;
    rewrite ?Hin; done.
Qed.

End Frames.

(** X9: the reader loop takes responses off the stream frame by frame. In a turn
    that read a header it reads exactly one body after it, whatever the
    header says: with a nil destination when no call is filed under the
    header's number or the header carries an error text, into the reply
    otherwise; so the next turn starts at the next header. *)
Theorem receive_reads_whole_frames {value : Type} (w : World value)
    (hd : codec.Header) (c1 : codec.GobCodec value) :
  codec.ReadHeader (c (client w)) = (inl hd, c1) ->
  let w' := (receive_iter w).1 in
  let discard :=
    bool_decide (pending (client w) !! codec.Seq hd = None)
    || negb (String.eqb (codec.Error hd) "") in
  c (client w') = (codec.ReadBody (negb discard) c1).2
  ∧ (receive_iter w).2 = read_error (codec.ReadBody (negb discard) c1).1
  ∧ codec.events (codec.conn (c (client w')))
    = codec.events (codec.conn (c (client w)))
      ++ [codec.EReadHeader; codec.EReadBody discard]
  ∧ codec.incoming (codec.conn (c (client w')))
    = drop 2 (codec.incoming (codec.conn (c (client w)))).
Proof.
  intros Hh. cbv zeta.
  destruct (receive_iter_cases w hd c1 Hh) as [_ Hcase].
  destruct (ReadHeader_open _ _ _ Hh) as (Hopen & Hin & Hev).
  assert (Hc : c (client (receive_iter w).1)
               = (codec.ReadBody
                    (negb (bool_decide (pending (client w) !! codec.Seq hd = None)
                           || negb (String.eqb (codec.Error hd) ""))) c1).2
               ∧ (receive_iter w).2
                 = read_error
                     (codec.ReadBody
                        (negb (bool_decide
                                 (pending (client w) !! codec.Seq hd = None)
                               || negb (String.eqb (codec.Error hd) ""))) c1).1).
  { destruct (pending (client w) !! codec.Seq hd) as [p|].
    - rewrite bool_decide_false by done. destruct Hcase as [_ Hcase].
      destruct (String.eqb (codec.Error hd) ""); simpl;
        by destruct Hcase as (-> & -> & _).
    - rewrite bool_decide_true by done. simpl.
      by destruct Hcase as (-> & -> & _). }
  destruct Hc as [Hc Hr]. rewrite Hc. split; [done|]. split; [done|].
  destruct (ReadBody_open
              (negb (bool_decide (pending (client w) !! codec.Seq hd = None)
                     || negb (String.eqb (codec.Error hd) ""))) c1 Hopen)
    as (_ & Hin2 & Hev2).
  rewrite Hev2, Hin2, Hev, Hin, negb_involutive, drop_drop, <- app_assoc.
  done.
Qed.

Lemma receive_reads_whole_frames_witness :
  codec.events (codec.conn (c (client (receive_iter plain_error_world).1)))
  = [codec.EReadHeader; codec.EReadBody true].
Proof.
  exact (proj1 (proj2 (proj2 (receive_reads_whole_frames plain_error_world
                                plain_error_header _ eq_refl)))).
Defined.



Section Filed.
Context {value : Type}.
Implicit Types (sys : System value) (w : World value) (p q : nat).

Lemma ServiceMethod_alter (f : Call value -> Call value)
    (m : gmap nat (Call value)) p q :
  (∀ k, ServiceMethod (f k) = ServiceMethod k) ->
  ServiceMethod <$> alter f p m !! q = ServiceMethod <$> m !! q.
Proof.
  intros Hf. destruct (decide (p = q)) as [->|].
  - rewrite lookup_alter_eq. destruct (m !! q); simpl; [|done].
    by rewrite Hf.
  - by rewrite lookup_alter_ne.
Qed.

Lemma receive_iter_ServiceMethod w w' r :
  receive_iter w = (w', r) ->
  ∀ q, ServiceMethod <$> calls w' !! q = ServiceMethod <$> calls w !! q.
Proof.
  unfold receive_iter.
  destruct (codec.ReadHeader (c (client w))) as [[hd|e] c1].
  2:{ by intros [= <- <-]. }
  unfold removeCall. cbn [fst snd].
  change (pending (client (with_client (set_c c1) w))) with (pending (client w)).
  destruct (pending (client w) !! codec.Seq hd) as [p|].
  - destruct (negb (String.eqb (codec.Error hd) "")).
    + match goal with |- context [codec.ReadBody false ?x] =>
        destruct (codec.ReadBody false x) as [rb c2] end.
      intros [= <- <-] q. rewrite calls_done. simpl.
      by apply ServiceMethod_alter.
    + match goal with |- context [codec.ReadBody true ?x] =>
        destruct (codec.ReadBody true x) as [rb c2] end.
      intros [= <- <-] q. rewrite calls_done.
      destruct rb as [[v|]|e]; simpl; try done; by apply ServiceMethod_alter.
  - match goal with |- context [codec.ReadBody false ?x] =>
      destruct (codec.ReadBody false x) as [rb c2] end.
    by intros [= <- <-].
Qed.

Lemma filed_effect sys os w' :
  (∀ s p, pending (client (world sys)) !! s = Some p ->
          Seq <$> calls (world sys) !! p = Some s) ->
  effect os (world sys) w' ->
  ∀ s p, pending (client w') !! s = Some p -> Seq <$> calls w' !! p = Some s.
Proof.
  intros Hk (_ & Hseq & _ & _ & Hos) s p Hp. rewrite Hseq. apply Hk.
  destruct os as [s0|]; destruct Hos as [Hpend _]; rewrite Hpend in Hp.
  - by apply lookup_delete_Some in Hp as [_ ?].
  - done.
Qed.

Lemma filed_initial (c0 : codec.GobCodec value) o :
  filed (initial (newClientCodec c0 o)).
Proof. split; [intros s p; simpl; by rewrite lookup_empty|done]. Qed.

Lemma filed_step sys sys' : safe sys -> filed sys -> step sys sys' -> filed sys'.
Proof.
  intros Hs [Hk Hh] Hstep. destruct Hstep.
  - destruct (alloc_call_fresh _ _ _ _ H1) as (Hfresh & Hcalls & Hcl & _).
    destruct (fresh_unknown _ _ Hs Hfresh) as (Hnp & _ & _).
    pose proof (send_register_effect _ _ _ _ H2) as (_ & _ & Hr).
    pose proof (send_register_others _ _ _ _ H2) as Hothers.
    assert (Hold : ∀ s q, pending (client (world sys)) !! s = Some q ->
                          q ≠ p ∧ Seq <$> calls w2 !! q = Some s).
    { intros s q Hq. assert (q ≠ p) as Hne.
      { intros ->. apply Hnp. by exists s. }
      split; [done|]. rewrite Hothers by done.
      rewrite Hcalls, lookup_insert_ne by done. by apply Hk. }
    destruct r as [s0|].
    + destruct Hr as (_ & -> & _ & Hpend & Hseq & _ & _).
      split; simpl.
      * intros s q. rewrite Hpend, Hcl.
        intros [[<- <-]|[_ Hq]]%lookup_insert_Some; [|by apply Hold].
        rewrite Hseq, Hcalls, lookup_insert_eq. simpl. by rewrite Hcl.
      * intros s q [= <- <-].
        unfold send_register, registerCall in H2.
        destruct (closed (client w1) || shutdown (client w1)); [done|].
        injection H2 as <-. simpl.
        rewrite lookup_alter_eq, Hcalls, lookup_insert_eq. simpl.
        eexists. split; [done|]. by rewrite Hcl.
    + destruct Hr as (_ & _ & Hpend & Hseq & _).
      split; simpl; [|done].
      intros s q. rewrite Hpend, Hcl. intros Hq. by apply Hold.
  - split; simpl.
    + eapply filed_effect; eauto using send_write_effect.
    + by destruct r.
  - split; simpl; [|done].
    eapply filed_effect; eauto using send_failed_effect.
  - destruct (receive_iter_effect _ _ _ H0) as [os Hos].
    split; simpl; [by eapply filed_effect|].
    intros s p Hsp. destruct (Hh s p Hsp) as (k & Hk1 & Hk2 & Hhd).
    destruct (receive_iter_flags _ _ _ H0) as (_ & _ & _ & ->).
    pose proof (receive_iter_ServiceMethod _ _ _ H0 p) as Hsm.
    destruct Hos as (_ & Hseq & _). specialize (Hseq p).
    rewrite Hk1 in Hsm, Hseq. simpl in *.
    destruct (calls w1 !! p) as [k'|]; [|done].
    injection Hsm as Hsm. injection Hseq as Hseq.
    exists k'. split; [done|]. split; [congruence|]. by rewrite Hsm, Hhd.
  - split; simpl; [|done].
    assert (pending_allocated (world sys)) as Hall.
    { intros s p Hp. by apply (safe_pending _ Hs) in Hp as [? _]. }
    pose proof (terminateCalls_effect e _ (safe_inj _ Hs) Hall)
      as (_ & _ & _ & Hpend & _ & _ & _ & _ & _ & Hseq).
    intros s p. rewrite Hpend, Hseq. apply Hk.
  - split; simpl; [by eapply filed_effect; eauto using Close_effect|].
    intros s p Hsp. destruct (Hh s p Hsp) as (k & Hk1 & Hk2 & Hhd).
    exists k. unfold Close in H. destruct (closed (client (world sys))).
    + by injection H as _ <-.
    + destruct (codec.Close _) as [e c']. by injection H as _ <-.
Qed.

End Filed.

(** X11: in every state a client can reach, each call of the pending table is
    filed under the number stored in the call, and while a sender is between
    registering a call and writing it, the shared request header holds that
    call's method and number, whatever the reader loop and [Close] do in
    between; so the frame the sender then writes is the call's own. *)
Theorem requests_carry_their_number {value : Type} (sys : System value) :
  reachable sys ->
  filed sys
  ∧ ∀ s p r w1,
      sender sys = SRegistered s p ->
      send_write p (world sys) = (r, w1) ->
      ∃ k closing,
        calls (world sys) !! p = Some k
        ∧ Seq k = s
        ∧ codec.events (codec.conn (c (client w1)))
          = codec.events (codec.conn (c (client (world sys))))
            ++ codec.EWrite
                 {| codec.ServiceMethod := ServiceMethod k; codec.Seq := s;
                    codec.Error := "" |} (Args k) :: closing.
Proof.
  intros Hreach.
  assert (Hf : filed sys).
  { pose proof Hreach as (c0 & o & Hrun). revert Hreach.
    revert sys Hrun. apply (rtc_ind_r (λ sys, reachable sys -> filed sys)).
    - intros _. apply filed_initial.
    - intros y z Hrun Hstep IH Hz.
      assert (reachable y) as Hy by by exists c0, o.
      eapply filed_step; [by apply reachable_safe|by apply IH|done]. }
  split; [done|]. intros s p r w1 Hsp Hw.
  destruct Hf as [_ Hh]. destruct (Hh s p Hsp) as (k & Hk & Hseq & Hhd).
  unfold send_write in Hw. rewrite Hk, Hhd in Hw.
  destruct (Write_events (c (client (world sys)))
              {| codec.ServiceMethod := ServiceMethod k; codec.Seq := s;
                 codec.Error := "" |} (Args k)) as (_ & closing & Hev & _).
  destruct (codec.Write _ _ _) as [e c']. injection Hw as _ <-.
  exists k, closing. by split_and!.
Qed.

Lemma requests_carry_their_number_witness :
  Seq <$> calls (world after_first_send) !! 0%nat = Some 1.
Proof.
  exact (proj1 (proj1 (requests_carry_their_number after_first_send
                         after_first_send_reachable)) 1 0%nat eq_refl).
Defined.

Section DialFacts.
Context {value : Type}.
Implicit Types (k : codec.Conn value) (o : Option).

(** [NewClient] by its three outcomes. *)
Lemma NewClient_cases k o :
  if bool_decide (CodecType o = codec.GobType) then
    match codec.hello_result k with
    | Some e =>
      NewClient k o
      = (inr e, codec.set_closed
                  (codec.log codec.EClose (codec.log (codec.EJsonEncode o) k)))
    | None =>
      NewClient k o
      = (inl (newClientCodec
                (codec.NewGobCodecFunc (codec.log (codec.EJsonEncode o) k)) o),
         codec.log (codec.EJsonEncode o) k)
    end
  else
    NewClient k o
    = (inr (errors_New ("invalid codec type " +:+ CodecType o)), k).
Proof.
  unfold NewClient, codec.NewCodeFuncMap. case_bool_decide as Ht.
  - rewrite Ht, lookup_insert_eq. by destruct (codec.hello_result k).
  - by rewrite lookup_insert_ne, lookup_empty.
Qed.

End DialFacts.

(** X12: [Dial] and the connection it opens. When [net.Dial] fails, [Dial] does
    not return its error: it goes on with the nil connection and panics.
    When [Dial] returns an error after connecting, the connection has been
    closed, nothing was read from it and no frame was written. When it
    returns a client, the client is new and available, it reads and writes
    on the connection, and all that has happened on the connection is the
    encoding of the option that [parseOptions] returned. *)
Theorem Dial_outcomes {value : Type}
    (net_Dial : string -> string -> codec.Conn value + error)
    (network address : string) (options : list (option nat))
    (st : gmap nat Option) (p : nat) (st1 : gmap nat Option) :
  parseOptions options st = (inl p, st1) ->
  let d := (Dial net_Dial network address options st).1 in
  reached_net_Dial d = true
  ∧ match net_Dial network address with
    | inr _ => returned d = None ∧ connection d = None
    | inl k =>
      ∃ k',
        connection d = Some k'
        ∧ codec.writes k' = codec.writes k
        ∧ codec.incoming k' = codec.incoming k
        ∧ match returned d with
          | None => False
          | Some (inr e) => codec.conn_closed k' = true
          | Some (inl cl) =>
            codec.conn (c cl) = k'
            ∧ codec.conn_closed k' = codec.conn_closed k
            ∧ codec.events k'
              = codec.events k ++ [codec.EJsonEncode (deref st1 p)]
            ∧ option_ cl = deref st1 p
            ∧ seq cl = 1 ∧ pending cl = ∅
            ∧ closed cl = false ∧ shutdown cl = false
          end
    end.
Proof.
  intros Hparse. cbv zeta. unfold Dial. rewrite Hparse.
  destruct (net_Dial network address) as [k|e]; [|done].
  pose proof (NewClient_cases k (deref st1 p)) as Hnew.
  case_bool_decide.
  - destruct (codec.hello_result k) as [e|]; rewrite Hnew; simpl.
    + split; [done|]. eexists. by split_and!.
    + split; [done|]. eexists. by split_and!.
  - rewrite Hnew. simpl. split; [done|]. eexists. by split_and!.
Qed.

Lemma Dial_outcomes_witness :
  ∃ cl k',
    returned (Dial dial_ok "tcp" ":9999" [] option_store).1 = Some (inl cl)
    ∧ codec.conn (c cl) = k'
    ∧ codec.events k' = [codec.EJsonEncode DefaultOption_value].
Proof.
  destruct (Dial_outcomes dial_ok "tcp" ":9999" [] option_store
              DefaultOption option_store eq_refl) as [_ (k' & _ & _ & _ & H)].
  destruct (returned _) as [[cl|e]|] eqn:Hr in H.
  - exists cl, k'. split; [exact Hr|].
    destruct H as (Hc & _ & He & _). split; [exact Hc|exact He].
  - exfalso. vm_compute in Hr. discriminate.
  - destruct H.
Defined.

(** X13: a caller who asks for a codec type other than gob (the JSON type is
    declared, but only the gob constructor is entered in [NewCodeFuncMap])
    gets the error "invalid codec type <type>" from [Dial]; the connection
    was opened, nothing was encoded on it, and it has been closed once. *)
Theorem Dial_unsupported_codec {value : Type}
    (net_Dial : string -> string -> codec.Conn value + error)
    (network address : string) (p : nat) (o : Option)
    (st : gmap nat Option) (k : codec.Conn value) :
  st !! p = Some o ->
  CodecType o ≠ "" ->
  CodecType o ≠ codec.GobType ->
  net_Dial network address = inl k ->
  let d := (Dial net_Dial network address [Some p] st).1 in
  returned d = Some (inr (errors_New ("invalid codec type " +:+ CodecType o)))
  ∧ ∃ k',
      connection d = Some k'
      ∧ codec.events k' = codec.events k ++ [codec.EClose]
      ∧ codec.conn_closed k' = true.
Proof.
  intros Hp Hne Hgob Hdial. cbv zeta. unfold Dial.
  rewrite parseOptions_one. cbv zeta. rewrite Hdial.
  set (st1 := alter _ p st).
  assert (Hd : CodecType (deref st1 p) = CodecType o).
  { unfold deref, st1. by rewrite lookup_alter_eq, Hp. }
  apply String.eqb_neq in Hne. rewrite Hd, Hne.
  pose proof (NewClient_cases k (deref st1 p)) as Hnew.
  rewrite Hd in Hnew. rewrite bool_decide_false in Hnew by done.
  rewrite Hnew. simpl. split; [done|]. by eexists.
Qed.

Lemma Dial_unsupported_codec_witness :
  returned (Dial dial_ok "tcp" ":9999" [Some 1%nat] json_store).1
  = Some (inr (errors_New "invalid codec type application/json")).
Proof.
  refine (proj1 (Dial_unsupported_codec dial_ok "tcp" ":9999" 1%nat json_codec
                   json_store flaky_conn eq_refl _ _ eq_refl)).
  - discriminate.
  - discriminate.
Defined.

Section Options.
Implicit Types (st : gmap nat Option) (p q : nat) (o : Option).

Lemma parseOptions_one_lookup p st o :
  st !! p = Some o ->
  (parseOptions [Some p] st).2
  = <[p := parsed (if decide (p = DefaultOption) then o
                   else deref st DefaultOption) o]> st.
Proof.
  intros Hp. rewrite parseOptions_one. cbn [snd].
  set (m := MagicNumber_ (deref st DefaultOption)).
  assert (H1 : deref (alter (set_MagicNumber m) p st) p = set_MagicNumber m o).
  { unfold deref. by rewrite lookup_alter_eq, Hp. }
  cbv zeta. rewrite H1. cbn [CodecType set_MagicNumber].
  apply map_eq. intros q. destruct (decide (q = p)) as [->|Hq].
  - rewrite lookup_insert_eq.
    destruct (decide (p = DefaultOption)) as [->|Hne].
    + assert (deref st DefaultOption = o) as Hd.
      { unfold deref. by rewrite Hp. }
      subst m. rewrite Hd. unfold parsed.
      destruct (String.eqb (CodecType o) "") eqn:Ho.
      * rewrite !lookup_alter_eq, Hp. simpl. unfold deref.
        by rewrite lookup_alter_eq, Hp.
      * by rewrite lookup_alter_eq, Hp.
    + unfold parsed. destruct (String.eqb (CodecType o) "") eqn:Ho.
      * rewrite !lookup_alter_eq, Hp. simpl. unfold deref at 1.
        by rewrite lookup_alter_ne.
      * by rewrite lookup_alter_eq, Hp.
  - rewrite lookup_insert_ne by done.
    destruct (String.eqb (CodecType o) ""); by rewrite ?lookup_alter_ne.
Qed.

Lemma parseOptions_one_missing p st :
  st !! p = None -> (parseOptions [Some p] st).2 = st.
Proof.
  intros Hp. rewrite parseOptions_one. cbn [snd]. cbv zeta.
  apply map_eq. intros q.
  destruct (String.eqb _ _); destruct (decide (q = p)) as [->|Hq];
    rewrite ?lookup_alter_eq, ?lookup_alter_ne, ?Hp by done; done.
Qed.

Lemma parsed_again dflt o :
  parsed dflt (parsed dflt o) = parsed dflt o.
Proof.
  unfold parsed. simpl. f_equal.
  destruct (String.eqb (CodecType o) "") eqn:Ho; [|by rewrite Ho].
  by destruct (String.eqb (CodecType dflt) "").
Qed.

Lemma parsed_self o : parsed (parsed o o) (parsed o o) = parsed o o.
Proof.
  unfold parsed. simpl. f_equal.
  by destruct (String.eqb (CodecType o) "") eqn:Ho; rewrite Ho.
Qed.

End Options.

(** X14: [parseOptions] writes through the caller's pointer and nowhere else: an
    option other than the single one passed is as it was, no option appears
    or disappears, and parsing the same arguments again returns the same
    result and changes nothing more. *)
Theorem parseOptions_in_place (options : list (option nat))
    (st : gmap nat Option) :
  let st' := (parseOptions options st).2 in
  (∀ q, options ≠ [Some q] -> st' !! q = st !! q)
  ∧ dom st' = dom st
  ∧ parseOptions options st' = parseOptions options st.
Proof.
  cbv zeta. destruct options as [|[p|] [|o2 rest]]; try by split_and!.
  destruct (st !! p) as [o|] eqn:Hp.
  2:{ rewrite parseOptions_one_missing by done. by split_and!. }
  rewrite (parseOptions_one_lookup p st o Hp).
  set (o' := parsed _ o). split_and!.
  - intros q Hq. rewrite lookup_insert_ne; [done|]. by intros ->.
  - apply set_eq. intros q. rewrite dom_insert, elem_of_union, elem_of_singleton.
    split; [intros [->|]; [by apply elem_of_dom|done]|auto].
  - rewrite (surjective_pairing (parseOptions [Some p] (<[p:=o']> st))).
    rewrite (surjective_pairing (parseOptions [Some p] st)).
    rewrite (parseOptions_one_lookup p (<[p:=o']> st) o')
      by apply lookup_insert_eq.
    rewrite (parseOptions_one_lookup p st o Hp). fold o'.
    f_equal. rewrite insert_insert_eq. f_equal. subst o'.
    destruct (decide (p = DefaultOption)) as [->|Hne].
    + apply parsed_self.
    + unfold deref. rewrite lookup_insert_ne by done. apply parsed_again.
Qed.

(** ** Strings as the registry uses them *)

Lemma list_ascii_of_string_app (a b : string) :
  String.list_ascii_of_string (a +:+ b)
  = String.list_ascii_of_string a ++ String.list_ascii_of_string b.
Proof. induction a as [|x a IH]; simpl; [done|]. by rewrite IH. Qed.

Lemma string_of_list_ascii_app (l1 l2 : list ascii) :
  String.string_of_list_ascii (l1 ++ l2)
  = String.string_of_list_ascii l1 +:+ String.string_of_list_ascii l2.
Proof. induction l1 as [|x l1 IH]; simpl; [done|]. by rewrite IH. Qed.

Lemma String_length_list (s : string) :
  String.length s = length (String.list_ascii_of_string s).
Proof. induction s as [|x s IH]; simpl; [done|]. by rewrite IH. Qed.

Lemma LastIndex_dot_found (l : list ascii) : ∀ i found d,
  LastIndex_dot l i found = d ->
  (d = found ∧ "."%char ∉ l)
  ∨ ∃ l1 l2, l = l1 ++ ("."%char :: l2) ∧ ("."%char ∉ l2)
             ∧ d = i + Z.of_nat (length l1).
Proof.
  induction l as [|a r IH]; intros i found d; simpl.
  - intros <-. left. split; [done|]. apply not_elem_of_nil.
  - intros Hd. apply IH in Hd as [[-> Hr]|(l1 & l2 & -> & Hl2 & ->)].
    + destruct (Ascii.eqb_spec a ".") as [->|Hne].
      * right. exists [], r. split_and!; [done|done|simpl; lia].
      * left. split; [done|]. by intros [?|?]%elem_of_cons.
    + right. exists (a :: l1), l2. split_and!; [done|done|].
      simpl length. lia.
Qed.

Lemma LastIndex_dot_last (l1 l2 : list ascii) : ∀ i found,
  "."%char ∉ l2 ->
  LastIndex_dot (l1 ++ "."%char :: l2) i found = i + Z.of_nat (length l1).
Proof.
  intros i found Hl2.
  destruct (LastIndex_dot_found (l1 ++ "."%char :: l2) i found _ eq_refl)
    as [[_ Hno]|(l1' & l2' & Heq & Hl2' & ->)].
  - exfalso. apply Hno, elem_of_app. right. apply list_elem_of_here.
  - f_equal. f_equal.
    assert (l1 = l1') as ->; [|done].
    revert l1' Heq. induction l1 as [|a l1 IH]; intros [|a' l1']; simpl.
    + done.
    + intros [= <- ->]. exfalso. apply Hl2, elem_of_app. right.
      apply list_elem_of_here.
    + intros [= -> <-]. exfalso. apply Hl2', elem_of_app. right.
      apply list_elem_of_here.
    + intros [= <- Heq]. f_equal. by apply IH.
Qed.

(** [s[:dot]] and [s[dot+1:]] for the index of a dot. *)
Lemma slice_around (l1 l2 : list ascii) :
  let s := String.string_of_list_ascii (l1 ++ "."%char :: l2) in
  slice s 0 (length l1) = String.string_of_list_ascii l1
  ∧ slice s (length l1 + 1) (String.length s) = String.string_of_list_ascii l2.
Proof.
  cbv zeta. unfold slice.
  rewrite String_length_list, !String.list_ascii_of_string_of_list_ascii.
  split.
  - by rewrite Nat.sub_0_r, drop_0, take_app_length.
  - f_equal. rewrite drop_app_ge, length_app by lia.
    replace (length l1 + 1 - length l1)%nat with 1%nat by lia.
    simpl. rewrite drop_0. apply take_ge. lia.
Qed.

Section FindService.
Context {value : Type}.
Implicit Types (server : Server value) (svc : service value)
  (mt : methodType value).

Lemma findService_at server (l1 l2 : list ascii) :
  "."%char ∉ l2 ->
  findService server (String.string_of_list_ascii (l1 ++ "."%char :: l2))
  = match serviceMap server !! String.string_of_list_ascii l1 with
    | None =>
      (None, None,
       Some (errors_New ("rpc server: can't find service: "
                         +:+ String.string_of_list_ascii l1)))
    | Some svc =>
      match method svc !! String.string_of_list_ascii l2 with
      | None =>
        (Some svc, None,
         Some (errors_New ("rpc server: can't find method: "
                           +:+ String.string_of_list_ascii l2)))
      | Some mt => (Some svc, Some mt, None)
      end
    end.
Proof.
  intros Hl2. unfold findService, LastIndex.
  rewrite String.list_ascii_of_string_of_list_ascii.
  rewrite LastIndex_dot_last by done.
  destruct (Z.ltb_spec (0 + Z.of_nat (length l1)) 0) as [?|_]; [lia|].
  replace (Z.to_nat (0 + Z.of_nat (length l1))) with (length l1) by lia.
  destruct (slice_around l1 l2) as [-> ->]. done.
Qed.

Lemma findService_ill_formed server (s : string) :
  "."%char ∉ String.list_ascii_of_string s ->
  findService server s
  = (None, None,
     Some (errors_New
             ("rpc server: service/method request ill-formed: " +:+ s))).
Proof.
  intros Hs. unfold findService, LastIndex.
  destruct (LastIndex_dot_found (String.list_ascii_of_string s) 0 (-1) _ eq_refl)
    as [[-> _]|(l1 & l2 & Heq & _ & _)]; [done|].
  exfalso. apply Hs. rewrite Heq. apply elem_of_app. right.
  apply list_elem_of_here.
Qed.

Lemma findService_dot server (a b : string) :
  "."%char ∉ String.list_ascii_of_string b ->
  findService server (a +:+ "." +:+ b)
  = match serviceMap server !! a with
    | None =>
      (None, None,
       Some (errors_New ("rpc server: can't find service: " +:+ a)))
    | Some svc =>
      match method svc !! b with
      | None =>
        (Some svc, None,
         Some (errors_New ("rpc server: can't find method: " +:+ b)))
      | Some mt => (Some svc, Some mt, None)
      end
    end.
Proof.
  intros Hb.
  pose proof (findService_at server (String.list_ascii_of_string a)
                (String.list_ascii_of_string b) Hb) as Hat.
  rewrite !String.string_of_list_ascii_of_string in Hat. rewrite <- Hat.
  f_equal. rewrite <- (String.string_of_list_ascii_of_string (a +:+ "." +:+ b)).
  by rewrite !list_ascii_of_string_app.
Qed.

Lemma findService_found server (s : string) svc mt :
  findService server s = (Some svc, Some mt, None) ->
  ∃ a b, s = a +:+ "." +:+ b
         ∧ ("."%char ∉ String.list_ascii_of_string b)
         ∧ serviceMap server !! a = Some svc
         ∧ method svc !! b = Some mt.
Proof.
  intros Hf.
  destruct (LastIndex_dot_found (String.list_ascii_of_string s) 0 (-1) _ eq_refl)
    as [[Hd _]|(l1 & l2 & Heq & Hl2 & _)].
  { unfold findService, LastIndex in Hf. by rewrite Hd in Hf. }
  assert (Hs : s = String.string_of_list_ascii (l1 ++ "."%char :: l2)).
  { by rewrite <- Heq, String.string_of_list_ascii_of_string. }
  rewrite Hs, findService_at in Hf by done.
  exists (String.string_of_list_ascii l1), (String.string_of_list_ascii l2).
  rewrite String.list_ascii_of_string_of_list_ascii.
  destruct (serviceMap server !! _) as [svc'|] eqn:Hsvc; [|done].
  destruct (method svc' !! _) as [mt'|] eqn:Hmt; [|done].
  injection Hf as -> ->. split_and!; try done.
  rewrite Hs. by rewrite string_of_list_ascii_app.
Qed.

End FindService.

(** X15: [findService] splits the request string at its last dot. Without a dot
    the string is refused as ill-formed; otherwise what is in front of the
    last dot, dots included, is looked up as the service and what follows it
    as the method, with an error that names the part that was not found. So
    a method is found exactly for the strings [<service>.<method>] of a
    registered service and one of its methods whose name has no dot. *)
Theorem findService_splits_at_last_dot {value : Type} (server : Server value) :
  (∀ s, "."%char ∉ String.list_ascii_of_string s ->
        findService server s
        = (None, None,
           Some (errors_New
                   ("rpc server: service/method request ill-formed: " +:+ s))))
  ∧ (∀ a b, "."%char ∉ String.list_ascii_of_string b ->
        findService server (a +:+ "." +:+ b)
        = match serviceMap server !! a with
          | None =>
            (None, None,
             Some (errors_New ("rpc server: can't find service: " +:+ a)))
          | Some svc =>
            match method svc !! b with
            | None =>
              (Some svc, None,
               Some (errors_New ("rpc server: can't find method: " +:+ b)))
            | Some mt => (Some svc, Some mt, None)
            end
          end)
  ∧ (∀ s svc mt,
        findService server s = (Some svc, Some mt, None) ->
        ∃ a b, s = a +:+ "." +:+ b
               ∧ ("."%char ∉ String.list_ascii_of_string b)
               ∧ serviceMap server !! a = Some svc
               ∧ method svc !! b = Some mt).
Proof.
  split_and!.
  - apply findService_ill_formed.
  - apply findService_dot.
  - apply findService_found.
Qed.

Section RegistryFacts.
Context {value : Type} `{!reflect.Values value} (upper : Z -> bool).
Implicit Types (server : Server value) (svc : service value)
  (mt : methodType value) (m : reflect.Method value).

Lemma registerMethods_entries (methods : list (reflect.Method value)) n mt :
  registerMethods upper methods !! n = Some mt ->
  registered_as upper methods n mt.
Proof.
  unfold registerMethods.
  cut (∀ l (ms : gmap string (methodType value)),
         (∀ m, m ∈ l -> m ∈ methods) ->
         (∀ n mt, ms !! n = Some mt -> registered_as upper methods n mt) ->
         ∀ n mt, foldl (registerMethod upper) ms l !! n = Some mt ->
                 registered_as upper methods n mt).
  { intros Hcut. apply (Hcut methods ∅); [done|]. intros ? ?.
    by rewrite lookup_empty. }
  clear n mt. induction l as [|m l IH]; intros ms Hl Hms n mt; simpl.
  - apply Hms.
  - apply IH.
    + intros m' Hm'. apply Hl, elem_of_cons. by right.
    + clear n mt. intros n mt. rewrite registerMethod_shape.
      destruct (rpc_shape upper m) eqn:Hs; [|apply Hms].
      intros [[<- <-]|[_ Hn]]%lookup_insert_Some; [|by apply Hms].
      split_and!; try done. apply Hl, list_elem_of_here.
Qed.

Lemma Register_stores (i : Instance value) server server' :
  Register upper i server = Ok (None, server') ->
  ∃ t,
    Indirect_Type i = Some t
    ∧ ast.IsExported upper (reflect.Name t) = true
    ∧ serviceMap server !! reflect.Name t = None
    ∧ serviceMap server'
      = <[reflect.Name t :=
            {| name := reflect.Name t; typ := inst_type i;
               instance := inst_value i;
               method := registerMethods upper (inst_methods i) |}]>
          (serviceMap server).
Proof.
  unfold Register, newService. intros Hreg.
  destruct (Indirect_Type i) as [t|]; [|done]. exists t.
  destruct (ast.IsExported upper (reflect.Name t)) eqn:Hex; [|done].
  simpl in Hreg.
  destruct (serviceMap server !! reflect.Name t) eqn:Hn; [done|].
  by injection Hreg as <-.
Qed.

Lemma built_entries server :
  built upper server ->
  ∀ n svc,
    serviceMap server !! n = Some svc ->
    ast.IsExported upper n = true ∧ name svc = n
    ∧ ∀ x mt, method svc !! x = Some mt ->
              ∃ L, registered_as upper L x mt.
Proof.
  induction 1 as [|i server server' _ IH Hreg]; intros n svc.
  - simpl. by rewrite lookup_empty.
  - apply Register_stores in Hreg as (t & _ & Hex & _ & ->).
    intros [[<- <-]|[_ Hn]]%lookup_insert_Some; [|by apply IH].
    split_and!; try done. simpl. intros x mt Hx.
    exists (inst_methods i). by apply registerMethods_entries.
Qed.

Lemma built_well_keyed server : built upper server -> well_keyed server.
Proof.
  intros Hb n svc Hn. destruct (built_entries server Hb n svc Hn)
    as (_ & Hname & Hm).
  split; [done|]. intros x mt Hx. by destruct (Hm x mt Hx) as (L & _ & ? & _).
Qed.

End RegistryFacts.

(** X16: after a successful [Register] every method of the instance that has the
    shape of an RPC method is found by [findService] under [<type
    name>.<method name>], in a service that carries the instance, with a
    descriptor that holds a method of that name and shape, its second and
    third parameter types as argument and reply type, and a call count of
    zero; lookups under other service names answer as before. *)
Theorem Register_then_findService {value : Type} `{!reflect.Values value}
    (upper : Z -> bool) (i : Instance value) (server server' : Server value)
    (m : reflect.Method value) :
  Register upper i server = Ok (None, server') ->
  m ∈ inst_methods i ->
  rpc_shape upper m = true ->
  "."%char ∉ String.list_ascii_of_string (reflect.Method_Name m) ->
  ∃ t svc mt,
    Indirect_Type i = Some t
    ∧ findService server' (reflect.Name t +:+ "." +:+ reflect.Method_Name m)
      = (Some svc, Some mt, None)
    ∧ name svc = reflect.Name t
    ∧ instance svc = inst_value i
    ∧ typ svc = inst_type i
    ∧ method_ mt ∈ inst_methods i
    ∧ reflect.Method_Name (method_ mt) = reflect.Method_Name m
    ∧ rpc_shape upper (method_ mt) = true
    ∧ ArgType mt = nth 1 (reflect.In (method_ mt)) reflect.invalidType
    ∧ ReplyType mt = nth 2 (reflect.In (method_ mt)) reflect.invalidType
    ∧ NumCalls mt = 0
    ∧ ∀ a b,
        a ≠ reflect.Name t ->
        "."%char ∉ String.list_ascii_of_string b ->
        findService server' (a +:+ "." +:+ b)
        = findService server (a +:+ "." +:+ b).
Proof.
  intros Hreg Hm Hshape Hdot.
  apply Register_stores in Hreg as (t & Ht & _ & _ & Hmap).
  destruct (proj2 (registerMethods_lookup upper (inst_methods i)
                     (reflect.Method_Name m))) as [mt Hmt]; [by exists m|].
  destruct (registerMethods_entries upper _ _ _ Hmt)
    as (Hin & Hname & Hsh & Ha & Hr & Hn).
  eexists t, _, mt. split_and!; try done.
  - rewrite findService_dot by done. rewrite Hmap, lookup_insert_eq. simpl.
    by rewrite Hmt.
  - done.
  - done.
  - done.
  - intros a b Ha' Hb. rewrite !findService_dot by done.
    by rewrite Hmap, lookup_insert_ne.
Qed.

Lemma Register_then_findService_witness :
  ∃ svc mt,
    findService foo_server "Foo.Sum" = (Some svc, Some mt, None)
    ∧ ArgType mt = T_Args ∧ ReplyType mt = reflect.PtrTo T_int.
Proof.
  destruct (Register_then_findService ascii_only foo NewServer foo_server M_Sum)
    as (t & svc & mt & Ht & Hf & _ & _ & _ & Hin & Hn & _ & Ha & Hr & _).
  - reflexivity.
  - apply elem_of_cons. right. apply list_elem_of_here.
  - reflexivity.
  - vm_compute. intros H. repeat (apply elem_of_cons in H as [H|H]; [discriminate H|]).
    by apply elem_of_nil in H.
  - injection Ht as <-. exists svc, mt. split; [exact Hf|].
    apply elem_of_cons in Hin as [Hin|Hin].
    { rewrite Hin in Hn. discriminate Hn. }
    apply list_elem_of_singleton in Hin. rewrite Ha, Hr, Hin. split; reflexivity.
Defined.

(** X17: on a registry built by [Register], whatever [findService] finds was
    registered: the request string is the name of the service, a dot and the
    name of the method; the service name is an exported identifier; the
    method has the shape of an RPC method, and its descriptor carries the
    method's second and third parameter types. *)
Theorem findService_finds_registered {value : Type} `{!reflect.Values value}
    (upper : Z -> bool) (server : Server value) (s : string)
    (svc : service value) (mt : methodType value) :
  built upper server ->
  findService server s = (Some svc, Some mt, None) ->
  s = name svc +:+ "." +:+ reflect.Method_Name (method_ mt)
  ∧ ast.IsExported upper (name svc) = true
  ∧ rpc_shape upper (method_ mt) = true
  ∧ ArgType mt = nth 1 (reflect.In (method_ mt)) reflect.invalidType
  ∧ ReplyType mt = nth 2 (reflect.In (method_ mt)) reflect.invalidType
  ∧ NumCalls mt = 0.
Proof.
  intros Hb Hf. apply findService_found in Hf as (a & b & -> & _ & Ha & Hm).
  destruct (built_entries upper server Hb a svc Ha) as (Hex & <- & Hms).
  destruct (Hms b mt Hm) as (L & _ & <- & Hsh & Harg & Hrep & Hn).
  by split_and!.
Qed.

Lemma findService_finds_registered_witness :
  ∃ svc mt,
    findService foo_server "Foo.Sum" = (Some svc, Some mt, None)
    ∧ "Foo.Sum" = name svc +:+ "." +:+ reflect.Method_Name (method_ mt)
    ∧ rpc_shape ascii_only (method_ mt) = true.
Proof.
  destruct (findService foo_server "Foo.Sum") as [[[svc|] [mt|]] [e|]] eqn:Hf;
    try (vm_compute in Hf; discriminate Hf).
  exists svc, mt. split; [reflexivity|].
  destruct (findService_finds_registered ascii_only foo_server "Foo.Sum" svc mt
              foo_server_built Hf) as (Hs & _ & Hsh & _).
  split; [exact Hs|exact Hsh].
Defined.

Section Counting.
Context {value : Type}.
Implicit Types (server : Server value) (svc s : service value)
  (m mt : methodType value).

Lemma count_call_lookup server s m n :
  serviceMap (count_call s m server) !! n
  = (if decide (n = name s) then
       λ svc, {| name := name svc; typ := typ svc; instance := instance svc;
                 method := alter bump (reflect.Method_Name (method_ m))
                             (method svc) |}
     else id) <$> serviceMap server !! n.
Proof.
  unfold count_call. simpl. destruct (decide (n = name s)) as [->|Hne].
  - by rewrite lookup_alter_eq.
  - rewrite lookup_alter_ne by done. by destruct (serviceMap server !! n).
Qed.

Lemma count_call_well_keyed server s m :
  well_keyed server -> well_keyed (count_call s m server).
Proof.
  intros Hk n svc'. rewrite count_call_lookup.
  destruct (serviceMap server !! n) as [svc|] eqn:Hn; [|done].
  destruct (Hk n svc Hn) as [Hname Hm]. simpl.
  destruct (decide (n = name s)) as [->|Hne]; intros [= <-]; [|done].
  split; [done|]. simpl. intros x mt.
  destruct (decide (x = reflect.Method_Name (method_ m))) as [->|Hx].
  - rewrite lookup_alter_eq.
    destruct (method svc !! _) as [mt0|] eqn:H0; [|done].
    intros [= <-]. simpl. by apply Hm.
  - rewrite lookup_alter_ne by done. apply Hm.
Qed.

End Counting.

(** X18: [call] runs the method on the service's instance and counts the call:
    in the registry it leaves, the descriptor found under the same request
    string has a count that is one higher, modulo [2^64], and is otherwise
    the same, and every other method that could be found before is found
    with its descriptor unchanged. *)
Theorem call_counts {value : Type} (server : Server value)
    (s : service value) (m : methodType value) (argv reply : value)
    (serviceMethod : string) :
  well_keyed server ->
  findService server serviceMethod = (Some s, Some m, None) ->
  let server' := (call s m argv reply server).2 in
  (call s m argv reply server).1
  = reflect.Func_ (method_ m) (instance s) argv reply
  ∧ well_keyed server'
  ∧ (∃ s',
       findService server' serviceMethod = (Some s', Some (bump m), None)
       ∧ name s' = name s ∧ instance s' = instance s ∧ typ s' = typ s)
  ∧ NumCalls (bump m) = uint64_incr (NumCalls m)
  ∧ method_ (bump m) = method_ m
  ∧ ∀ other s2 m2,
      other ≠ serviceMethod ->
      findService server other = (Some s2, Some m2, None) ->
      ∃ s2', findService server' other = (Some s2', Some m2, None).
Proof.
  intros Hk Hf. cbv zeta. unfold call. cbn [fst snd].
  apply findService_found in Hf as (a & b & -> & Hb & Ha & Hm).
  destruct (Hk a s Ha) as [Hname Hkeys]. pose proof (Hkeys b m Hm) as Hmn.
  split_and!; try done.
  - by apply count_call_well_keyed.
  - eexists. rewrite findService_dot by done.
    rewrite count_call_lookup, Ha, Hname, decide_True by done. simpl.
    rewrite Hmn, lookup_alter_eq, Hm. simpl. done.
  - intros other s2 m2 Hne Hf2.
    apply findService_found in Hf2 as (a2 & b2 & -> & Hb2 & Ha2 & Hm2).
    rewrite findService_dot by done. rewrite count_call_lookup, Ha2. simpl.
    destruct (decide (a2 = name s)) as [->|Hna]; simpl.
    + assert (s2 = s) as -> by congruence.
      rewrite Hmn, lookup_alter_ne, Hm2; [by eexists|].
      intros <-. apply Hne. by rewrite Hname.
    + rewrite Hm2. by eexists.
Qed.

Lemma call_counts_witness :
  ∃ s m,
    findService foo_server "Foo.Sum" = (Some s, Some m, None)
    ∧ NumCalls m = 0
    ∧ ∃ s',
        findService (call s m () () foo_server).2 "Foo.Sum"
        = (Some s', Some (bump m), None)
        ∧ NumCalls (bump m) = 1.
Proof.
  destruct (findService foo_server "Foo.Sum") as [[[s|] [m|]] [e|]] eqn:Hf;
    try (vm_compute in Hf; discriminate Hf).
  exists s, m. split; [reflexivity|].
  destruct (call_counts foo_server s m () () "Foo.Sum"
              (built_well_keyed ascii_only foo_server foo_server_built) Hf)
    as (_ & _ & (s' & Hf' & _) & Hn & _).
  assert (H0 : NumCalls m = 0).
  { vm_compute in Hf. injection Hf as _ <-. reflexivity. }
  split; [exact H0|]. exists s'. split; [exact Hf'|].
  rewrite Hn, H0. reflexivity.
Defined.




Section Responses.
Context {value : Type} `{!reflect.Values value}.
Implicit Types (server : Server value) (c : codec.GobCodec value)
  (k : codec.Conn value) (evs : list (codec.event value)).










End Responses.





Section Sessions.
Context {value : Type} `{!reflect.Values value}.
Implicit Types (server : Server value) (cd : codec.GobCodec value).



End Sessions.


Section AnyOrder.
Context {value : Type}.
Implicit Types (w : World value) (p q : nat) (e : error) (l : list nat).




End AnyOrder.



(** X24: the option that [Dial] encodes is one the server accepts.  With
    [DefaultOption] unmodified, when the caller passes no option, a nil
    option, or one option whose codec type is empty or gob, the option
    [parseOptions] returns carries [MagicNumber] and the gob codec type, and
    [ServeConn] on a connection that delivers this option goes on to serve
    requests with the gob codec instead of refusing the handshake. *)
Theorem Dial_option_accepted {value : Type} `{!reflect.Values value}
    (options : list (option nat)) (st st1 : gmap nat Option) (p : nat) :
  st !! DefaultOption = Some DefaultOption_value ->
  parseOptions options st = (inl p, st1) ->
  (∀ q, options = [Some q] ->
        ∃ o, st !! q = Some o
             ∧ (CodecType o = "" ∨ CodecType o = codec.GobType)) ->
  MagicNumber_ (deref st1 p) = MagicNumber
  ∧ CodecType (deref st1 p) = codec.GobType
  ∧ ∀ (server : Server value) (k : codec.Conn value),
      codec.hello k = inl (deref st1 p) ->
      ServeConn server k
      = let '(e, c1, server') :=
          serveCodec server
            (codec.NewGobCodecFunc (codec.log codec.EJsonDecode k)) in
        (e, (codec.conn_Close (codec.conn c1)).2, server').
Proof.
  intros Hdef Hparse Hone.
  assert (Ho : deref st1 p = DefaultOption_value
               ∨ (MagicNumber_ (deref st1 p) = MagicNumber
                  ∧ CodecType (deref st1 p) = codec.GobType)).
  { destruct options as [|[q|] [|o2 rest]].
    - injection Hparse as <- <-. left. unfold deref. by rewrite Hdef.
    - destruct (Hone q eq_refl) as (o & Hq & Hcodec).
      pose proof (parseOptions_one_lookup q st o Hq) as Hst.
      rewrite Hparse in Hst. simpl in Hst. subst st1.
      assert (p = q) as ->.
      { rewrite parseOptions_one in Hparse. by injection Hparse as <- _. }
      right.
      assert (Hd : (if decide (q = DefaultOption) then o
                    else deref st DefaultOption) = DefaultOption_value).
      { destruct (decide (q = DefaultOption)) as [->|_].
        - congruence.
        - unfold deref. by rewrite Hdef. }
      rewrite Hd. unfold deref. rewrite lookup_insert_eq. simpl.
      split; [done|]. destruct Hcodec as [->| ->]; done.
    - done.
    - injection Hparse as <- <-. left. unfold deref. by rewrite Hdef.
    - injection Hparse as <- <-. left. unfold deref. by rewrite Hdef. }
  assert (Hm : MagicNumber_ (deref st1 p) = MagicNumber
               ∧ CodecType (deref st1 p) = codec.GobType).
  { destruct Ho as [->|?]; done. }
  destruct Hm as [Hm Hc]. split_and!; [done|done|].
  intros server k Hhello. unfold ServeConn.
  rewrite Hhello, Hm, Hc, Z.eqb_refl. simpl.
  unfold codec.NewCodeFuncMap. by rewrite lookup_insert_eq.
Qed.

Lemma Dial_option_accepted_witness :
  deref (parseOptions [Some 1%nat] option_store).2 1%nat = DefaultOption_value.
Proof.
  destruct (Dial_option_accepted (value := unit) [Some 1%nat] option_store
              (parseOptions [Some 1%nat] option_store).2 1%nat eq_refl eq_refl)
    as (Hm & Hc & _).
  - intros q [= <-]. exists caller_option. split; [reflexivity|by left].
  - destruct (deref _ _) as [m t]. simpl in Hm, Hc. by rewrite Hm, Hc.
Defined.
